(** * simple-queue: the in-memory work queue, its snapshot format,
      its registry and its notification filter

    A shallow embedding of [src/queue/Queue.ts], [src/queue/storage.ts],
    [src/queue/QueueManager.ts], of [subscribeToQueue] of
    [src/services/QueueNotificationService.ts], of the timer callback and
    the saving part of [shutdown] of [src/services/QueueService.ts] and of
    the command table of [src/commands/CommandHandler.ts], with the
    properties of the specification stated over it, followed by further
    properties of the code.

    Conventions.
    - A JavaScript [number] that the code uses as a counter, a priority or a
      millisecond time stamp is a [Z]; non-finite and fractional numbers are
      outside the model.
    - A [Date] is its time value ([getTime()], milliseconds since the epoch).
    - A [Map<string, V>] is an association list in insertion order, which is
      the iteration order of a JavaScript [Map]; a [Set<string>] is a list in
      insertion order.
    - [uuidv4()] and [new Date()] are inputs of [enqueue].
    - A call either returns or throws ([Completion]); a promise is given by
      how it settles ([Settled]); a file system is passed explicitly.
    - A processor is a function of the item: it does not touch the queue
      that runs it.
    - [autoSave] is fire-and-forget: it is not awaited, never changes the
      in-memory state, and is left out of the in-memory operations;
      [enqueueSaved] and the like pair an operation with the save it
      starts.
    - Queue operations are not interleaved: each runs to its end before
      the next one starts. *)

From Stdlib Require Import ZArith String Ascii List Bool Lia.
From Stdlib Require Import Sorting.Sorted Sorting.Permutation.
Import ListNotations.

Local Open Scope string_scope.
Local Open Scope Z_scope.
Local Open Scope list_scope.

(** ** JavaScript containers *)

Section JsMap.
Variable V : Type.

(** [Map<string, V>]: entries in insertion order, keys pairwise distinct. *)
Definition JsMap := list (string * V).

Definition map_keys (m : JsMap) : list string := map fst m.
Definition map_values (m : JsMap) : list V := map snd m.
Definition map_size (m : JsMap) : Z := Z.of_nat (length m).

Fixpoint map_get (k : string) (m : JsMap) : option V :=
  match m with
  | [] => None
  | (k', v) :: m' => if String.eqb k k' then Some v else map_get k m'
  end.

Definition map_has (k : string) (m : JsMap) : bool :=
  match map_get k m with Some _ => true | None => false end.

(** [Map.prototype.set]: an existing key keeps its position. *)
Fixpoint map_set (k : string) (v : V) (m : JsMap) : JsMap :=
  match m with
  | [] => [(k, v)]
  | (k', v') :: m' =>
      if String.eqb k k' then (k', v) :: m' else (k', v') :: map_set k v m'
  end.

Definition map_delete (k : string) (m : JsMap) : JsMap :=
  filter (fun e => negb (String.eqb k (fst e))) m.

(** [new Map(entries)] *)
Definition map_of_entries (es : list (string * V)) : JsMap :=
  fold_left (fun m e => map_set (fst e) (snd e) m) es [].
End JsMap.

Arguments map_keys {V} m.
Arguments map_values {V} m.
Arguments map_size {V} m.
Arguments map_get {V} k m.
Arguments map_has {V} k m.
Arguments map_set {V} k v m.
Arguments map_delete {V} k m.
Arguments map_of_entries {V} es.

(** [Set<string>]: elements in insertion order, pairwise distinct. *)
Definition JsSet := list string.

Definition set_has (k : string) (s : JsSet) : bool := existsb (String.eqb k) s.
Definition set_add (k : string) (s : JsSet) : JsSet :=
  if set_has k s then s else s ++ [k].
Definition set_delete (k : string) (s : JsSet) : JsSet :=
  filter (fun x => negb (String.eqb k x)) s.
Definition set_of_list (l : list string) : JsSet :=
  fold_left (fun s k => set_add k s) l [].

(** [Array.prototype.sort(cmp)].  The sort is stable (ECMAScript 2019), so
    for a comparator that is a total preorder its result is the one stable
    sorted arrangement ([stable_sort_unique] below), which insertion from
    the right computes. *)
Section JsSort.
Variable A : Type.
Variable cmp : A -> A -> Z.

Fixpoint insert (x : A) (l : list A) : list A :=
  match l with
  | [] => [x]
  | y :: l' => if cmp x y <=? 0 then x :: y :: l' else y :: insert x l'
  end.

Fixpoint sort (l : list A) : list A :=
  match l with
  | [] => []
  | x :: l' => insert x (sort l')
  end.

(** [a] may stand before [b]. *)
Definition before (a b : A) : Prop := cmp a b <= 0.

(** Neither of [a] and [b] has to stand before the other. *)
Definition same_rank (a b : A) : bool := (cmp a b <=? 0) && (cmp b a <=? 0).
End JsSort.

Arguments insert {A} cmp x l.
Arguments sort {A} cmp l.
Arguments before {A} cmp a b.
Arguments same_rank {A} cmp a b.

(** [Array.prototype.slice(0, limit)]: a negative [limit] counts from the
    end of the array. *)
Definition slice0 {A : Type} (limit : Z) (l : list A) : list A :=
  if limit <? 0
  then firstn (Z.to_nat (Z.max 0 (Z.of_nat (length l) + limit))) l
  else firstn (Z.to_nat limit) l.

(** A call either returns or throws. *)
Inductive Completion (A : Type) : Type :=
| Return (a : A)
| Throw (msg : string).
Arguments Return {A} a.
Arguments Throw {A} msg.

(** A promise, once settled. *)
Inductive Settled (A : Type) : Type :=
| Fulfilled (a : A)
| Rejected (err : string).
Arguments Fulfilled {A} a.
Arguments Rejected {A} err.

(** A call of a function declared [async] returns a promise and never
    throws: an error thrown in the body rejects that promise. *)
Definition async {A S : Type} (body : S -> Completion (Settled A) * S) (s : S)
    : Completion (Settled A) * S :=
  match body s with
  | (Return p, s') => (Return p, s')
  | (Throw err, s') => (Return (Rejected err), s')
  end.

(** ** types.ts *)

Record QueueItem (T : Type) : Type := mkItem {
  id : string;
  data : T;
  addedAt : Z;
  priority : Z;
  processingAttempts : Z
}.
Arguments mkItem {T}.
Arguments id {T}.
Arguments data {T}.
Arguments addedAt {T}.
Arguments priority {T}.
Arguments processingAttempts {T}.

(** [QueueOptions]: every field may be omitted.  ([batchSize], of the
    notification system, is not read by [Queue.ts].) *)
Record QueueOptions : Type := mkOptions {
  maxSize : option Z;
  retryLimit : option Z;
  priorityEnabled : option bool
}.

(** [Required<QueueOptions>], the options a queue holds. *)
Record RequiredOptions : Type := mkRequired {
  r_maxSize : Z;
  r_retryLimit : Z;
  r_priorityEnabled : bool
}.

(** A processor is an async function to a success boolean. *)
Definition QueueProcessor (T : Type) : Type := QueueItem T -> Settled bool.

(** Queue event types of the notification system. *)
Inductive QueueEventType : Type :=
| batchReady
| queueComplete
| itemAdded
| itemProcessed
| queueEmpty.

Definition QueueEventType_eqb (a b : QueueEventType) : bool :=
  match a, b with
  | batchReady, batchReady
  | queueComplete, queueComplete
  | itemAdded, itemAdded
  | itemProcessed, itemProcessed
  | queueEmpty, queueEmpty => true
  | _, _ => false
  end.

Record EventData (T : Type) : Type := mkEventData {
  d_item : option (QueueItem T);
  d_batchSize : option Z;
  d_remainingItems : option Z;
  d_itemsSinceLastNotification : option Z
}.
Arguments mkEventData {T}.
Arguments d_item {T}.

Record QueueEvent (T : Type) : Type := mkEvent {
  type : QueueEventType;
  queueName : string;
  timestamp : Z;
  eventData : option (EventData T)
}.
Arguments mkEvent {T}.
Arguments type {T}.
Arguments queueName {T}.
Arguments timestamp {T}.
Arguments eventData {T}.

(** [onEvent(event): void] acts on the world [W] outside the queue. *)
Record QueueSubscriber (T W : Type) : Type := mkSubscriber {
  onEvent : QueueEvent T -> W -> W
}.
Arguments mkSubscriber {T W}.
Arguments onEvent {T W}.

Record NotificationOptions (T : Type) : Type := mkNotificationOptions {
  eventTypes : option (list QueueEventType);
  filterFn : option (QueueEvent T -> bool)
}.
Arguments mkNotificationOptions {T}.
Arguments eventTypes {T}.
Arguments filterFn {T}.

(** ** storage.ts *)

(** *** The JavaScript values a payload can hold, and JSON *)

#[local] Set Warnings "-register-all".

(** The properties of an object are listed in enumeration order, under
    pairwise distinct names. *)
Inductive JsValue : Type :=
| JsUndefined
| JsNull
| JsBool (b : bool)
| JsNumber (n : Z)
| JsString (s : string)
| JsDate (t : option Z)   (* [None] is the invalid date *)
| JsArray (elems : list JsValue)
| JsObject (props : list (string * JsValue)).

(** A JSON document.  The snapshot file holds the text [JSON.stringify]
    writes for a document and [JSON.parse] reads that text back to the
    document, so a file is modelled by its document. *)
Inductive Json : Type :=
| JNull
| JBool (b : bool)
| JNum (n : Z)
| JStr (s : string)
| JArr (elems : list Json)
| JObj (members : list (string * Json)).

(** Induction on values, through the elements of arrays and the
    properties of objects. *)
Section JsValueInduction.
Variable P : JsValue -> Prop.
Hypothesis P_undefined : P JsUndefined.
Hypothesis P_null : P JsNull.
Hypothesis P_bool : forall b, P (JsBool b).
Hypothesis P_number : forall n, P (JsNumber n).
Hypothesis P_string : forall s, P (JsString s).
Hypothesis P_date : forall t, P (JsDate t).
Hypothesis P_array : forall elems, Forall P elems -> P (JsArray elems).
Hypothesis P_object :
  forall props, Forall (fun p => P (snd p)) props -> P (JsObject props).

Fixpoint JsValue_induction (v : JsValue) : P v :=
  match v with
  | JsUndefined => P_undefined
  | JsNull => P_null
  | JsBool b => P_bool b
  | JsNumber n => P_number n
  | JsString s => P_string s
  | JsDate t => P_date t
  | JsArray elems =>
      P_array elems
        ((fix all (l : list JsValue) : Forall P l :=
            match l with
            | [] => Forall_nil P
            | x :: l' => Forall_cons x (JsValue_induction x) (all l')
            end) elems)
  | JsObject props =>
      P_object props
        ((fix all (l : list (string * JsValue))
            : Forall (fun p => P (snd p)) l :=
            match l with
            | [] => Forall_nil _
            | (k, x) :: l' =>
                Forall_cons (k, x) (JsValue_induction x) (all l')
            end) props)
  end.
End JsValueInduction.

(** *** Dates as ISO-8601 text *)

Definition msPerDay : Z := 86400000.
Definition maxTime : Z := 8640000000000000.

(** Year, month (1..12) and day of month of a day number (days since
    1970-01-01), in the proleptic Gregorian calendar. *)
Definition dateFromDay (day : Z) : Z * Z * Z :=
  let z := day + 719468 in
  let era := z / 146097 in
  let doe := z - era * 146097 in
  let yoe := (doe - doe / 1460 + doe / 36524 - doe / 146096) / 365 in
  let doy := doe - (365 * yoe + yoe / 4 - yoe / 100) in
  let mp := (5 * doy + 2) / 153 in
  let d := doy - (153 * mp + 2) / 5 + 1 in
  let m := if mp <? 10 then mp + 3 else mp - 9 in
  (yoe + era * 400 + (if m <=? 2 then 1 else 0), m, d).

(** The day number of a year, month and day of month. *)
Definition MakeDay (year m d : Z) : Z :=
  let y := year - (if m <=? 2 then 1 else 0) in
  let era := y / 400 in
  let yoe := y - era * 400 in
  let doy := (153 * (if 2 <? m then m - 3 else m + 9) + 2) / 5 + d - 1 in
  let doe := yoe * 365 + yoe / 4 - yoe / 100 + doy in
  era * 146097 + doe - 719468.

Definition digit (d : Z) : ascii := ascii_of_nat (48 + Z.to_nat d).
Definition is_digit (c : ascii) : bool :=
  (48 <=? nat_of_ascii c)%nat && (nat_of_ascii c <=? 57)%nat.
Definition digit_value (c : ascii) : Z := Z.of_nat (nat_of_ascii c) - 48.

(** [n] in [w] decimal digits, zero padded. *)
Fixpoint pad (w : nat) (n : Z) : string :=
  match w with
  | O => EmptyString
  | S w' => String.append (pad w' (n / 10)) (String (digit (n mod 10)) EmptyString)
  end.

(** Reads [w] decimal digits. *)
Fixpoint take_digits (w : nat) (s : string) : option (Z * string) :=
  match w with
  | O => Some (0, s)
  | S w' =>
      match take_digits w' s with
      | Some (v, String c rest) =>
          if is_digit c then Some (v * 10 + digit_value c, rest) else None
      | _ => None
      end
  end.

Definition expect (c : ascii) (s : string) : option string :=
  match s with
  | String c' rest => if Ascii.eqb c c' then Some rest else None
  | EmptyString => None
  end.

(** [Date.prototype.toISOString] of a valid time value: four digits for
    the years 0 to 9999, a sign and six digits otherwise. *)
Definition toISOString (t : Z) : string :=
  let day := t / msPerDay in
  let tod := t mod msPerDay in
  let '(y, m, d) := dateFromDay day in
  let year :=
    if (0 <=? y) && (y <=? 9999) then pad 4 y
    else String (if y <? 0 then "-"%char else "+"%char) (pad 6 (Z.abs y)) in
  (year ++ "-" ++ pad 2 m ++ "-" ++ pad 2 d ++ "T" ++
   pad 2 (tod / 3600000) ++ ":" ++ pad 2 (tod / 60000 mod 60) ++ ":" ++
   pad 2 (tod / 1000 mod 60) ++ "." ++ pad 3 (tod mod 1000) ++ "Z")%string.

Definition bind_opt {A B : Type} (o : option A) (k : A -> option B) : option B :=
  match o with Some a => k a | None => None end.

Notation "'let?' x ':=' e 'in' k" := (bind_opt e (fun x => k))
  (at level 10, x pattern, e at level 100, k at level 200).

Definition parse_year (s : string) : option (Z * string) :=
  match s with
  | String "+"%char rest => take_digits 6 rest
  | String "-"%char rest =>
      let? (y, rest') := take_digits 6 rest in Some (- y, rest')
  | _ => take_digits 4 s
  end.

(** The time value [new Date(text)] holds for a text in the form
    [toISOString] writes; [None] is the invalid date.  The other forms the
    [Date] constructor accepts are not modelled. *)
Definition Date_parse (s : string) : option Z :=
  let? (y, s) := parse_year s in
  let? s := expect "-" s in
  let? (m, s) := take_digits 2 s in
  let? s := expect "-" s in
  let? (d, s) := take_digits 2 s in
  let? s := expect "T" s in
  let? (hh, s) := take_digits 2 s in
  let? s := expect ":" s in
  let? (mm, s) := take_digits 2 s in
  let? s := expect ":" s in
  let? (ss, s) := take_digits 2 s in
  let? s := expect "." s in
  let? (ms, s) := take_digits 3 s in
  let? s := expect "Z" s in
  match s with
  | EmptyString =>
      if (1 <=? m) && (m <=? 12) && (1 <=? d) && (d <=? 31)
         && (hh <=? 23) && (mm <=? 59) && (ss <=? 59)
      then
        let t := MakeDay y m d * msPerDay
                 + hh * 3600000 + mm * 60000 + ss * 1000 + ms in
        if (- maxTime <=? t) && (t <=? maxTime) then Some t else None
      else None
  | _ => None
  end.

(** *** JSON.stringify and JSON.parse *)

(** What [JSON.stringify] writes for a value; [None] when it writes
    nothing ([undefined]).  An [undefined] array element is written as
    [null], a property holding [undefined] is left out, and a [Date] is
    written through [toJSON]: its ISO text, or [null] when invalid. *)
Fixpoint toJson (v : JsValue) : option Json :=
  match v with
  | JsUndefined => None
  | JsNull => Some JNull
  | JsBool b => Some (JBool b)
  | JsNumber n => Some (JNum n)
  | JsString s => Some (JStr s)
  | JsDate None => Some JNull
  | JsDate (Some t) => Some (JStr (toISOString t))
  | JsArray elems =>
      Some (JArr (map (fun e => match toJson e with
                                | Some j => j
                                | None => JNull
                                end) elems))
  | JsObject props =>
      Some (JObj (flat_map (fun p : string * JsValue => let (k, e) := p in
                                     match toJson e with
                                     | Some j => [(k, j)]
                                     | None => []
                                     end) props))
  end.

(** The value [JSON.parse] builds for a document; of two members with one
    name the later value is kept. *)
Fixpoint fromJson (j : Json) : JsValue :=
  match j with
  | JNull => JsNull
  | JBool b => JsBool b
  | JNum n => JsNumber n
  | JStr s => JsString s
  | JArr elems => JsArray (map fromJson elems)
  | JObj members =>
      JsObject (map_of_entries
                  (map (fun p : string * Json => let (k, e) := p in (k, fromJson e))
                       members))
  end.

(** [v.name], for an object [v]. *)
Definition prop (name : string) (v : JsValue) : JsValue :=
  match v with
  | JsObject props =>
      match map_get name props with Some x => x | None => JsUndefined end
  | _ => JsUndefined
  end.

(** [new Date(v)] *)
Definition newDate (v : JsValue) : JsValue :=
  match v with
  | JsString s => JsDate (Date_parse s)
  | JsNumber n =>
      JsDate (if (- maxTime <=? n) && (n <=? maxTime) then Some n else None)
  | JsDate t => JsDate t
  | JsNull => JsDate (Some 0)
  | JsBool b => JsDate (Some (if b then 1 else 0))
  | _ => JsDate None
  end.

(** *** Items as JavaScript objects *)

(** The object [enqueue] creates for an item. *)
Definition itemObject (it : QueueItem JsValue) : JsValue :=
  JsObject [("id", JsString (id it));
            ("data", data it);
            ("addedAt", JsDate (Some (addedAt it)));
            ("priority", JsNumber (priority it));
            ("processingAttempts", JsNumber (processingAttempts it))].

(** The typed reading of an object as a [QueueItem]; the code casts
    without a check, and objects that are no well-typed item are outside
    the model. *)
Definition asItem (v : JsValue) : option (QueueItem JsValue) :=
  match prop "id" v, prop "addedAt" v,
        prop "priority" v, prop "processingAttempts" v with
  | JsString i, JsDate (Some t), JsNumber p, JsNumber a =>
      Some (mkItem i (prop "data" v) t p a)
  | _, _, _, _ => None
  end.

(** *** The file system *)

(** The files by path, and the paths on which reads and writes fail. *)
Record FileSystem : Type := mkFS {
  files : JsMap Json;
  failing : list string
}.

Definition existsSync (path : string) (fs : FileSystem) : bool :=
  map_has path (files fs).

(** [fs.writeFile]: the error passed to the callback, and the file system
    afterwards. *)
Definition writeFile (path : string) (doc : Json) (fs : FileSystem)
    : option string * FileSystem :=
  if existsb (String.eqb path) (failing fs) then (Some "EIO", fs)
  else (None, mkFS (map_set path doc (files fs)) (failing fs)).

(** [fs.readFile]: the error or the contents. *)
Definition readFile (path : string) (fs : FileSystem) : string + Json :=
  if existsb (String.eqb path) (failing fs) then inl "EIO"
  else match map_get path (files fs) with
       | Some doc => inr doc
       | None => inl "ENOENT"
       end.

(** *** StorageAdapter and FileStorageAdapter *)

Record StorageAdapter (T : Type) : Type := mkAdapter {
  save : JsMap (QueueItem T) -> JsSet -> FileSystem -> Settled unit * FileSystem;
  load : FileSystem -> Settled (JsMap (QueueItem T) * JsSet)
}.
Arguments mkAdapter {T}.
Arguments save {T}.
Arguments load {T}.

(** The object [save] hands to [JSON.stringify]. *)
Definition snapshot (items : JsMap (QueueItem JsValue)) (processing : JsSet)
    : JsValue :=
  JsObject
    [("items",
      JsArray (map (fun e => JsArray [JsString (fst e); itemObject (snd e)])
                   items));
     ("processing", JsArray (map JsString processing))].

(** [save(items, processing)]: the promise it returns and the file
    system after the write. *)
Definition FileStorageAdapter_save (filePath : string)
    (items : JsMap (QueueItem JsValue)) (processing : JsSet)
    (fs : FileSystem) : Settled unit * FileSystem :=
  match toJson (snapshot items processing) with
  | Some doc =>
      match writeFile filePath doc fs with
      | (Some err, fs') => (Rejected err, fs')
      | (None, fs') => (Fulfilled tt, fs')
      end
  | None => (Rejected "TypeError", fs)
  end.

(** [[key, { ...value, addedAt: new Date(value.addedAt) }]] for one parsed
    entry [[key, value]], then read as a typed entry. *)
Definition reviveEntry (entry : JsValue) : option (string * QueueItem JsValue) :=
  match entry with
  | JsArray (JsString key :: JsObject props :: _) =>
      let value := JsObject props in
      let? item :=
        asItem (JsObject (map_set "addedAt" (newDate (prop "addedAt" value))
                                  props)) in
      Some (key, item)
  | _ => None
  end.

Definition asString (v : JsValue) : option string :=
  match v with JsString s => Some s | _ => None end.

(** All the elements read, or nothing. *)
Fixpoint traverse {A B : Type} (f : A -> option B) (l : list A)
    : option (list B) :=
  match l with
  | [] => Some []
  | a :: l' =>
      let? b := f a in
      let? bs := traverse f l' in
      Some (b :: bs)
  end.

(** [load()].  A snapshot that parses but does not have the typed shape
    that [save] writes makes the code hand out ill-typed items; the typed
    model has no such items and reports the load as rejected. *)
Definition FileStorageAdapter_load (filePath : string) (fs : FileSystem)
    : Settled (JsMap (QueueItem JsValue) * JsSet) :=
  if negb (existsSync filePath fs) then Fulfilled ([], [])
  else
    match readFile filePath fs with
    | inl err => Rejected err
    | inr doc =>
        let parsed := fromJson doc in
        match prop "items" parsed, prop "processing" parsed with
        | JsArray entries, JsArray ids =>
            match traverse reviveEntry entries, traverse asString ids with
            | Some es, Some ss =>
                Fulfilled (map_of_entries es, set_of_list ss)
            | _, _ => Rejected "snapshot outside the typed model"
            end
        | _, _ => Rejected "TypeError"
        end
    end.

Definition FileStorageAdapter (filePath : string) : StorageAdapter JsValue :=
  mkAdapter (FileStorageAdapter_save filePath) (FileStorageAdapter_load filePath).

(** *** Values that JSON represents *)

Fixpoint distinct (l : list string) : bool :=
  match l with
  | [] => true
  | x :: l' => negb (existsb (String.eqb x) l') && distinct l'
  end.

(** [null], booleans, numbers, strings, and arrays and objects of such;
    no [undefined] and no [Date] anywhere inside. *)
Fixpoint json_value (v : JsValue) : bool :=
  match v with
  | JsUndefined | JsDate _ => false
  | JsNull | JsBool _ | JsNumber _ | JsString _ => true
  | JsArray elems => forallb json_value elems
  | JsObject props =>
      distinct (map fst props)
      && forallb (fun p : string * JsValue => let (_, e) := p in json_value e)
                 props
  end.

(** An item that a snapshot represents: its payload is a JSON value, or
    [undefined] as a whole, and its time stamp is in the range of [Date]. *)
Definition storable (it : QueueItem JsValue) : Prop :=
  (data it = JsUndefined \/ json_value (data it) = true) /\
  - maxTime <= addedAt it <= maxTime.

(** What [JSON.stringify] writes for one entry [[key, item]]. *)
Definition entryJson (e : string * QueueItem JsValue) : Json :=
  match toJson (JsArray [JsString (fst e); itemObject (snd e)]) with
  | Some j => j
  | None => JNull
  end.

(** ** Queue.ts *)

Record Queue (T : Type) : Type := mkQueue {
  items : JsMap (QueueItem T);
  processing : JsSet;
  options : RequiredOptions;
  processors : list (QueueProcessor T);
  storageAdapter : option (StorageAdapter T)
}.
Arguments mkQueue {T}.
Arguments items {T}.
Arguments processing {T}.
Arguments options {T}.
Arguments processors {T}.
Arguments storageAdapter {T}.

(** [x || d] on an optional number: [undefined] and [0] are falsy. *)
Definition or_number (x : option Z) (d : Z) : Z :=
  match x with
  | Some n => if n =? 0 then d else n
  | None => d
  end.

(** [x || d] on an optional boolean. *)
Definition or_bool (x : option bool) (d : bool) : bool :=
  match x with
  | Some b => if b then true else d
  | None => d
  end.

Definition noOptions : QueueOptions := mkOptions None None None.

Section QueueOps.
Context {T : Type}.

Definition newQueue (o : QueueOptions) : Queue T :=
  mkQueue [] []
    (mkRequired (or_number (maxSize o) 1000)
                (or_number (retryLimit o) 3)
                (or_bool (priorityEnabled o) false))
    [] None.

(** The queue with a new mapping and a new in-flight set. *)
Definition with_state (q : Queue T) (m : JsMap (QueueItem T)) (s : JsSet)
    : Queue T :=
  mkQueue m s (options q) (processors q) (storageAdapter q).
Definition with_items (q : Queue T) (m : JsMap (QueueItem T)) : Queue T :=
  with_state q m (processing q).
Definition with_processing (q : Queue T) (s : JsSet) : Queue T :=
  with_state q (items q) s.

Definition setStorageAdapter (adapter : StorageAdapter T) (q : Queue T)
    : Queue T :=
  mkQueue (items q) (processing q) (options q) (processors q) (Some adapter).

(** [loadFromStorage()], an async function: the promise it returns and
    the queue once the promise has settled. *)
Definition loadFromStorage (q : Queue T) (fs : FileSystem)
    : Settled unit * Queue T :=
  match storageAdapter q with
  | None => (Rejected "No storage adapter set", q)
  | Some adapter =>
      match load adapter fs with
      | Fulfilled (m, s) => (Fulfilled tt, with_state q m s)
      | Rejected err => (Rejected err, q)
      end
  end.

(** The body of [saveToStorage()]; [await] hands on how the promise of
    [save] settles. *)
Definition saveToStorage_body (q : Queue T) (fs : FileSystem)
    : Completion (Settled unit) * FileSystem :=
  match storageAdapter q with
  | None => (Throw "No storage adapter set", fs)
  | Some adapter =>
      let (p, fs') := save adapter (items q) (processing q) fs in
      (Return p, fs')
  end.

(** [saveToStorage()] is declared [async]. *)
Definition saveToStorage (q : Queue T) (fs : FileSystem)
    : Completion (Settled unit) * FileSystem :=
  async (saveToStorage_body q) fs.

(** [enqueue(data, priority = 0)]; [uuid] is what [uuidv4()] returns and
    [now] what [new Date()] reads. *)
Definition enqueue (uuid : string) (now : Z) (d : T) (prio : option Z)
    (q : Queue T) : Completion string * Queue T :=
  if map_size (items q) >=? r_maxSize (options q) then
    (Throw "Queue is full", q)
  else
    let p := match prio with Some p => p | None => 0 end in
    let item := mkItem uuid d now
                  (if r_priorityEnabled (options q) then p else 0) 0 in
    (Return uuid, with_items q (map_set uuid item (items q))).

(** Higher priority first, then older items. *)
Definition byPriority (a b : QueueItem T) : Z :=
  if negb (priority b =? priority a)
  then priority b - priority a
  else addedAt a - addedAt b.

(** Just the oldest item. *)
Definition byAge (a b : QueueItem T) : Z := addedAt a - addedAt b.

(** All items not currently being processed. *)
Definition availableItems (q : Queue T) : list (QueueItem T) :=
  filter (fun item => negb (set_has (id item) (processing q)))
         (map_values (items q)).

(** The comparator of the branch that [dequeue] and [peek] take. *)
Definition selection (q : Queue T) : QueueItem T -> QueueItem T -> Z :=
  if r_priorityEnabled (options q) then byPriority else byAge.

(** [peek()]: [None] is [null]. *)
Definition peek (q : Queue T) : option (QueueItem T) :=
  if map_size (items q) =? 0 then None
  else match availableItems q with
       | [] => None
       | _ :: _ => hd_error (sort (selection q) (availableItems q))
       end.

(** [dequeue()].  The sorted array is not empty where the code takes
    its element [0]. *)
Definition dequeue (q : Queue T) : option (QueueItem T) * Queue T :=
  if map_size (items q) =? 0 then (None, q)
  else match availableItems q with
       | [] => (None, q)
       | _ :: _ =>
           match sort (selection q) (availableItems q) with
           | nextItem :: _ =>
               (Some nextItem,
                with_processing q (set_add (id nextItem) (processing q)))
           | [] => (None, q)
           end
       end.

(** [complete(id)] *)
Definition complete (i : string) (q : Queue T) : bool * Queue T :=
  if negb (set_has i (processing q)) then (false, q)
  else (true, with_state q (map_delete i (items q))
                         (set_delete i (processing q))).

(** The four ways out of [retry]. *)
Inductive RetryPath : Type :=
| NotInFlight
| MissingItem
| Exhausted
| Released.

(** The way [retry(id)] takes. *)
Definition retry_path (i : string) (q : Queue T) : RetryPath :=
  if negb (set_has i (processing q)) then NotInFlight
  else match map_get i (items q) with
       | None => MissingItem
       | Some item =>
           if processingAttempts item >=? r_retryLimit (options q)
           then Exhausted else Released
       end.

(** The item after
    [item.processingAttempts = (item.processingAttempts || 0) + 1]. *)
Definition bump (item : QueueItem T) : QueueItem T :=
  mkItem (id item) (data item) (addedAt item) (priority item)
         (or_number (Some (processingAttempts item)) 0 + 1).

(** [bump] on the item with id [i], nothing on the others. *)
Definition bump_at (i : string) (item : QueueItem T) : QueueItem T :=
  if String.eqb (id item) i then bump item else item.

(** [retry(id)].  The assignment to the item is an update of the entry
    that holds it. *)
Definition retry (i : string) (q : Queue T) : bool * Queue T :=
  if negb (set_has i (processing q)) then (false, q)
  else match map_get i (items q) with
       | None => (false, q)
       | Some item =>
           if processingAttempts item >=? r_retryLimit (options q) then
             (false, with_state q (map_delete i (items q))
                                (set_delete i (processing q)))
           else
             (true, with_state q (map_set i (bump item) (items q))
                               (set_delete i (processing q)))
       end.

(** [registerProcessor(processor)] *)
Definition registerProcessor (p : QueueProcessor T) (q : Queue T) : Queue T :=
  mkQueue (items q) (processing q) (options q) (processors q ++ [p])
          (storageAdapter q).

Definition size (q : Queue T) : Z := map_size (items q).

Definition clear (q : Queue T) : Queue T := with_state q [] [].
End QueueOps.

Record Counts : Type := mkCounts { succeeded : Z; failed : Z }.

Section QueueBatch.
Context {T : Type}.

(** How the [for] loop over the processors inside [try] ends. *)
Inductive LoopExit : Type :=
| FirstSuccess
| AllFailed
| Caught (err : string).

(** The loop of [processNext]: the exit, and the positions (in
    registration order) of the processors that were invoked. *)
Fixpoint runProcessors (ps : list (QueueProcessor T)) (item : QueueItem T)
    (k : nat) : LoopExit * list nat :=
  match ps with
  | [] => (AllFailed, [])
  | p :: ps' =>
      match p item with
      | Fulfilled true => (FirstSuccess, [k])
      | Fulfilled false =>
          let (e, tr) := runProcessors ps' item (S k) in (e, k :: tr)
      | Rejected err => (Caught err, [k])
      end
  end.

(** [processNext()], with the invoked processors as a third component. *)
Definition processNext (q : Queue T) : bool * Queue T * list nat :=
  match dequeue q with
  | (None, _) => (false, q, [])
  | (Some item, q1) =>
      match runProcessors (processors q1) item 0 with
      | (FirstSuccess, tr) => (true, snd (complete (id item) q1), tr)
      | (AllFailed, tr) => (false, snd (retry (id item) q1), tr)
      | (Caught _, tr) => (false, snd (retry (id item) q1), tr)
      end
  end.

(** The comparator of [browse]: items not in flight first, then by
    priority if enabled, then the oldest first. *)
Definition browseOrder (q : Queue T) (a b : QueueItem T) : Z :=
  let aProcessing := if set_has (id a) (processing q) then 1 else 0 in
  let bProcessing := if set_has (id b) (processing q) then 1 else 0 in
  if negb (aProcessing =? bProcessing) then aProcessing - bProcessing
  else if r_priorityEnabled (options q) && negb (priority a =? priority b)
  then or_number (Some (priority b)) 0 - or_number (Some (priority a)) 0
  else addedAt a - addedAt b.

(** [browse(limit = 10)] *)
Definition browse (limit : option Z) (q : Queue T) : list (QueueItem T) :=
  slice0 (match limit with Some n => n | None => 10 end)
         (sort (browseOrder q) (map_values (items q))).

Fixpoint dequeueLoop (n : nat) (q : Queue T) : list (QueueItem T) * Queue T :=
  match n with
  | O => ([], q)
  | S n' =>
      match dequeue q with
      | (None, q') => ([], q')
      | (Some item, q') =>
          let (results, q'') := dequeueLoop n' q' in (item :: results, q'')
      end
  end.

(** [dequeueMany(count)]: the loop runs [max(0, count)] times at most. *)
Definition dequeueMany (count : Z) (q : Queue T) : list (QueueItem T) * Queue T :=
  dequeueLoop (Z.to_nat count) q.

(** [succeeded++] or [failed++]. *)
Definition tally (ok : bool) (c : Counts) : Counts :=
  if ok then mkCounts (succeeded c + 1) (failed c)
  else mkCounts (succeeded c) (failed c + 1).

(** The counting loop shared by [completeMany] and [retryMany]. *)
Fixpoint countLoop (op : string -> Queue T -> bool * Queue T)
    (ids : list string) (c : Counts) (q : Queue T) : Counts * Queue T :=
  match ids with
  | [] => (c, q)
  | i :: ids' =>
      let (ok, q') := op i q in
      countLoop op ids' (tally ok c) q'
  end.

Definition completeMany (ids : list string) (q : Queue T) : Counts * Queue T :=
  countLoop complete ids (mkCounts 0 0) q.

Definition retryMany (ids : list string) (q : Queue T) : Counts * Queue T :=
  countLoop retry ids (mkCounts 0 0) q.
End QueueBatch.

(** ** The shape of reachable states *)

Section Invariant.
Context {T : Type}.

(** Every entry is stored under its own id. *)
Definition keyed (q : Queue T) : Prop :=
  forall k item, In (k, item) (items q) -> id item = k.

(** The in-flight set is a subset of the key set of the mapping. *)
Definition inflight_subset (q : Queue T) : Prop :=
  forall i, set_has i (processing q) = true -> map_has i (items q) = true.

(** The keys of the mapping are pairwise distinct, as in any [Map]. *)
Definition distinct_keys (q : Queue T) : Prop := NoDup (map_keys (items q)).

(** The available items have pairwise distinct ids. *)
Definition distinct_ids (q : Queue T) : Prop :=
  NoDup (map id (availableItems q)).

(** Entries under their own id, in-flight ids among the keys. *)
Definition well_formed (q : Queue T) : Prop := keyed q /\ inflight_subset q.

(** The public operations of the claim, with the inputs of each call. *)
Inductive Op : Type :=
| OpEnqueue (uuid : string) (now : Z) (d : T) (prio : option Z)
| OpDequeue
| OpPeek
| OpComplete (i : string)
| OpRetry (i : string)
| OpClear
| OpDequeueMany (count : Z)
| OpCompleteMany (ids : list string)
| OpRetryMany (ids : list string).

(** The state after one operation; [peek()] assigns nothing. *)
Definition step (q : Queue T) (o : Op) : Queue T :=
  match o with
  | OpEnqueue uuid now d prio => snd (enqueue uuid now d prio q)
  | OpDequeue => snd (dequeue q)
  | OpPeek => q
  | OpComplete i => snd (complete i q)
  | OpRetry i => snd (retry i q)
  | OpClear => clear q
  | OpDequeueMany count => snd (dequeueMany count q)
  | OpCompleteMany ids => snd (completeMany ids q)
  | OpRetryMany ids => snd (retryMany ids q)
  end.

Definition run (ops : list Op) (q : Queue T) : Queue T := fold_left step ops q.

(** A state is reachable when some sequence of public operations leads
    to it from a newly constructed queue. *)
Definition reachable (q : Queue T) : Prop :=
  exists o ops, q = run ops (newQueue o).
End Invariant.

(** ** Call sequences *)

Section Scenarios.
Context {T : Type}.

(** One call [enqueue(data, priority)] with what [uuidv4()] and
    [new Date()] give during it. *)
Record EnqueueCall : Type := mkCall {
  c_uuid : string;
  c_now : Z;
  c_data : T;
  c_priority : option Z
}.

Definition enqueueAll (calls : list EnqueueCall) (q : Queue T) : Queue T :=
  fold_left
    (fun q' c => snd (enqueue (c_uuid c) (c_now c) (c_data c) (c_priority c) q'))
    calls q.

(** The item a call stores in a queue with priorities enabled. *)
Definition enqueued (c : EnqueueCall) : QueueItem T :=
  mkItem (c_uuid c) (c_data c) (c_now c)
         (match c_priority c with Some p => p | None => 0 end) 0.

(** The entry of the mapping for that item. *)
Definition entry (c : EnqueueCall) : string * QueueItem T :=
  (c_uuid c, enqueued c).

(** [dequeue(); retry(id)], [n] times over: the results of the retries
    and the final queue. *)
Fixpoint retryRounds (n : nat) (i : string) (q : Queue T)
    : list bool * Queue T :=
  match n with
  | O => ([], q)
  | S n' =>
      let (ok, q') := retry i (snd (dequeue q)) in
      let (oks, q'') := retryRounds n' i q' in
      (ok :: oks, q'')
  end.

(** The order of [dequeue] with priorities enabled: higher priority
    first, and among equal priorities the older item first. *)
Definition priority_order (a b : QueueItem T) : Prop :=
  priority a > priority b \/
  (priority a = priority b /\ addedAt a <= addedAt b).

Definition has_priority (p : Z) (it : QueueItem T) : bool := priority it =? p.
Definition has_key (p t : Z) (it : QueueItem T) : bool :=
  (priority it =? p) && (addedAt it =? t).
End Scenarios.

Arguments EnqueueCall : clear implicits.

(** ** What [processNext] leaves behind *)

Section ProcessOutcome.
Context {T : Type}.

Definition with_processors (q : Queue T) (ps : list (QueueProcessor T))
    : Queue T :=
  mkQueue (items q) (processing q) (options q) ps (storageAdapter q).

(** The result of [processNext], the mapping and the in-flight set it
    leaves, and the processors it invoked. *)
Definition outcome (q : Queue T)
    : bool * JsMap (QueueItem T) * JsSet * list nat :=
  let '(ok, q', invoked) := processNext q in
  (ok, items q', processing q', invoked).

(** The processor that returns false where [p] throws. *)
Definition false_for_throw (p : QueueProcessor T) : QueueProcessor T :=
  fun item =>
    match p item with
    | Rejected _ => Fulfilled false
    | Fulfilled b => Fulfilled b
    end.

(** The reading of "a throw is treated identically to returning false":
    replacing every throw by a returned false changes nothing. *)
Definition throw_is_false : Prop :=
  forall q : Queue T,
    outcome q = outcome (with_processors q (map false_for_throw (processors q))).

Definition returns_false (item : QueueItem T) (p : QueueProcessor T) : Prop :=
  p item = Fulfilled false.
End ProcessOutcome.

(** ** QueueManager.ts *)

Record QueueManager : Type := mkManager {
  queues : JsMap (Queue JsValue);
  storageDir : option string
}.

Definition newQueueManager (dir : option string) : QueueManager :=
  mkManager [] dir.

(** [path.join(dir, name + ".json")] *)
Definition storagePath (dir name : string) : string :=
  (dir ++ "/" ++ name ++ ".json")%string.

(** [createQueue(name, options)].  The load it starts is not awaited; the
    queue is given as it is once that load has settled, a failed load
    leaving it empty.  An empty [storageDir] is falsy. *)
Definition createQueue (name : string) (o : QueueOptions) (mgr : QueueManager)
    (fs : FileSystem) : Completion (Queue JsValue) * QueueManager :=
  if map_has name (queues mgr) then
    (Throw ("Queue with name " ++ name ++ " already exists")%string, mgr)
  else
    let queue :=
      match storageDir mgr with
      | Some dir =>
          if String.eqb dir EmptyString then newQueue o
          else snd (loadFromStorage
                      (setStorageAdapter
                         (FileStorageAdapter (storagePath dir name))
                         (newQueue o)) fs)
      | None => newQueue o
      end in
    (Return queue, mkManager (map_set name queue (queues mgr)) (storageDir mgr)).

(** The loop of [saveAllQueues]:
    [try { promises.push(queue.saveToStorage()) } catch (error) { }]
    for every queue. *)
Fixpoint saveLoop (qs : list (Queue JsValue)) (promises : list (Settled unit))
    (fs : FileSystem) : list (Settled unit) * FileSystem :=
  match qs with
  | [] => (promises, fs)
  | queue :: qs' =>
      match saveToStorage queue fs with
      | (Return p, fs') => saveLoop qs' (promises ++ [p]) fs'
      | (Throw _, fs') => saveLoop qs' promises fs'
      end
  end.

(** [Promise.all]: fulfilled when every promise is, rejected as soon as
    one is.  Of several rejections the first in the list is reported
    here; JavaScript reports the first in time. *)
Fixpoint Promise_all (ps : list (Settled unit)) : Settled unit :=
  match ps with
  | [] => Fulfilled tt
  | Fulfilled _ :: ps' => Promise_all ps'
  | Rejected err :: _ => Rejected err
  end.

(** [saveAllQueues()]: the promise it returns, and the file system once
    every write has ended. *)
Definition saveAllQueues (mgr : QueueManager) (fs : FileSystem)
    : Settled unit * FileSystem :=
  let (promises, fs') := saveLoop (map_values (queues mgr)) [] fs in
  (Promise_all promises, fs').

Definition getQueue (name : string) (mgr : QueueManager)
    : option (Queue JsValue) :=
  map_get name (queues mgr).

Definition removeQueue (name : string) (mgr : QueueManager)
    : bool * QueueManager :=
  (map_has name (queues mgr),
   mkManager (map_delete name (queues mgr)) (storageDir mgr)).

Definition listQueues (mgr : QueueManager) : list string :=
  map_keys (queues mgr).

(** ** The event layer *)

Section Events.
Context {T W : Type}.

(** Modelled from the spec: the queue with its event layer.  The
    [Queue.ts] at hand has no [subscribe] and emits nothing; the
    specification (4.1, 4.3) gives a queue a name and a list of
    subscribers that receive every event it emits. *)
Record EventQueue : Type := mkEventQueue {
  core : Queue T;
  name : string;
  subscribers : list (QueueSubscriber T W)
}.

(** Modelled from the spec: [subscribe(sub)] registers a raw event
    receiver on the queue. *)
Definition subscribe (sub : QueueSubscriber T W) (evq : EventQueue)
    : EventQueue :=
  mkEventQueue (core evq) (name evq) (subscribers evq ++ [sub]).

(** Modelled from the spec: an emitted event is handed to every
    subscriber, synchronously, in registration order. *)
Definition emit (ev : QueueEvent T) (evq : EventQueue) (w : W) : W :=
  fold_left (fun w' sub => onEvent sub ev w') (subscribers evq) w.

(** Modelled from the spec: [complete(id)] of the queue with events:
    as [complete], and on success it emits [itemProcessed] carrying the
    item, then [queueEmpty] if the mapping is now empty. *)
Definition completeAndNotify (now : Z) (i : string) (evq : EventQueue) (w : W)
    : bool * EventQueue * W :=
  match complete i (core evq) with
  | (false, _) => (false, evq, w)
  | (true, q') =>
      let evq' := mkEventQueue q' (name evq) (subscribers evq) in
      let processed :=
        mkEvent itemProcessed (name evq) now
          (Some (mkEventData (map_get i (items (core evq))) None None None)) in
      let w1 := emit processed evq' w in
      let w2 :=
        if size q' =? 0
        then emit (mkEvent queueEmpty (name evq) now None) evq' w1
        else w1 in
      (true, evq', w2)
  end.

(** *** services/QueueNotificationService.ts *)

(** The wrapper [queueSubscriber] that [subscribeToQueue] builds around
    a subscriber. *)
Definition queueSubscriber (subscriber : QueueSubscriber T W)
    (opts : option (NotificationOptions T)) : QueueSubscriber T W :=
  mkSubscriber (fun event w =>
    if match opts with
       | Some o =>
           match eventTypes o with
           | Some ts => negb (existsb (QueueEventType_eqb (type event)) ts)
           | None => false
           end
       | None => false
       end
    then w
    else if match opts with
            | Some o =>
                match filterFn o with
                | Some f => negb (f event)
                | None => false
                end
            | None => false
            end
    then w
    else onEvent subscriber event w).

Record Subscription : Type := mkSubscription {
  sub_subscriber : QueueSubscriber T W;
  sub_options : option (NotificationOptions T)
}.

(** The service: its record of subscriptions by queue name.  The queues
    it looks up are those of the registry, here a [Map] from names to
    queues with events. *)
Record QueueNotificationService : Type := mkService {
  ns_subscribers : JsMap (list Subscription)
}.

Definition subscribeToQueue (queueName : string)
    (subscriber : QueueSubscriber T W)
    (opts : option (NotificationOptions T))
    (registry : JsMap EventQueue) (svc : QueueNotificationService)
    : bool * JsMap EventQueue * QueueNotificationService :=
  match map_get queueName registry with
  | None => (false, registry, svc)
  | Some queue =>
      let wrapped := queueSubscriber subscriber opts in
      let known :=
        match map_get queueName (ns_subscribers svc) with
        | Some l => l
        | None => []
        end in
      (true,
       map_set queueName (subscribe wrapped queue) registry,
       mkService (map_set queueName (known ++ [mkSubscription wrapped opts])
                          (ns_subscribers svc)))
  end.
End Events.

Arguments EventQueue : clear implicits.
Arguments Subscription : clear implicits.
Arguments QueueNotificationService : clear implicits.

(** ** Example states *)

(** A subscriber that records, under its name, the events it receives. *)
Definition recorder {T : Type} (who : string)
    : QueueSubscriber T (list (string * QueueEvent T)) :=
  mkSubscriber (fun event received => received ++ [(who, event)]).

(** The options [{ eventTypes: ['itemAdded'] }]. *)
Definition onlyItemAdded {T : Type} : NotificationOptions T :=
  mkNotificationOptions (Some [itemAdded]) None.

(** A queue holding one item, with a first processor that throws and a
    second that succeeds. *)
Definition throwing_queue : Queue unit :=
  mkQueue [("a", mkItem "a" tt 0 0 0)] [] (mkRequired 1000 3 false)
          [fun _ => Rejected "boom"; fun _ => Fulfilled true] None.

Definition emptyFS : FileSystem := mkFS [] [].

(** A registry without a storage directory, holding one queue. *)
Definition memory_manager : QueueManager :=
  snd (createQueue "jobs" noOptions (newQueueManager None) emptyFS).

(** A registry with a storage directory and two queues, on a file system
    where the file of the first queue cannot be written. *)
Definition disk_manager : QueueManager :=
  let fs := mkFS [] ["data/first.json"] in
  let m1 := snd (createQueue "first" noOptions (newQueueManager (Some "data")) fs) in
  snd (createQueue "second" noOptions m1 fs).

Definition faulty_disk : FileSystem := mkFS [] ["data/first.json"].

(** A mapping whose one item has a [Date] as payload. *)
Definition dated_items : JsMap (QueueItem JsValue) :=
  [("a", mkItem "a" (JsDate (Some 0)) 0 0 0)].

(** The calls of the scenario [enqueue(A, 1); enqueue(B, 5)]. *)
Definition two_calls : list (EnqueueCall string) :=
  [mkCall "id-a" 1000 "A" (Some 1); mkCall "id-b" 1000 "B" (Some 5)].

Definition priorityOptions : QueueOptions := mkOptions (Some 10) None (Some true).

(** The queue of the retry test: [retryLimit: 2] and one item. *)
Definition retry_test_queue : Queue string :=
  snd (enqueue "id-r" 1000 "Failing task" None
         (newQueue (mkOptions None (Some 2) None))).

Definition retry_test_item : QueueItem string :=
  mkItem "id-r" "Failing task" 1000 0 0.

(** Three items, the first and the third in flight. *)
Definition three_items : Queue string :=
  mkQueue [("a", mkItem "a" "A" 1 0 0); ("b", mkItem "b" "B" 2 0 0);
           ("c", mkItem "c" "C" 3 0 0)]
          ["a"; "c"] (mkRequired 1000 3 false) [] None.

(** A queue with events, its one item in flight, and no subscriber yet. *)
Definition one_in_flight
    : EventQueue unit (list (string * QueueEvent unit)) :=
  mkEventQueue
    (mkQueue [("a", mkItem "a" tt 1 0 0)] ["a"] (mkRequired 1000 3 false) [] None)
    "jobs" [].

(** A state with a payload object, saved and loaded in the examples. *)
Definition task_items : JsMap (QueueItem JsValue) :=
  [("a", mkItem "a" (JsObject [("task", JsString "Test task");
                               ("tags", JsArray [JsNumber 1; JsNull])])
                1700000000123 5 1)].

(** ** Further readings of a queue state *)

Section Readings.
Context {T : Type}.

(** The item that [enqueue] stores for a call on the queue [q]: the
    priority of the call counts only when priorities are enabled. *)
Definition stored (q : Queue T) (c : EnqueueCall T) : QueueItem T :=
  mkItem (c_uuid c) (c_data c) (c_now c)
         (if r_priorityEnabled (options q)
          then match c_priority c with Some p => p | None => 0 end
          else 0)
         0.

(** The items currently being processed, in the order of the mapping. *)
Definition inFlightItems (q : Queue T) : list (QueueItem T) :=
  filter (fun item => set_has (id item) (processing q)) (map_values (items q)).

(** No more items than the capacity, which counts as 0 when negative. *)
Definition within_capacity (q : Queue T) : Prop :=
  size q <= Z.max 0 (r_maxSize (options q)).

(** Every attempt count lies between 0 and the retry limit. *)
Definition attempts_bounded (q : Queue T) : Prop :=
  forall k item, In (k, item) (items q) ->
    0 <= processingAttempts item <= Z.max 0 (r_retryLimit (options q)).

(** With priorities disabled every stored priority is 0. *)
Definition priorities_off (q : Queue T) : Prop :=
  r_priorityEnabled (options q) = false ->
  forall k item, In (k, item) (items q) -> priority item = 0.

(** [processNext()] called [n] times in a row, each call after the
    promise of the one before has settled: the results and the final
    queue. *)
Fixpoint processRounds (n : nat) (q : Queue T) : list bool * Queue T :=
  match n with
  | O => ([], q)
  | S n' =>
      let '(ok, q', _) := processNext q in
      let (oks, q'') := processRounds n' q' in
      (ok :: oks, q'')
  end.

(** No processor ever reports a success. *)
Definition never_succeeds (ps : list (QueueProcessor T)) : Prop :=
  forall p item, In p ps -> p item <> Fulfilled true.

(** Whether [retry] finds the item of the id with attempts to spare. *)
Definition retriable (q : Queue T) (i : string) : bool :=
  match map_get i (items q) with
  | Some it => processingAttempts it <? r_retryLimit (options q)
  | None => false
  end.

(** The in-flight set lists no id twice, as any [Set]. *)
Definition inflight_distinct (q : Queue T) : Prop := NoDup (processing q).

(** Any call of a method of the queue that changes or reads its state. *)
Inductive Call : Type :=
| CallOp (o : @Op T)
| CallProcessNext
| CallRegisterProcessor (p : QueueProcessor T).

Definition perform (q : Queue T) (c : Call) : Queue T :=
  match c with
  | CallOp o => step q o
  | CallProcessNext => snd (fst (processNext q))
  | CallRegisterProcessor p => registerProcessor p q
  end.

Definition history (calls : list Call) (q : Queue T) : Queue T :=
  fold_left perform calls q.

(** A state that some sequence of calls reaches from a new queue. *)
Definition attainable (q : Queue T) : Prop :=
  exists o calls, q = history calls (newQueue o).

(** A property of states that every basic method keeps. *)
Definition preserved (P : Queue T -> Prop) : Prop :=
  (forall uuid now d prio q, P q -> P (snd (enqueue uuid now d prio q))) /\
  (forall q, P q -> P (snd (dequeue q))) /\
  (forall i q, P q -> P (snd (complete i q))) /\
  (forall i q, P q -> P (snd (retry i q))) /\
  (forall q, P q -> P (clear q)) /\
  (forall p q, P q -> P (registerProcessor p q)).
End Readings.

(** ** services/QueueService.ts *)

(** The levels of [utils/logger.ts]. *)
Inductive LogLevel : Type := DEBUG | INFO | WARN | ERROR.

Section Service.
Context {T : Type}.

(** The callback that [startProcessing(queueName)] hands to
    [setInterval]: one firing, with the lines it logs. *)
Definition tick (queueName : string) (q : Queue T)
    : Queue T * list (LogLevel * string) :=
  if size q >? 0 then
    let '(processed, q', _) := processNext q in
    if processed then
      (q', [(INFO, "Successfully processed a message from queue " ++ queueName)])%string
    else
      (q', [(WARN, "Failed to process a message from queue " ++ queueName)])%string
  else (q, []).

(** [n] firings of the timer, one after the other. *)
Fixpoint ticks (n : nat) (queueName : string) (q : Queue T)
    : Queue T * list (LogLevel * string) :=
  match n with
  | O => (q, [])
  | S n' =>
      let (q1, lines) := tick queueName q in
      let (q2, more) := ticks n' queueName q1 in
      (q2, lines ++ more)
  end.
End Service.

(** The saving part of [shutdown()]:
    [try { await saveAllQueues(); info(..) } catch (error) { error(..) }].
    The promise of [shutdown], the line logged, and the file system. *)
Definition shutdown (mgr : QueueManager) (fs : FileSystem)
    : Settled unit * list (LogLevel * string) * FileSystem :=
  match saveAllQueues mgr fs with
  | (Fulfilled _, fs') =>
      (Fulfilled tt, [(INFO, "All queues saved successfully")], fs')
  | (Rejected _, fs') =>
      (Fulfilled tt, [(ERROR, "Error saving queues")], fs')
  end.

(** ** Queue.ts: the operations with their [autoSave] *)

(** [autoSave()], started by [enqueue], [complete], [retry] and [clear]
    and awaited by none of them: the file system once the save it starts
    has ended.  A failed save changes no file; nobody handles the
    rejection of its promise. *)
Definition autoSave (q : Queue JsValue) (fs : FileSystem) : FileSystem :=
  match storageAdapter q with
  | Some _ => snd (saveToStorage q fs)
  | None => fs
  end.

(** [enqueue] with the save it starts: none when it throws. *)
Definition enqueueSaved (uuid : string) (now : Z) (d : JsValue)
    (prio : option Z) (q : Queue JsValue) (fs : FileSystem)
    : Completion string * Queue JsValue * FileSystem :=
  match enqueue uuid now d prio q with
  | (Return i, q') => (Return i, q', autoSave q' fs)
  | (Throw err, q') => (Throw err, q', fs)
  end.

(** [complete] with the save it starts: none when it returns false. *)
Definition completeSaved (i : string) (q : Queue JsValue) (fs : FileSystem)
    : bool * Queue JsValue * FileSystem :=
  match complete i q with
  | (true, q') => (true, q', autoSave q' fs)
  | (false, q') => (false, q', fs)
  end.

(** [retry] with the save it starts: none when the id is not in flight
    or has no item. *)
Definition retrySaved (i : string) (q : Queue JsValue) (fs : FileSystem)
    : bool * Queue JsValue * FileSystem :=
  match retry_path i q with
  | NotInFlight | MissingItem => (false, q, fs)
  | Exhausted | Released =>
      let (ok, q') := retry i q in (ok, q', autoSave q' fs)
  end.

Definition clearSaved (q : Queue JsValue) (fs : FileSystem)
    : Queue JsValue * FileSystem :=
  (clear q, autoSave (clear q) fs).

(** The queue that a registry on the directory [dir], made anew, has
    under [name] after [createQueue(name, o)]; [None] if that throws. *)
Definition restarted (dir name : string) (o : QueueOptions) (fs : FileSystem)
    : option (Queue JsValue) :=
  match fst (createQueue name o (newQueueManager (Some dir)) fs) with
  | Return q => Some q
  | Throw _ => None
  end.

(** ** QueueNotificationService.ts: subscribers as objects *)

(** [unsubscribeFromQueue] compares subscriber objects with [===], so
    here an object carries its identity: the number of objects created
    before it.  The queue is any type with the two methods that the
    service calls on it. *)
Module Tracked.
Section Subscriptions.
Context {T W Q : Type}.

Record SubscriberObject : Type := mkObject {
  identity : nat;
  object : QueueSubscriber T W
}.

(** An element [{ subscriber, options }] of the set kept for a queue. *)
Record Entry : Type := mkEntry {
  e_subscriber : SubscriberObject;
  e_options : option (NotificationOptions T)
}.

(** [queue.subscribe] and [queue.unsubscribe]. *)
Variable queue_subscribe : SubscriberObject -> Q -> Q.
Variable queue_unsubscribe : SubscriberObject -> Q -> Q.

(** The queues of the registry, the [subscribers] map of the service,
    and the number of objects created so far. *)
Record World : Type := mkWorld {
  w_queues : JsMap Q;
  w_subscribers : JsMap (list Entry);
  allocated : nat
}.

(** [subscribeToQueue(queueName, subscriber, options)]: the wrapper
    [queueSubscriber] is a new object. *)
Definition subscribeToQueue (queueName : string)
    (subscriber : SubscriberObject) (opts : option (NotificationOptions T))
    (w : World) : bool * World :=
  match map_get queueName (w_queues w) with
  | None => (false, w)
  | Some queue =>
      let wrapper :=
        mkObject (allocated w) (queueSubscriber (object subscriber) opts) in
      let known :=
        match map_get queueName (w_subscribers w) with
        | Some l => l
        | None => []
        end in
      (true,
       mkWorld (map_set queueName (queue_subscribe wrapper queue) (w_queues w))
               (map_set queueName (known ++ [mkEntry wrapper opts])
                        (w_subscribers w))
               (S (allocated w)))
  end.

(** The loop of [unsubscribeFromQueue] over the entries of the queue:
    the queue, the entries kept, and [found]. *)
Fixpoint unsubscribeLoop (subscriber : SubscriberObject)
    (pending : list Entry) (queue : Q) (kept : list Entry) (found : bool)
    : Q * list Entry * bool :=
  match pending with
  | [] => (queue, kept, found)
  | entry :: rest =>
      if Nat.eqb (identity (e_subscriber entry)) (identity subscriber)
      then unsubscribeLoop subscriber rest
             (queue_unsubscribe (e_subscriber entry) queue) kept true
      else unsubscribeLoop subscriber rest queue (kept ++ [entry]) found
  end.

(** [unsubscribeFromQueue(queueName, subscriber)] *)
Definition unsubscribeFromQueue (queueName : string)
    (subscriber : SubscriberObject) (w : World) : bool * World :=
  match map_get queueName (w_queues w) with
  | None => (false, w)
  | Some queue =>
      match map_get queueName (w_subscribers w) with
      | None => (false, w)
      | Some queueSubscribers =>
          let '(queue', kept, found) :=
            unsubscribeLoop subscriber queueSubscribers queue [] false in
          (found,
           mkWorld (map_set queueName queue' (w_queues w))
                   (map_set queueName kept (w_subscribers w))
                   (allocated w))
      end
  end.

(** One call of a client: it creates a subscriber object with the given
    handler and subscribes it to a queue. *)
Record ClientCall : Type := mkClientCall {
  cc_queue : string;
  cc_handler : QueueEvent T -> W -> W;
  cc_options : option (NotificationOptions T)
}.

(** A sequence of such calls: the subscriber objects the client holds
    afterwards, and the world. *)
Fixpoint session (calls : list ClientCall) (w : World)
    : list SubscriberObject * World :=
  match calls with
  | [] => ([], w)
  | c :: rest =>
      let subscriber := mkObject (allocated w) (mkSubscriber (cc_handler c)) in
      let w1 := mkWorld (w_queues w) (w_subscribers w) (S (allocated w)) in
      let (_, w2) := subscribeToQueue (cc_queue c) subscriber (cc_options c) w1 in
      let (held, w3) := session rest w2 in
      (subscriber :: held, w3)
  end.

(** The wrappers recorded by the service are objects that exist and
    that the client does not hold. *)
Definition wrappers_apart (held : list nat) (w : World) : Prop :=
  (forall h, In h held -> (h < allocated w)%nat) /\
  (forall name entries entry,
      In (name, entries) (w_subscribers w) -> In entry entries ->
      (identity (e_subscriber entry) < allocated w)%nat /\
      ~ In (identity (e_subscriber entry)) held).
End Subscriptions.
End Tracked.

(** ** cli/CommandHandler.ts *)

(** The command objects, by the factory method that creates them. *)
Inductive Command : Type :=
| HelpCommand
| ListCommand
| AddCommand
| AddJsonCommand
| GetCommand
| GetManyCommand
| PeekCommand
| BrowseCommand
| CompleteCommand
| CompleteManyCommand
| RetryCommand
| RetryManyCommand
| SizeCommand
| SaveCommand
| ExitCommand
| SubscribeCommand
| WebhookCommand
| CompleteQueueCommand
| ListenCommand.

(** [registerCommands()]: the [commands] map after its nineteen calls of
    [set], in the order of the source. *)
Definition registerCommands : JsMap Command :=
  fold_left (fun m e => map_set (fst e) (snd e) m)
    [("help", HelpCommand); ("list", ListCommand); ("add", AddCommand);
     ("addjson", AddJsonCommand); ("get", GetCommand);
     ("getmany", GetManyCommand); ("peek", PeekCommand);
     ("browse", BrowseCommand); ("complete", CompleteCommand);
     ("completemany", CompleteManyCommand); ("retry", RetryCommand);
     ("retrymany", RetryManyCommand); ("size", SizeCommand);
     ("save", SaveCommand); ("exit", ExitCommand);
     ("subscribe", SubscribeCommand); ("webhook", WebhookCommand);
     ("complete", CompleteQueueCommand); ("listen", ListenCommand)]
    [].

(** A text between double quotes. *)
Definition quoted (s : string) : string :=
  let q := String (Ascii.ascii_of_nat 34) EmptyString in (q ++ s ++ q)%string.

(** [executeCommand(commandName, args)]: the command whose [execute] is
    called, or the "Unknown command" error line. *)
Definition executeCommand (commandName : string) : string + Command :=
  match map_get commandName registerCommands with
  | None =>
      inl ("Unknown command: " ++ commandName ++ ". Type " ++ quoted "help"
           ++ " for available commands.")%string
  | Some command => inr command
  end.

(** ** What a snapshot keeps of a payload *)

(** [JSON.parse(JSON.stringify(v))], and [undefined] where
    [JSON.stringify] writes nothing. *)
Definition jsonRoundTrip (v : JsValue) : JsValue :=
  match toJson v with
  | Some j => fromJson j
  | None => JsUndefined
  end.

(** The item with its payload as a snapshot keeps it. *)
Definition normalised (it : QueueItem JsValue) : QueueItem JsValue :=
  mkItem (id it) (jsonRoundTrip (data it)) (addedAt it) (priority it)
         (processingAttempts it).

Definition normalisedEntry (e : string * QueueItem JsValue)
    : string * QueueItem JsValue :=
  (fst e, normalised (snd e)).

(** The time stamp of the item is in the range of [Date]. *)
Definition dated (it : QueueItem JsValue) : Prop :=
  - maxTime <= addedAt it <= maxTime.

(** Induction on documents, through the elements of arrays and the
    members of objects. *)
Section JsonInduction.
Variable P : Json -> Prop.
Hypothesis P_null : P JNull.
Hypothesis P_bool : forall b, P (JBool b).
Hypothesis P_num : forall n, P (JNum n).
Hypothesis P_str : forall s, P (JStr s).
Hypothesis P_arr : forall elems, Forall P elems -> P (JArr elems).
Hypothesis P_obj :
  forall members, Forall (fun p => P (snd p)) members -> P (JObj members).

Fixpoint Json_induction (j : Json) : P j :=
  match j with
  | JNull => P_null
  | JBool b => P_bool b
  | JNum n => P_num n
  | JStr s => P_str s
  | JArr elems =>
      P_arr elems
        ((fix all (l : list Json) : Forall P l :=
            match l with
            | [] => Forall_nil P
            | x :: l' => Forall_cons x (Json_induction x) (all l')
            end) elems)
  | JObj members =>
      P_obj members
        ((fix all (l : list (string * Json))
            : Forall (fun p => P (snd p)) l :=
            match l with
            | [] => Forall_nil _
            | (k, x) :: l' => Forall_cons (k, x) (Json_induction x) (all l')
            end) members)
  end.
End JsonInduction.

(** ** Registries on disk *)

(** Every queue of the registry saves to the file that [createQueue]
    gives it under the storage directory [dir]. *)
Definition stored_in (dir : string) (mgr : QueueManager) : Prop :=
  forall name q, In (name, q) (queues mgr) ->
    storageAdapter q = Some (FileStorageAdapter (storagePath dir name)).

(** The path can be written and read. *)
Definition usable (path : string) (fs : FileSystem) : bool :=
  negb (existsb (String.eqb path) (failing fs)).

(** ** Further example states *)

(** The state after [enqueue], [dequeue] and [processNext] on a new
    queue. *)
Definition busy_queue : Queue string :=
  history [CallOp (OpEnqueue "a" 1 "A" None); CallOp OpDequeue; CallProcessNext]
          (newQueue noOptions).

(** A queue of capacity 1 whose one item is in flight. *)
Definition full_queue : Queue string :=
  mkQueue [("a", mkItem "a" "A" 1 0 0)] ["a"] (mkRequired 1 3 false) [] None.

(** Two items and a processor that always succeeds. *)
Definition working_queue : Queue string :=
  mkQueue [("a", mkItem "a" "A" 2 0 0); ("b", mkItem "b" "B" 1 0 0)] []
          (mkRequired 1000 3 false) [fun _ => Fulfilled true] None.

(** One item, [retryLimit: 2], a processor that returns false and one
    that throws. *)
Definition failing_queue : Queue string :=
  mkQueue [("a", mkItem "a" "A" 1 0 0)] [] (mkRequired 1000 2 false)
          [fun _ => Fulfilled false; fun _ => Rejected "boom"] None.

(** A queue that saves to [data/jobs.json]: one item in flight, its
    payload holding a [Date]. *)
Definition stored_queue : Queue JsValue :=
  mkQueue [("a", mkItem "a" (JsObject [("name", JsString "job");
                                       ("createdAt", JsDate (Some 0))])
                        1700000000123 5 1)]
          ["a"] (mkRequired 50 5 true) []
          (Some (FileStorageAdapter (storagePath "data" "jobs"))).

Definition stored_manager : QueueManager :=
  mkManager [("jobs", stored_queue)] (Some "data").

(** * Properties *)

(** Splits a conjunction into its parts, and nothing else. *)
Ltac split_ands := repeat match goal with |- _ /\ _ => split end.

(** ** Containers *)

Section MapFacts.
Context {V : Type}.
Implicit Types (m : JsMap V) (k : string) (v : V).

Lemma map_get_In k v m : map_get k m = Some v -> In (k, v) m.
Proof.
  induction m as [|[k' v'] m IH]; simpl; [discriminate|].
  destruct (String.eqb k k') eqn:E.
  - apply String.eqb_eq in E. intros [= ->]. subst. now left.
  - intros H. right. now apply IH.
Qed.

Lemma map_has_keys k m : map_has k m = true <-> In k (map_keys m).
Proof.
  unfold map_has. induction m as [|[k' v'] m IH]; simpl.
  - split; [discriminate | tauto].
  - destruct (String.eqb k k') eqn:E.
    + apply String.eqb_eq in E. subst. split; auto.
    + apply String.eqb_neq in E. rewrite IH. split; [auto|].
      intros [H|H]; [congruence | exact H].
Qed.

Lemma map_has_false_keys k m : map_has k m = false <-> ~ In k (map_keys m).
Proof.
  rewrite <- map_has_keys. destruct (map_has k m); split; congruence.
Qed.

Lemma In_map_has k v m : In (k, v) m -> map_has k m = true.
Proof.
  intros H. apply map_has_keys. unfold map_keys.
  change k with (fst (k, v)). now apply in_map.
Qed.

Lemma In_map_get k v m : NoDup (map_keys m) -> In (k, v) m -> map_get k m = Some v.
Proof.
  induction m as [|[k' v'] m IH]; simpl; [tauto|].
  intros ND [H|H].
  - injection H as -> ->. now rewrite String.eqb_refl.
  - inversion ND as [|? ? Hn ND']; subst.
    destruct (String.eqb k k') eqn:E.
    + apply String.eqb_eq in E. subst. exfalso. apply Hn.
      change k' with (fst (k', v)). now apply in_map.
    + now apply IH.
Qed.

Lemma map_get_set_same k v m : map_get k (map_set k v m) = Some v.
Proof.
  induction m as [|[k' v'] m IH]; simpl.
  - now rewrite String.eqb_refl.
  - destruct (String.eqb k k') eqn:E; simpl; rewrite E; auto.
Qed.

Lemma map_get_set_other k k' v m :
  k <> k' -> map_get k' (map_set k v m) = map_get k' m.
Proof.
  intros N. induction m as [|[k2 v2] m IH]; simpl.
  - apply String.eqb_neq in N. rewrite String.eqb_sym in N. now rewrite N.
  - destruct (String.eqb k k2) eqn:E; simpl; [|now rewrite IH].
    apply String.eqb_eq in E. subst k2.
    apply not_eq_sym, String.eqb_neq in N. now rewrite N.
Qed.

Lemma map_keys_set k v m :
  map_keys (map_set k v m) = if map_has k m then map_keys m else map_keys m ++ [k].
Proof.
  unfold map_has. induction m as [|[k' v'] m IH]; simpl; [reflexivity|].
  destruct (String.eqb k k') eqn:E; simpl; [reflexivity|].
  rewrite IH. now destruct (map_get k m).
Qed.

Lemma map_set_fresh k v m : map_has k m = false -> map_set k v m = m ++ [(k, v)].
Proof.
  unfold map_has. induction m as [|[k' v'] m IH]; simpl; [reflexivity|].
  destruct (String.eqb k k') eqn:E; [discriminate|].
  intros H. now rewrite IH.
Qed.

Lemma map_has_set k k' v m :
  map_has k' (map_set k v m) = String.eqb k k' || map_has k' m.
Proof.
  unfold map_has. destruct (String.eqb k k') eqn:E; simpl.
  - apply String.eqb_eq in E. subst. now rewrite map_get_set_same.
  - apply String.eqb_neq in E. now rewrite map_get_set_other.
Qed.

Lemma In_map_set k v (e : string * V) m :
  In e (map_set k v m) -> In e m \/ e = (k, v).
Proof.
  induction m as [|[k' v'] m IH]; simpl.
  - intros [H|[]]; auto.
  - destruct (String.eqb k k') eqn:E; simpl.
    + apply String.eqb_eq in E. subst k'. intros [H|H]; auto.
    + intros [H|H]; auto. destruct (IH H); auto.
Qed.

Lemma map_values_update k v v' m :
  NoDup (map_keys m) ->
  map_get k m = Some v ->
  map_values (map_set k v' m)
  = map (fun e => if String.eqb (fst e) k then v' else snd e) m.
Proof.
  induction m as [|[k1 v1] m IH]; simpl; [discriminate|].
  intros ND. inversion ND as [|? ? Hn ND']; subst.
  rewrite (String.eqb_sym k1 k). destruct (String.eqb k k1) eqn:E; simpl.
  - intros _. f_equal. apply String.eqb_eq in E. subst k1.
    apply map_ext_in. intros [k2 v2] Hin. simpl.
    destruct (String.eqb k2 k) eqn:E2; [|reflexivity].
    apply String.eqb_eq in E2. subst k2. exfalso. apply Hn.
    change k with (fst (k, v2)). now apply in_map.
  - intros Hg. f_equal. now apply IH.
Qed.

Lemma In_map_delete k e m : In e (map_delete k m) <-> In e m /\ fst e <> k.
Proof.
  unfold map_delete. rewrite filter_In, negb_true_iff, String.eqb_neq.
  intuition congruence.
Qed.

Lemma map_get_delete_same k m : map_get k (map_delete k m) = None.
Proof.
  induction m as [|[k' v'] m IH]; simpl; [reflexivity|].
  destruct (String.eqb k k') eqn:E; simpl; [exact IH|].
  now rewrite E.
Qed.

Lemma map_get_delete_other k k' m :
  k <> k' -> map_get k' (map_delete k m) = map_get k' m.
Proof.
  intros N. induction m as [|[k2 v2] m IH]; simpl; [reflexivity|].
  destruct (String.eqb k k2) eqn:E; simpl.
  - apply String.eqb_eq in E. subst k2.
    apply not_eq_sym, String.eqb_neq in N. now rewrite N.
  - now rewrite IH.
Qed.

Lemma map_has_delete k k' m :
  map_has k' (map_delete k m) = negb (String.eqb k k') && map_has k' m.
Proof.
  unfold map_has. destruct (String.eqb k k') eqn:E; simpl.
  - apply String.eqb_eq in E. subst. now rewrite map_get_delete_same.
  - apply String.eqb_neq in E. now rewrite map_get_delete_other.
Qed.

Lemma map_delete_absent k m : map_has k m = false -> map_delete k m = m.
Proof.
  unfold map_has. induction m as [|[k' v'] m IH]; simpl; [reflexivity|].
  destruct (String.eqb k k') eqn:E; [discriminate|]. simpl.
  intros H. now rewrite IH.
Qed.

Lemma map_keys_delete k m :
  map_keys (map_delete k m) = filter (fun x => negb (String.eqb k x)) (map_keys m).
Proof.
  induction m as [|[k' v'] m IH]; simpl; [reflexivity|].
  destruct (String.eqb k k'); simpl; now rewrite IH.
Qed.

Lemma NoDup_filter {A : Type} (f : A -> bool) (l : list A) :
  NoDup l -> NoDup (filter f l).
Proof.
  induction 1 as [|x l Hx ND IH]; simpl; [constructor|].
  destruct (f x); [constructor|]; auto.
  rewrite filter_In. tauto.
Qed.

Lemma map_delete_length k m :
  NoDup (map_keys m) -> map_has k m = true ->
  map_size (map_delete k m) = map_size m - 1.
Proof.
  unfold map_size, map_has.
  induction m as [|[k' v'] m IH]; [discriminate|].
  intros ND. inversion ND as [|? ? Hn ND']; subst.
  cbn [map_get map_delete filter fst].
  destruct (String.eqb k k') eqn:E; cbn [negb length].
  - intros _. apply String.eqb_eq in E. subst k'.
    fold (map_delete k m). rewrite map_delete_absent.
    + rewrite Nat2Z.inj_succ. lia.
    + now apply map_has_false_keys.
  - intros H. fold (map_delete k m). specialize (IH ND' H).
    rewrite !Nat2Z.inj_succ. lia.
Qed.
End MapFacts.

Lemma set_has_In k (s : JsSet) : set_has k s = true <-> In k s.
Proof.
  unfold set_has. rewrite existsb_exists. split.
  - intros (x & Hx & E). apply String.eqb_eq in E. now subst.
  - intros H. exists k. split; [exact H | apply String.eqb_refl].
Qed.

Lemma set_has_add k j (s : JsSet) :
  set_has k (set_add j s) = String.eqb k j || set_has k s.
Proof.
  unfold set_add. destruct (set_has j s) eqn:E.
  - destruct (String.eqb k j) eqn:E2; [|reflexivity].
    apply String.eqb_eq in E2. now subst.
  - unfold set_has. rewrite existsb_app. simpl.
    rewrite orb_false_r. apply orb_comm.
Qed.

Lemma set_has_delete k j (s : JsSet) :
  set_has k (set_delete j s) = negb (String.eqb j k) && set_has k s.
Proof.
  unfold set_has, set_delete. induction s as [|x s IH]; simpl.
  - now rewrite andb_false_r.
  - destruct (String.eqb j x) eqn:E; simpl; rewrite IH.
    + apply String.eqb_eq in E. subst x.
      rewrite (String.eqb_sym k j). now destruct (String.eqb j k).
    + destruct (String.eqb k x) eqn:E2; simpl; [|reflexivity].
      apply String.eqb_eq in E2. subst x. now rewrite E.
Qed.

(** From here on the container operations are used through their lemmas. *)
Arguments set_has : simpl never.
Arguments set_add : simpl never.
Arguments set_delete : simpl never.
Arguments map_has : simpl never.
Arguments map_get : simpl never.
Arguments map_set : simpl never.
Arguments map_delete : simpl never.

Lemma StronglySorted_pairwise {A : Type} (P : A -> A -> Prop) (l : list A) :
  (forall a b, In a l -> In b l -> P a b) -> StronglySorted P l.
Proof.
  induction l as [|x l IH]; [constructor|].
  intros H. constructor.
  - apply IH. intros a b Ha Hb. apply H; now right.
  - apply Forall_forall. intros y Hy. apply H; [now left | now right].
Qed.

(** ** Stable sorting *)

Section SortFacts.
Context {A : Type}.
Variable cmp : A -> A -> Z.

Hypothesis cmp_total : forall a b, cmp a b <= 0 \/ cmp b a <= 0.
Hypothesis cmp_trans :
  forall a b c, cmp a b <= 0 -> cmp b c <= 0 -> cmp a c <= 0.

Lemma insert_perm x l : Permutation (insert cmp x l) (x :: l).
Proof.
  induction l as [|y l IH]; simpl; [reflexivity|].
  destruct (cmp x y <=? 0); [reflexivity|].
  rewrite IH. apply perm_swap.
Qed.

Lemma sort_perm l : Permutation (sort cmp l) l.
Proof.
  induction l as [|x l IH]; simpl; [reflexivity|].
  rewrite insert_perm. now constructor.
Qed.

Lemma insert_first x l : Forall (before cmp x) l -> insert cmp x l = x :: l.
Proof.
  destruct l as [|y l]; simpl; [reflexivity|].
  intros H. inversion H as [|? ? Hy _]; subst.
  unfold before in Hy. apply Z.leb_le in Hy. now rewrite Hy.
Qed.

Lemma insert_sorted x l :
  StronglySorted (before cmp) l -> StronglySorted (before cmp) (insert cmp x l).
Proof.
  induction 1 as [|y l Hs IH Hy]; simpl.
  - repeat constructor.
  - destruct (cmp x y <=? 0) eqn:E.
    + apply Z.leb_le in E. constructor; [now constructor|].
      constructor; [exact E|].
      eapply Forall_impl; [|exact Hy]. intros z Hz. now apply (cmp_trans x y z).
    + apply Z.leb_gt in E. constructor; [exact IH|].
      apply (Permutation_Forall (x := x :: l)).
      * symmetry. apply insert_perm.
      * constructor; [|exact Hy].
        destruct (cmp_total y x) as [H|H]; [exact H | lia].
Qed.

Lemma sort_sorted l : StronglySorted (before cmp) (sort cmp l).
Proof.
  induction l as [|x l IH]; simpl; [constructor|].
  now apply insert_sorted.
Qed.

Lemma sort_sorted_id l : StronglySorted (before cmp) l -> sort cmp l = l.
Proof.
  induction 1 as [|x l Hs IH Hx]; simpl; [reflexivity|].
  rewrite IH. now apply insert_first.
Qed.

Lemma filter_insert (f : A -> bool) x l :
  StronglySorted (before cmp) l ->
  filter f (insert cmp x l) =
  if f x then insert cmp x (filter f l) else filter f l.
Proof.
  induction 1 as [|y l Hs IH Hy]; simpl.
  - now destruct (f x).
  - destruct (cmp x y <=? 0) eqn:E.
    + apply Z.leb_le in E. simpl. destruct (f x); [|reflexivity].
      rewrite insert_first; [reflexivity|].
      assert (Hall : Forall (before cmp x) (y :: l)).
      { constructor; [exact E|].
        eapply Forall_impl; [|exact Hy]. intros z Hz.
        now apply (cmp_trans x y z). }
      apply Forall_forall. intros z Hz.
      rewrite Forall_forall in Hall. apply Hall.
      change (In z (filter f (y :: l))) in Hz.
      apply filter_In in Hz. tauto.
    + simpl. rewrite IH. destruct (f y), (f x); simpl; try reflexivity.
      now rewrite E.
Qed.

(** Sorting commutes with filtering: the sort is stable. *)
Lemma sort_filter (f : A -> bool) l :
  sort cmp (filter f l) = filter f (sort cmp l).
Proof.
  induction l as [|x l IH]; simpl; [reflexivity|].
  rewrite filter_insert by apply sort_sorted.
  destruct (f x); simpl; now rewrite IH.
Qed.

Lemma same_rank_refl x : same_rank cmp x x = true.
Proof.
  unfold same_rank. destruct (cmp_total x x) as [H|H];
    apply Z.leb_le in H; now rewrite H.
Qed.

(** The elements of one rank keep their order. *)
Lemma sort_stable l x :
  filter (same_rank cmp x) (sort cmp l) = filter (same_rank cmp x) l.
Proof.
  rewrite <- sort_filter. apply sort_sorted_id.
  apply StronglySorted_pairwise. intros a b Ha Hb.
  apply filter_In in Ha as [_ Ha]. apply filter_In in Hb as [_ Hb].
  unfold same_rank in *. apply andb_true_iff in Ha as [_ Ha].
  apply andb_true_iff in Hb as [Hb _]. rewrite Z.leb_le in *.
  now apply (cmp_trans a x b).
Qed.

(** Two sorted lists with the same elements of every rank, in the same
    order, are equal. *)
Lemma sorted_unique l1 l2 :
  StronglySorted (before cmp) l1 -> StronglySorted (before cmp) l2 ->
  (forall x, filter (same_rank cmp x) l1 = filter (same_rank cmp x) l2) ->
  l1 = l2.
Proof.
  intros H1. revert l2. induction H1 as [|a l1 Hs1 IH Ha]; intros l2 H2 Hf.
  - destruct l2 as [|b l2]; [reflexivity|]. specialize (Hf b).
    cbn in Hf. rewrite same_rank_refl in Hf. discriminate.
  - destruct H2 as [|b l2 Hs2 Hb].
    { specialize (Hf a). cbn in Hf. rewrite same_rank_refl in Hf.
      discriminate. }
    assert (Hab : before cmp a b).
    { pose proof (Hf b) as Hfb. cbn [filter] in Hfb.
      rewrite same_rank_refl in Hfb.
      assert (Hin : In b (filter (same_rank cmp b) (a :: l1))).
      { cbn [filter]. rewrite Hfb. destruct (same_rank cmp b a); now left. }
      apply filter_In in Hin as [[->|Hin] _].
      - unfold before. destruct (cmp_total b b); assumption.
      - rewrite Forall_forall in Ha. now apply Ha. }
    assert (Hba : before cmp b a).
    { pose proof (Hf a) as Hfa. cbn [filter] in Hfa.
      rewrite same_rank_refl in Hfa.
      assert (Hin : In a (filter (same_rank cmp a) (b :: l2))).
      { cbn [filter]. rewrite <- Hfa. now left. }
      apply filter_In in Hin as [[->|Hin] _].
      - unfold before. destruct (cmp_total a a); assumption.
      - rewrite Forall_forall in Hb. now apply Hb. }
    assert (Eab : a = b).
    { pose proof (Hf a) as Hfa. cbn [filter] in Hfa.
      rewrite same_rank_refl in Hfa. unfold same_rank in Hfa at 2.
      unfold before in *. apply Z.leb_le in Hab, Hba.
      rewrite Hab, Hba in Hfa. cbn in Hfa. congruence. }
    subst b. f_equal. apply IH; [exact Hs2|].
    intros x. specialize (Hf x). cbn [filter] in Hf.
    destruct (same_rank cmp x a); congruence.
Qed.

(** So [sort] is what every stable sort gives: a list sorted by [cmp]
    that keeps the elements of every rank in their order in [l]. *)
Lemma stable_sort_unique l l' :
  StronglySorted (before cmp) l' ->
  (forall x, filter (same_rank cmp x) l' = filter (same_rank cmp x) l) ->
  l' = sort cmp l.
Proof.
  intros Hs Hf. apply sorted_unique; [exact Hs | apply sort_sorted|].
  intros x. now rewrite sort_stable.
Qed.

Lemma sort_head_In x r l : sort cmp l = x :: r -> In x l.
Proof.
  intros H. apply (Permutation_in x (sort_perm l)). rewrite H. now left.
Qed.

Lemma sort_nonempty l : l <> [] -> sort cmp l <> [].
Proof.
  intros N H. apply N. apply Permutation_nil.
  rewrite <- H. apply sort_perm.
Qed.
End SortFacts.

(** A sort key that a function on the elements leaves alone. *)
Lemma sort_map {A : Type} (cmp : A -> A -> Z) (g : A -> A) (l : list A) :
  (forall a b, cmp (g a) (g b) = cmp a b) ->
  (forall a b, cmp (g a) b = cmp a b) ->
  sort cmp (map g l) = map g (sort cmp l).
Proof.
  intros Hg Hl. induction l as [|x l IH]; simpl; [reflexivity|].
  rewrite IH. generalize (sort cmp l). intros s.
  induction s as [|y s IHs]; simpl; [reflexivity|].
  rewrite Hg. destruct (cmp x y <=? 0); simpl; [reflexivity|].
  now rewrite IHs.
Qed.

Section Comparators.
Context {T : Type}.
Implicit Types a b c : QueueItem T.

Lemma byPriority_total a b : byPriority a b <= 0 \/ byPriority b a <= 0.
Proof.
  unfold byPriority.
  destruct (priority b =? priority a) eqn:E1;
    destruct (priority a =? priority b) eqn:E2; simpl;
    rewrite ?Z.eqb_eq, ?Z.eqb_neq in *; lia.
Qed.

Lemma byPriority_trans a b c :
  byPriority a b <= 0 -> byPriority b c <= 0 -> byPriority a c <= 0.
Proof.
  unfold byPriority.
  destruct (priority b =? priority a) eqn:E1;
    destruct (priority c =? priority b) eqn:E2;
    destruct (priority c =? priority a) eqn:E3; simpl;
    rewrite ?Z.eqb_eq, ?Z.eqb_neq in *; lia.
Qed.

Lemma byAge_total a b : byAge a b <= 0 \/ byAge b a <= 0.
Proof. unfold byAge. lia. Qed.

Lemma byAge_trans a b c : byAge a b <= 0 -> byAge b c <= 0 -> byAge a c <= 0.
Proof. unfold byAge. lia. Qed.

Lemma byPriority_order a b : byPriority a b <= 0 <-> priority_order a b.
Proof.
  unfold byPriority, priority_order.
  destruct (priority b =? priority a) eqn:E; simpl;
    rewrite ?Z.eqb_eq, ?Z.eqb_neq in *; lia.
Qed.

Lemma selection_total (q : Queue T) a b :
  selection q a b <= 0 \/ selection q b a <= 0.
Proof.
  unfold selection. destruct (r_priorityEnabled (options q));
    [apply byPriority_total | apply byAge_total].
Qed.

Lemma selection_trans (q : Queue T) a b c :
  selection q a b <= 0 -> selection q b c <= 0 -> selection q a c <= 0.
Proof.
  unfold selection. destruct (r_priorityEnabled (options q));
    [apply byPriority_trans | apply byAge_trans].
Qed.
End Comparators.

(** ** Selection *)

Lemma filter_and {A : Type} (f g : A -> bool) (l : list A) :
  filter f (filter g l) = filter (fun x => f x && g x) l.
Proof.
  induction l as [|x l IH]; simpl; [reflexivity|].
  destruct (g x); simpl; rewrite ?andb_true_r, ?andb_false_r.
  - destruct (f x); now rewrite IH.
  - exact IH.
Qed.

Lemma filter_all {A : Type} (f : A -> bool) (l : list A) :
  (forall x, In x l -> f x = true) -> filter f l = l.
Proof.
  induction l as [|x l IH]; simpl; [reflexivity|].
  intros H. rewrite (H x) by now left. rewrite IH; auto.
Qed.

Lemma NoDup_map_filter {A B : Type} (f : A -> B) (g : A -> bool) (l : list A) :
  NoDup (map f l) -> NoDup (map f (filter g l)).
Proof.
  induction l as [|x l IH]; simpl; [auto|].
  intros H. inversion H as [|? ? Hx ND]; subst.
  destruct (g x); simpl; [constructor|]; auto.
  intros Hin. apply Hx. apply in_map_iff in Hin as (y & E & Hy).
  apply filter_In in Hy. apply in_map_iff. exists y. tauto.
Qed.

Lemma StronglySorted_impl {A : Type} (P Q : A -> A -> Prop) (l : list A) :
  (forall a b, P a b -> Q a b) -> StronglySorted P l -> StronglySorted Q l.
Proof.
  intros H. induction 1 as [|x l Hs IH Hx]; constructor; auto.
  eapply Forall_impl; [|exact Hx]. auto.
Qed.

Lemma StronglySorted_filter {A : Type} (P : A -> A -> Prop) (f : A -> bool)
    (l : list A) :
  StronglySorted P l -> StronglySorted P (filter f l).
Proof.
  induction 1 as [|x l Hs IH Hx]; simpl; [constructor|].
  destruct (f x); [constructor|]; auto.
  rewrite Forall_forall in *. intros y Hy. apply Hx.
  now apply filter_In in Hy.
Qed.

Lemma StronglySorted_map {A B : Type} (P : B -> B -> Prop) (f : A -> B)
    (l : list A) :
  StronglySorted P (map f l) -> StronglySorted (fun a b => P (f a) (f b)) l.
Proof.
  induction l as [|x l IH]; simpl; [constructor|].
  intros H. inversion H as [|? ? Hs Hx]; subst. constructor; auto.
  rewrite Forall_forall in *. intros y Hy. apply Hx. now apply in_map.
Qed.

Section SelectionFacts.
Context {T : Type}.
Implicit Types (q : Queue T) (it : QueueItem T).

(** [dequeue] takes the head of the sorted available items. *)
Lemma dequeue_spec q :
  dequeue q =
  match sort (selection q) (availableItems q) with
  | [] => (None, q)
  | nextItem :: _ =>
      (Some nextItem, with_processing q (set_add (id nextItem) (processing q)))
  end.
Proof.
  unfold dequeue. destruct (map_size (items q) =? 0) eqn:E.
  - apply Z.eqb_eq in E. unfold map_size in E.
    assert (H : items q = []) by (destruct (items q); [auto | discriminate]).
    unfold availableItems. now rewrite H.
  - destruct (availableItems q) eqn:Ea; [reflexivity|].
    destruct (sort (selection q) (q0 :: l)); reflexivity.
Qed.

Lemma peek_dequeue q : peek q = fst (dequeue q).
Proof.
  rewrite dequeue_spec. unfold peek.
  destruct (map_size (items q) =? 0) eqn:E.
  - apply Z.eqb_eq in E. unfold map_size in E.
    assert (H : items q = []) by (destruct (items q); [auto | discriminate]).
    unfold availableItems. now rewrite H.
  - destruct (availableItems q) eqn:Ea; [reflexivity|].
    destruct (sort (selection q) (q0 :: l)); reflexivity.
Qed.

Lemma dequeue_none_iff q :
  fst (dequeue q) = None <->
  (forall k it, In (k, it) (items q) -> set_has (id it) (processing q) = true).
Proof.
  rewrite dequeue_spec.
  destruct (sort (selection q) (availableItems q)) as [|x r] eqn:E; simpl.
  - split; [intros _ | reflexivity]. intros k it Hin.
    destruct (set_has (id it) (processing q)) eqn:Eh; [reflexivity|].
    exfalso. assert (Ha : In it (availableItems q)).
    { unfold availableItems. apply filter_In. split.
      - unfold map_values. change it with (snd (k, it)). now apply in_map.
      - now rewrite Eh. }
    destruct (availableItems q) as [|y l]; [exact Ha|].
    revert E. apply sort_nonempty. discriminate.
  - split; [discriminate|]. intros H. exfalso.
    assert (Ha : In x (availableItems q)).
    { apply (sort_head_In (selection q) x r). exact E. }
    unfold availableItems in Ha. apply filter_In in Ha as [Hin Hf].
    unfold map_values in Hin. apply in_map_iff in Hin as ([k it] & <- & Hin).
    simpl in Hf. rewrite (H k it Hin) in Hf. discriminate.
Qed.

Lemma availableItems_add q i :
  availableItems (with_processing q (set_add i (processing q))) =
  filter (fun it => negb (String.eqb (id it) i)) (availableItems q).
Proof.
  unfold availableItems. simpl. rewrite filter_and.
  apply filter_ext. intros it. rewrite set_has_add.
  now rewrite negb_orb.
Qed.

Lemma distinct_ids_of q : keyed q -> distinct_keys q -> distinct_ids q.
Proof.
  unfold keyed, distinct_keys, distinct_ids, availableItems, map_keys, map_values.
  intros Hk Hd. apply NoDup_map_filter. rewrite map_map.
  erewrite map_ext_in; [exact Hd|].
  intros [k it] Hin. simpl. now apply Hk.
Qed.

Lemma sort_after_dequeue q x r :
  distinct_ids q ->
  sort (selection q) (availableItems q) = x :: r ->
  sort (selection q)
       (availableItems (with_processing q (set_add (id x) (processing q)))) = r.
Proof.
  intros ND E. rewrite availableItems_add.
  rewrite sort_filter by (apply selection_total || apply selection_trans).
  rewrite E. simpl. rewrite String.eqb_refl. simpl.
  apply filter_all. intros y Hy.
  apply negb_true_iff, String.eqb_neq. intros Heq.
  assert (ND' : NoDup (map id (x :: r))).
  { eapply Permutation_NoDup; [|exact ND].
    apply Permutation_map. rewrite <- E. symmetry.
    apply sort_perm. }
  simpl in ND'. inversion ND' as [|? ? Hx _]; subst.
  apply Hx. rewrite <- Heq. now apply in_map.
Qed.

(** Successive dequeues read off the sorted available items. *)
Lemma dequeueLoop_sorted n q :
  distinct_ids q ->
  let s := sort (selection q) (availableItems q) in
  let (out, q') := dequeueLoop n q in
  out = firstn n s /\
  sort (selection q') (availableItems q') = skipn n s /\
  items q' = items q /\ options q' = options q.
Proof.
  revert q. induction n as [|n IH]; intros q ND; simpl.
  - auto.
  - rewrite dequeue_spec.
    destruct (sort (selection q) (availableItems q)) as [|x r] eqn:E.
    + rewrite E. auto.
    + set (q1 := with_processing q (set_add (id x) (processing q))).
      assert (E1 : sort (selection q1) (availableItems q1) = r)
        by exact (sort_after_dequeue q x r ND E).
      assert (ND1 : distinct_ids q1).
      { unfold distinct_ids, q1. rewrite availableItems_add.
        now apply NoDup_map_filter. }
      specialize (IH q1 ND1). simpl in IH. rewrite E1 in IH.
      destruct (dequeueLoop n q1) as [out q'].
      destruct IH as (-> & Hs & Hi & Ho). auto.
Qed.
End SelectionFacts.

(** ** Enqueue sequences *)

Section EnqueueFacts.
Context {T : Type}.

Lemma enqueue_fresh (c : EnqueueCall T) (q : Queue T) :
  r_priorityEnabled (options q) = true ->
  map_has (c_uuid c) (items q) = false ->
  map_size (items q) < r_maxSize (options q) ->
  enqueue (c_uuid c) (c_now c) (c_data c) (c_priority c) q =
  (Return (c_uuid c), with_items q (items q ++ [entry c])).
Proof.
  intros Hp Hf Hc. unfold enqueue.
  destruct (map_size (items q) >=? r_maxSize (options q)) eqn:E.
  { apply Z.geb_le in E. lia. }
  rewrite Hp, map_set_fresh by exact Hf. reflexivity.
Qed.

Lemma enqueueAll_state (calls : list (EnqueueCall T)) (q : Queue T) :
  r_priorityEnabled (options q) = true ->
  NoDup (map c_uuid calls) ->
  (forall c, In c calls -> map_has (c_uuid c) (items q) = false) ->
  map_size (items q) + Z.of_nat (length calls) <= r_maxSize (options q) ->
  enqueueAll calls q =
  with_items q (items q ++ map entry calls).
Proof.
  revert q. induction calls as [|c calls IH]; intros q Hp ND Hfresh Hcap.
  - simpl. rewrite app_nil_r. now destruct q.
  - change (enqueueAll (c :: calls) q) with
      (enqueueAll calls
         (snd (enqueue (c_uuid c) (c_now c) (c_data c) (c_priority c) q))).
    cbn [length] in Hcap. rewrite Nat2Z.inj_succ in Hcap.
    assert (Hpos : 0 <= Z.of_nat (length calls)) by lia.
    rewrite enqueue_fresh; [|assumption|apply Hfresh; now left|lia].
    cbn [snd]. inversion ND as [|? ? Hc ND']; subst.
    rewrite IH; auto.
    + unfold with_items, with_state. cbn. rewrite <- app_assoc. reflexivity.
    + intros c' Hc'. cbn. unfold map_has.
      destruct (map_get (c_uuid c') (items q ++ [entry c])) eqn:Eg;
        [|reflexivity].
      exfalso. apply map_get_In in Eg. apply in_app_or in Eg as [Hin|Hin].
      * apply In_map_has in Hin. rewrite Hfresh in Hin; [discriminate|].
        now right.
      * destruct Hin as [Hin|[]]. injection Hin as Hu _.
        apply Hc. rewrite Hu. now apply in_map.
    + cbn. unfold map_size in *. rewrite length_app. cbn [length].
      rewrite Nat2Z.inj_add. change (Z.of_nat 1) with 1. lia.
Qed.
End EnqueueFacts.

(** ** Single operations *)

Section OperationFacts.
Context {T : Type}.
Implicit Types (q : Queue T) (i : string).

Lemma complete_not_in_flight i q :
  set_has i (processing q) = false -> complete i q = (false, q).
Proof. intros H. unfold complete. now rewrite H. Qed.

Lemma complete_in_flight i q :
  set_has i (processing q) = true ->
  complete i q =
  (true, with_state q (map_delete i (items q)) (set_delete i (processing q))).
Proof. intros H. unfold complete. now rewrite H. Qed.

(** [retry] along the four paths. *)
Lemma retry_by_path i q :
  retry i q =
  match retry_path i q with
  | NotInFlight | MissingItem => (false, q)
  | Exhausted =>
      (false, with_state q (map_delete i (items q))
                         (set_delete i (processing q)))
  | Released =>
      (true, with_state q
               (match map_get i (items q) with
                | Some item => map_set i (bump item) (items q)
                | None => items q
                end)
               (set_delete i (processing q)))
  end.
Proof.
  unfold retry, retry_path.
  destruct (negb (set_has i (processing q))); [reflexivity|].
  destruct (map_get i (items q)) as [item|]; [|reflexivity].
  now destruct (processingAttempts item >=? r_retryLimit (options q)).
Qed.

(** The counting loop, one id at a time. *)
Lemma countLoop_counts op (ids : list string) c q :
  countLoop op ids c q =
  let (c0, q0) := countLoop op ids (mkCounts 0 0) q in
  (mkCounts (succeeded c + succeeded c0) (failed c + failed c0), q0).
Proof.
  revert c q. induction ids as [|i ids IH]; intros c q; cbn [countLoop].
  - destruct c. cbn. now rewrite !Z.add_0_r.
  - destruct (op i q) as [ok q1].
    rewrite (IH (tally ok c)), (IH (tally ok (mkCounts 0 0))).
    destruct (countLoop op ids (mkCounts 0 0) q1) as [c0 q0].
    destruct ok; cbn [tally succeeded failed]; f_equal; f_equal; lia.
Qed.

Lemma countLoop_cons op i (ids : list string) q :
  countLoop op (i :: ids) (mkCounts 0 0) q =
  let (ok, q1) := op i q in
  let (c, q2) := countLoop op ids (mkCounts 0 0) q1 in
  (tally ok c, q2).
Proof.
  cbn [countLoop]. destruct (op i q) as [ok q1].
  rewrite countLoop_counts.
  destruct (countLoop op ids (mkCounts 0 0) q1) as [c q2].
  destruct ok; cbn [tally succeeded failed]; f_equal; f_equal; lia.
Qed.

Lemma countLoop_total op (ids : list string) q :
  let c := fst (countLoop op ids (mkCounts 0 0) q) in
  0 <= succeeded c /\ 0 <= failed c /\
  succeeded c + failed c = Z.of_nat (length ids).
Proof.
  revert q. induction ids as [|i ids IH]; intros q.
  - cbn. lia.
  - rewrite countLoop_cons. destruct (op i q) as [ok q1].
    specialize (IH q1). cbv zeta in IH.
    destruct (countLoop op ids (mkCounts 0 0) q1) as [c q2].
    cbn [fst] in *. cbn [length]. rewrite Nat2Z.inj_succ.
    destruct ok; cbn [tally succeeded failed]; lia.
Qed.
End OperationFacts.

(** ** The invariant of the public operations *)

Section InvariantFacts.
Context {T : Type}.
Implicit Types (q : Queue T) (i : string).

Lemma well_formed_new o : well_formed (newQueue (T := T) o).
Proof. split; [intros k it [] | intros i H; discriminate]. Qed.

Lemma well_formed_enqueue uuid now (d : T) prio q :
  well_formed q -> well_formed (snd (enqueue uuid now d prio q)).
Proof.
  intros [Hk Hs]. unfold enqueue.
  destruct (map_size (items q) >=? r_maxSize (options q)); [now split|].
  split.
  - intros k it Hin. cbn in Hin. apply In_map_set in Hin as [Hin|Hin].
    + now apply Hk.
    + now injection Hin as -> ->.
  - intros i Hi. cbn in *. rewrite map_has_set, (Hs i Hi). apply orb_true_r.
Qed.

Lemma well_formed_dequeue q : well_formed q -> well_formed (snd (dequeue q)).
Proof.
  intros [Hk Hs]. rewrite dequeue_spec.
  destruct (sort (selection q) (availableItems q)) as [|x r] eqn:E;
    [now split|].
  split; [exact Hk|]. intros i Hi. cbn in *.
  rewrite set_has_add in Hi. apply orb_true_iff in Hi as [Hi|Hi]; [|auto].
  apply String.eqb_eq in Hi. subst i.
  apply sort_head_In in E. unfold availableItems in E.
  apply filter_In in E as [E _]. unfold map_values in E.
  apply in_map_iff in E as ([k it] & <- & Hin). cbn.
  rewrite (Hk k it Hin). now apply In_map_has with it.
Qed.

Lemma well_formed_delete q i :
  well_formed q ->
  well_formed (with_state q (map_delete i (items q))
                          (set_delete i (processing q))).
Proof.
  intros [Hk Hs]. split.
  - intros k it Hin. cbn in Hin. apply In_map_delete in Hin as [Hin _].
    now apply Hk.
  - intros k Hin. cbn in *. rewrite set_has_delete in Hin.
    apply andb_true_iff in Hin as [Hne Hin].
    rewrite map_has_delete, Hne. now apply Hs.
Qed.

Lemma well_formed_complete i q : well_formed q -> well_formed (snd (complete i q)).
Proof.
  intros H. unfold complete.
  destruct (negb (set_has i (processing q))); [exact H|].
  now apply well_formed_delete.
Qed.

Lemma well_formed_retry i q : well_formed q -> well_formed (snd (retry i q)).
Proof.
  intros H. unfold retry.
  destruct (negb (set_has i (processing q))); [exact H|].
  destruct (map_get i (items q)) as [item|] eqn:Eg; [|exact H].
  destruct (processingAttempts item >=? r_retryLimit (options q));
    [now apply well_formed_delete|].
  destruct H as [Hk Hs]. split.
  - intros k it Hin. cbn in Hin. apply In_map_set in Hin as [Hin|Hin].
    + now apply Hk.
    + injection Hin as -> ->. cbn. apply Hk. now apply map_get_In.
  - intros k Hin. cbn in *. rewrite set_has_delete in Hin.
    apply andb_true_iff in Hin as [_ Hin].
    rewrite map_has_set, (Hs k Hin). apply orb_true_r.
Qed.

Lemma well_formed_dequeueLoop n q :
  well_formed q -> well_formed (snd (dequeueLoop n q)).
Proof.
  revert q. induction n as [|n IH]; intros q H; cbn; [exact H|].
  pose proof (well_formed_dequeue q H) as H1.
  destruct (dequeue q) as [[item|] q1]; cbn in *; [|exact H1].
  specialize (IH q1 H1). now destruct (dequeueLoop n q1).
Qed.

Lemma well_formed_countLoop (op : string -> Queue T -> bool * Queue T) ids c q :
  (forall i q0, well_formed q0 -> well_formed (snd (op i q0))) ->
  well_formed q -> well_formed (snd (countLoop op ids c q)).
Proof.
  intros Hop. revert c q. induction ids as [|i ids IH]; intros c q H;
    cbn; [exact H|].
  pose proof (Hop i q H) as H1. destruct (op i q) as [ok q1]. now apply IH.
Qed.

Lemma well_formed_step q (o : Op) : well_formed q -> well_formed (step q o).
Proof.
  intros H. destruct o; cbn [step].
  - now apply well_formed_enqueue.
  - now apply well_formed_dequeue.
  - exact H.
  - now apply well_formed_complete.
  - now apply well_formed_retry.
  - split; [intros k it [] | intros i Hi; discriminate].
  - now apply well_formed_dequeueLoop.
  - apply well_formed_countLoop; [apply well_formed_complete | exact H].
  - apply well_formed_countLoop; [apply well_formed_retry | exact H].
Qed.

Lemma well_formed_run (ops : list Op) q : well_formed q -> well_formed (run ops q).
Proof.
  revert q. induction ops as [|o ops IH]; intros q H; cbn; [exact H|].
  apply IH. now apply well_formed_step.
Qed.

(** No operation introduces a second entry for a key. *)
Lemma distinct_keys_step q (o : Op) : distinct_keys q -> distinct_keys (step q o).
Proof.
  assert (Hdel : forall i q0, distinct_keys q0 ->
            distinct_keys (with_state q0 (map_delete i (items q0))
                                      (set_delete i (processing q0)))).
  { intros i q0 H. unfold distinct_keys in *. cbn [items with_state].
    rewrite map_keys_delete. now apply NoDup_filter. }
  assert (Hc : forall i q0, distinct_keys q0 -> distinct_keys (snd (complete i q0))).
  { intros i q0 H. unfold complete.
    destruct (negb (set_has i (processing q0))); [exact H|].
    now apply Hdel. }
  assert (Hr : forall i q0, distinct_keys q0 -> distinct_keys (snd (retry i q0))).
  { intros i q0 H. unfold retry.
    destruct (negb (set_has i (processing q0))); [exact H|].
    destruct (map_get i (items q0)) as [item|] eqn:Eg; [|exact H].
    destruct (processingAttempts item >=? r_retryLimit (options q0));
      [now apply Hdel|].
    unfold distinct_keys in *. cbn [items with_state snd].
    rewrite map_keys_set. unfold map_has. now rewrite Eg. }
  assert (Hd : forall q0, distinct_keys q0 -> distinct_keys (snd (dequeue q0))).
  { intros q0 H. rewrite dequeue_spec.
    now destruct (sort (selection q0) (availableItems q0)). }
  assert (Hl : forall op ids c q0,
            (forall i q1, distinct_keys q1 -> distinct_keys (snd (op i q1))) ->
            distinct_keys q0 -> distinct_keys (snd (countLoop op ids c q0))).
  { intros op ids. induction ids as [|i ids IH]; intros c q0 Hop H;
      cbn; [exact H|].
    pose proof (Hop i q0 H) as H1. destruct (op i q0) as [ok q1]. now apply IH. }
  intros H. destruct o; cbn [step];
    [ | now apply Hd | exact H | now apply Hc | now apply Hr | |
      | apply Hl; [exact Hc | exact H] | apply Hl; [exact Hr | exact H] ].
  - unfold enqueue.
    destruct (map_size (items q) >=? r_maxSize (options q)); [exact H|].
    unfold distinct_keys in *. cbn [items with_state with_items snd].
    rewrite map_keys_set.
    destruct (map_has uuid (items q)) eqn:E; [exact H|].
    apply NoDup_app; auto.
    + repeat constructor. intros [].
    + intros x Hx [<-|[]]. apply map_has_false_keys in E. contradiction.
  - constructor.
  - unfold dequeueMany. generalize (Z.to_nat count). intros n.
    revert q H. induction n as [|n IH]; intros q H; cbn; [exact H|].
    pose proof (Hd q H) as H1.
    destruct (dequeue q) as [[item|] q1]; cbn in *; [|exact H1].
    specialize (IH q1 H1). now destruct (dequeueLoop n q1).
Qed.
Lemma distinct_keys_run (ops : list Op) q :
  distinct_keys q -> distinct_keys (run ops q).
Proof.
  revert q. induction ops as [|o ops IH]; intros q H; cbn; [exact H|].
  apply IH. now apply distinct_keys_step.
Qed.

(** Every reachable state has its entries under their own ids, its
    in-flight ids among the keys, and distinct keys. *)
Lemma reachable_well_formed q :
  reachable q -> well_formed q /\ distinct_keys q.
Proof.
  intros (o & ops & ->). split.
  - apply well_formed_run, well_formed_new.
  - apply distinct_keys_run. constructor.
Qed.
End InvariantFacts.

(** ** One round of dequeue and retry *)

Lemma filter_map_comm {A : Type} (p : A -> bool) (g : A -> A) (l : list A) :
  (forall x, p (g x) = p x) -> filter p (map g l) = map g (filter p l).
Proof.
  intros H. induction l as [|x l IH]; simpl; [reflexivity|].
  rewrite H. destruct (p x); simpl; now rewrite IH.
Qed.

Lemma slice0_In {A : Type} (limit : Z) (l : list A) x :
  In x (slice0 limit l) -> In x l.
Proof.
  assert (Hn : forall n, In x (firstn n l) -> In x l).
  { intros n H. rewrite <- (firstn_skipn n l). apply in_or_app. now left. }
  unfold slice0. destruct (limit <? 0); apply Hn.
Qed.

Lemma set_delete_add i (s : JsSet) :
  set_has i s = false -> set_delete i (set_add i s) = s.
Proof.
  intros H. unfold set_add. rewrite H. unfold set_delete.
  rewrite filter_app. cbn. rewrite String.eqb_refl. cbn. rewrite app_nil_r.
  apply filter_all. intros x Hx. apply negb_true_iff, String.eqb_neq.
  intros <-. apply set_has_In in Hx. congruence.
Qed.

Section RoundFacts.
Context {T : Type}.
Implicit Types (q : Queue T) (i : string) (it : QueueItem T).

Lemma bump_attempts it : processingAttempts (bump it) = processingAttempts it + 1.
Proof.
  unfold bump, or_number. cbn.
  destruct (processingAttempts it =? 0) eqn:E; [|reflexivity].
  apply Z.eqb_eq in E. now rewrite E.
Qed.

Lemma map_values_bump i it (m : JsMap (QueueItem T)) :
  (forall k v, In (k, v) m -> id v = k) ->
  NoDup (map_keys m) ->
  map_get i m = Some it ->
  map_values (map_set i (bump it) m) = map (bump_at i) (map_values m).
Proof.
  intros Hk ND Hg. rewrite (map_values_update i it) by assumption.
  unfold map_values. rewrite map_map. apply map_ext_in.
  intros [k v] Hin. cbn [fst snd]. unfold bump_at.
  rewrite (Hk k v Hin). destruct (String.eqb k i) eqn:E; [|reflexivity].
  apply String.eqb_eq in E. subst k.
  rewrite (In_map_get _ _ _ ND Hin) in Hg. now injection Hg as ->.
Qed.

Lemma selection_bump q i a b :
  selection q (bump_at i a) (bump_at i b) = selection q a b /\
  selection q (bump_at i a) b = selection q a b.
Proof.
  unfold selection, bump_at, byPriority, byAge.
  destruct (String.eqb (id a) i), (String.eqb (id b) i),
    (r_priorityEnabled (options q)); auto.
Qed.

(** A round on the item that [dequeue] selects, below the retry limit:
    the retry succeeds, only the attempts of the item change, and the
    next [dequeue] selects the item again. *)
Lemma retry_round q it :
  well_formed q -> distinct_keys q ->
  fst (dequeue q) = Some it ->
  processingAttempts it < r_retryLimit (options q) ->
  let q' := with_state q (map_set (id it) (bump it) (items q)) (processing q) in
  retry (id it) (snd (dequeue q)) = (true, q') /\
  well_formed q' /\ distinct_keys q' /\
  fst (dequeue q') = Some (bump it).
Proof.
  intros [Hk Hs] Hd Hq Hlt q'.
  pose proof (well_formed_dequeue q (conj Hk Hs)) as Hwf1.
  rewrite dequeue_spec in Hq, Hwf1 |- *.
  destruct (sort (selection q) (availableItems q)) as [|x r] eqn:E;
    [discriminate|].
  cbn [fst snd] in *. injection Hq as ->.
  assert (Hin : In it (availableItems q)) by exact (sort_head_In _ _ _ _ E).
  unfold availableItems in Hin. apply filter_In in Hin as [Hin Hfree].
  apply negb_true_iff in Hfree.
  unfold map_values in Hin. apply in_map_iff in Hin as ([k v] & Ev & Hin).
  cbn in Ev. subst v. assert (Ek : id it = k) by now apply Hk.
  subst k. pose proof (In_map_get _ _ _ Hd Hin) as Hget.
  assert (Hretry : retry (id it)
                     (with_processing q (set_add (id it) (processing q)))
                   = (true, q')).
  { unfold retry. cbn [processing items options with_processing with_state].
    rewrite set_has_add, String.eqb_refl. cbn [orb negb]. rewrite Hget.
    destruct (processingAttempts it >=? r_retryLimit (options q)) eqn:Eg.
    { apply Z.geb_le in Eg. lia. }
    unfold q', with_state. cbn. now rewrite set_delete_add. }
  split; [exact Hretry|].
  assert (Hwf : well_formed q').
  { pose proof (well_formed_retry (id it) _ Hwf1) as H.
    now rewrite Hretry in H. }
  assert (Hd' : distinct_keys q').
  { unfold distinct_keys, q'. cbn [items with_state].
    rewrite map_keys_set. unfold map_has. now rewrite Hget. }
  split; [exact Hwf|]. split; [exact Hd'|].
  rewrite dequeue_spec.
  assert (Ea : availableItems q' = map (bump_at (id it)) (availableItems q)).
  { unfold availableItems, q'. cbn [items processing with_state].
    rewrite (map_values_bump (id it) it) by auto.
    apply filter_map_comm. intros x. unfold bump_at.
    now destruct (String.eqb (id x) (id it)). }
  change (selection q') with (selection q). rewrite Ea.
  rewrite sort_map by (intros; apply selection_bump).
  rewrite E. cbn [map fst]. unfold bump_at. now rewrite String.eqb_refl.
Qed.
End RoundFacts.

Section RoundsFacts.
Context {T : Type}.
Implicit Types (q : Queue T) (it : QueueItem T).

(** [n] rounds on the item that [dequeue] selects, with [n] more
    attempts allowed: every retry succeeds, and afterwards [dequeue]
    selects the item with [n] more attempts. *)
Lemma retryRounds_below_limit n q it :
  well_formed q -> distinct_keys q ->
  fst (dequeue q) = Some it ->
  processingAttempts it + Z.of_nat n <= r_retryLimit (options q) ->
  let (oks, q') := retryRounds n (id it) q in
  oks = repeat true n /\
  well_formed q' /\ distinct_keys q' /\
  options q' = options q /\ size q' = size q /\
  exists it', fst (dequeue q') = Some it' /\ id it' = id it /\
              processingAttempts it' = processingAttempts it + Z.of_nat n.
Proof.
  revert q it. induction n as [|n IH]; intros q it Hwf Hd Hq Hle.
  - cbn [retryRounds repeat].
    split_ands; auto.
    exists it. rewrite Z.add_0_r. auto.
  - cbn [retryRounds]. rewrite Nat2Z.inj_succ in Hle.
    assert (Hlt : processingAttempts it < r_retryLimit (options q)) by lia.
    pose proof (retry_round q it Hwf Hd Hq Hlt) as Hround. cbv zeta in Hround.
    destruct Hround as (Hr & Hwf1 & Hd1 & Hq1).
    rewrite Hr.
    set (q1 := with_state q (map_set (id it) (bump it) (items q)) (processing q)) in *.
    specialize (IH q1 (bump it) Hwf1 Hd1 Hq1).
    rewrite bump_attempts in IH. change (id (bump it)) with (id it) in IH.
    change (options q1) with (options q) in IH.
    destruct (retryRounds n (id it) q1) as [oks q'].
    destruct IH as (-> & Hwf' & Hd' & Ho & Hsz & it' & Hq' & Hid & Hat);
      [lia|].
    split_ands; auto.
    + rewrite Hsz. unfold size, q1. cbn [items with_state].
      unfold map_size. f_equal.
      rewrite <- !(length_map fst). fold (map_keys (items q)).
      fold (map_keys (map_set (id it) (bump it) (items q))).
      rewrite map_keys_set.
      assert (Hin : map_has (id it) (items q) = true).
      { rewrite dequeue_spec in Hq.
        destruct (sort (selection q) (availableItems q)) as [|x r] eqn:E;
          [discriminate|]. injection Hq as ->.
        apply sort_head_In in E. unfold availableItems in E.
        apply filter_In in E as [E _]. unfold map_values in E.
        apply in_map_iff in E as ([k v] & Ev & Hin). cbn in Ev. subst v.
        destruct Hwf as [Hk _]. pose proof (Hk k it Hin) as Ek. subst k.
        now apply In_map_has with it. }
      now rewrite Hin.
    + exists it'. split_ands; auto. lia.
Qed.
End RoundsFacts.

(** ** The processor loop *)

Section ProcessorFacts.
Context {T : Type}.
Implicit Types (ps : list (QueueProcessor T)) (item : QueueItem T).

Lemma runProcessors_false_prefix pre rest item k :
  Forall (returns_false item) pre ->
  runProcessors (pre ++ rest) item k =
  let (e, tr) := runProcessors rest item (k + length pre) in
  (e, seq k (length pre) ++ tr).
Proof.
  revert k. induction pre as [|p pre IH]; intros k H.
  - cbn. rewrite Nat.add_0_r. now destruct (runProcessors rest item k).
  - inversion H as [|? ? Hp Hpre]; subst. cbn [app runProcessors].
    rewrite Hp, (IH (S k) Hpre). cbn [length seq].
    rewrite Nat.add_succ_r.
    change (S k + length pre)%nat with (S (k + length pre)).
    now destruct (runProcessors rest item (S (k + length pre))).
Qed.

Lemma runProcessors_all_false ps item k :
  Forall (returns_false item) ps ->
  runProcessors ps item k = (AllFailed, seq k (length ps)).
Proof.
  intros H. rewrite <- (app_nil_r ps) at 1.
  rewrite runProcessors_false_prefix by exact H. cbn.
  now rewrite app_nil_r.
Qed.

Lemma seq_snoc k n : seq k n ++ [(k + n)%nat] = seq k (S n).
Proof. now rewrite seq_S. Qed.
End ProcessorFacts.

(** ** Dates as text *)

Lemma MakeDay_dateFromDay day :
  let '(y, m, d) := dateFromDay day in
  MakeDay y m d = day /\ 1 <= m <= 12 /\ 1 <= d <= 31 /\
  (-100000000 <= day <= 100000000 -> -999999 <= y <= 999999).
Proof.
  unfold dateFromDay, MakeDay. cbv zeta.
  set (z := day + 719468).
  set (era := z / 146097).
  set (doe := z - era * 146097).
  assert (Hdoe : 0 <= doe <= 146096)
    by (unfold doe, era; Z.div_mod_to_equations; lia).
  set (yoe := (doe - doe / 1460 + doe / 36524 - doe / 146096) / 365).
  assert (Hyoe : 0 <= yoe <= 399) by (unfold yoe; Z.div_mod_to_equations; lia).
  set (doy := doe - (365 * yoe + yoe / 4 - yoe / 100)).
  assert (Hdoy : 0 <= doy <= 365)
    by (unfold doy, yoe; Z.div_mod_to_equations; lia).
  set (mp := (5 * doy + 2) / 153).
  assert (Hmp : 0 <= mp <= 11) by (unfold mp; Z.div_mod_to_equations; lia).
  set (d := doy - (153 * mp + 2) / 5 + 1).
  assert (Hd : 1 <= d <= 31) by (unfold d, mp; Z.div_mod_to_equations; lia).
  set (m := if mp <? 10 then mp + 3 else mp - 9).
  assert (Hm : 1 <= m <= 12 /\ (if 2 <? m then m - 3 else m + 9) = mp).
  { unfold m. destruct (mp <? 10) eqn:E1.
    - apply Z.ltb_lt in E1. destruct (2 <? mp + 3) eqn:E2; [lia|].
      apply Z.ltb_ge in E2. lia.
    - apply Z.ltb_ge in E1. destruct (2 <? mp - 9) eqn:E2; [|lia].
      apply Z.ltb_lt in E2. lia. }
  destruct Hm as [Hm Hmp'].
  rewrite Hmp'.
  replace (yoe + era * 400 + (if m <=? 2 then 1 else 0)
           - (if m <=? 2 then 1 else 0))
    with (yoe + era * 400) by lia.
  assert (Hera : (yoe + era * 400) / 400 = era).
  { rewrite Z.div_add by lia. rewrite Z.div_small by lia. lia. }
  rewrite Hera.
  replace (yoe + era * 400 - era * 400) with yoe by lia.
  repeat split; try lia.
  - destruct (m <=? 2); unfold era, z; Z.div_mod_to_equations; lia.
  - destruct (m <=? 2); unfold era, z; Z.div_mod_to_equations; lia.
Qed.

Lemma string_app_assoc (a b c : string) :
  ((a ++ b) ++ c = a ++ (b ++ c))%string.
Proof. induction a as [|x a IH]; cbn; [reflexivity | now rewrite IH]. Qed.

Lemma digit_ok d :
  0 <= d <= 9 -> is_digit (digit d) = true /\ digit_value (digit d) = d.
Proof.
  intros H.
  assert (Hc : d = 0 \/ d = 1 \/ d = 2 \/ d = 3 \/ d = 4 \/ d = 5 \/ d = 6
               \/ d = 7 \/ d = 8 \/ d = 9) by lia.
  repeat (destruct Hc as [-> | Hc]; [split; reflexivity|]).
  subst. split; reflexivity.
Qed.

Lemma take_digits_pad w n rest :
  0 <= n < 10 ^ Z.of_nat w ->
  take_digits w (pad w n ++ rest)%string = Some (n, rest).
Proof.
  revert n rest. induction w as [|w IH]; intros n rest Hn.
  - cbn in *. f_equal. f_equal. lia.
  - rewrite Nat2Z.inj_succ, Z.pow_succ_r in Hn by lia.
    cbn [pad take_digits]. rewrite string_app_assoc. cbn [String.append].
    rewrite IH by (Z.div_mod_to_equations; lia).
    destruct (digit_ok (n mod 10)) as [-> ->]; [Z.div_mod_to_equations; lia|].
    f_equal. f_equal. Z.div_mod_to_equations; lia.
Qed.

Lemma pad_head w n :
  0 <= n -> exists c s, pad (S w) n = String c s /\ is_digit c = true.
Proof.
  revert n. induction w as [|w IH]; intros n Hn.
  - exists (digit (n mod 10)), EmptyString. split; [reflexivity|].
    apply digit_ok. Z.div_mod_to_equations; lia.
  - destruct (IH (n / 10)) as (c & s & E & Hc); [Z.div_mod_to_equations; lia|].
    exists c. eexists. split; [|exact Hc].
    change (pad (S (S w)) n)
      with (pad (S w) (n / 10) ++ String (digit (n mod 10)) EmptyString)%string.
    rewrite E. reflexivity.
Qed.

Lemma parse_year_digit c s :
  is_digit c = true -> parse_year (String c s) = take_digits 4 (String c s).
Proof.
  destruct c as [[] [] [] [] [] [] [] []]; intros H;
    try discriminate H; reflexivity.
Qed.

Lemma parse_year_text y rest :
  -999999 <= y <= 999999 ->
  parse_year
    (String.append
       (if (0 <=? y) && (y <=? 9999) then pad 4 y
        else String (if y <? 0 then "-"%char else "+"%char) (pad 6 (Z.abs y)))
       rest)
  = Some (y, rest).
Proof.
  intros Hy. destruct ((0 <=? y) && (y <=? 9999)) eqn:E.
  - apply andb_true_iff in E as [E1 E2]. apply Z.leb_le in E1, E2.
    destruct (pad_head 3 y E1) as (c & s & Ep & Hc).
    rewrite Ep. cbn [String.append]. rewrite parse_year_digit by exact Hc.
    change (String c (s ++ rest)%string) with (String c s ++ rest)%string.
    rewrite <- Ep. apply take_digits_pad. cbn. lia.
  - destruct (y <? 0) eqn:En; cbn [String.append parse_year].
    + apply Z.ltb_lt in En. rewrite take_digits_pad by (cbn; lia).
      cbn. f_equal. f_equal. lia.
    + apply Z.ltb_ge in En. rewrite take_digits_pad by (cbn; lia).
      f_equal. f_equal. lia.
Qed.

(** The text [toISOString] writes is read back to the same instant. *)
Lemma Date_parse_toISOString t :
  - maxTime <= t <= maxTime -> Date_parse (toISOString t) = Some t.
Proof.
  intros Ht. unfold toISOString, Date_parse.
  pose proof (MakeDay_dateFromDay (t / msPerDay)) as Hcal.
  destruct (dateFromDay (t / msPerDay)) as [[y m] d].
  destruct Hcal as (Hday & Hm & Hd & Hy).
  assert (Hrange : -999999 <= y <= 999999).
  { apply Hy. unfold maxTime, msPerDay in *. Z.div_mod_to_equations. lia. }
  set (tod := t mod msPerDay).
  assert (Htod : 0 <= tod < 86400000).
  { unfold tod, msPerDay. Z.div_mod_to_equations. lia. }
  rewrite parse_year_text by exact Hrange.
  cbn [bind_opt String.append expect Ascii.eqb Bool.eqb].
  rewrite take_digits_pad by (cbn; lia).
  cbn [bind_opt String.append expect Ascii.eqb Bool.eqb].
  rewrite take_digits_pad by (cbn; lia).
  cbn [bind_opt String.append expect Ascii.eqb Bool.eqb].
  rewrite take_digits_pad by (cbn; Z.div_mod_to_equations; lia).
  cbn [bind_opt String.append expect Ascii.eqb Bool.eqb].
  rewrite take_digits_pad by (cbn; Z.div_mod_to_equations; lia).
  cbn [bind_opt String.append expect Ascii.eqb Bool.eqb].
  rewrite take_digits_pad by (cbn; Z.div_mod_to_equations; lia).
  cbn [bind_opt String.append expect Ascii.eqb Bool.eqb].
  rewrite take_digits_pad by (cbn; Z.div_mod_to_equations; lia).
  cbn [bind_opt String.append expect Ascii.eqb Bool.eqb].
  rewrite Hday.
  assert (Et : t / msPerDay * msPerDay + tod / 3600000 * 3600000
               + tod / 60000 mod 60 * 60000 + tod / 1000 mod 60 * 1000
               + tod mod 1000 = t).
  { unfold tod, msPerDay. Z.div_mod_to_equations. lia. }
  rewrite Et.
  replace ((1 <=? m) && (m <=? 12) && (1 <=? d) && (d <=? 31)
           && (tod / 3600000 <=? 23) && (tod / 60000 mod 60 <=? 59)
           && (tod / 1000 mod 60 <=? 59)) with true.
  - replace ((- maxTime <=? t) && (t <=? maxTime)) with true; [reflexivity|].
    symmetry. apply andb_true_iff. split; apply Z.leb_le; lia.
  - symmetry. repeat (apply andb_true_iff; split); apply Z.leb_le;
      try lia; Z.div_mod_to_equations; lia.
Qed.

(** ** JSON *)

Lemma distinct_NoDup (l : list string) : distinct l = true -> NoDup l.
Proof.
  induction l as [|x l IH]; cbn; [constructor|].
  intros H. apply andb_true_iff in H as [Hx Hl]. constructor; [|auto].
  intros Hin. apply negb_true_iff in Hx.
  assert (existsb (String.eqb x) l = true); [|congruence].
  apply existsb_exists. exists x. split; [exact Hin | apply String.eqb_refl].
Qed.

Lemma map_of_entries_acc {V : Type} (l acc : list (string * V)) :
  NoDup (map fst (acc ++ l)) ->
  fold_left (fun m e => map_set (fst e) (snd e) m) l acc = acc ++ l.
Proof.
  revert acc. induction l as [|[k v] l IH]; intros acc ND; cbn [fold_left].
  - now rewrite app_nil_r.
  - cbn [fst snd]. rewrite map_set_fresh.
    + rewrite IH; rewrite <- app_assoc; [reflexivity | exact ND].
    + apply map_has_false_keys. unfold map_keys. intros Hin.
      rewrite map_app in ND. cbn [map fst] in ND.
      apply NoDup_remove_2 in ND. apply ND. apply in_or_app. now left.
Qed.

Lemma map_of_entries_nodup {V : Type} (l : list (string * V)) :
  NoDup (map fst l) -> map_of_entries l = l.
Proof. intros H. unfold map_of_entries. now rewrite map_of_entries_acc. Qed.

Lemma set_of_list_acc (l acc : list string) :
  NoDup (acc ++ l) -> fold_left (fun s k => set_add k s) l acc = acc ++ l.
Proof.
  revert acc. induction l as [|k l IH]; intros acc ND; cbn [fold_left].
  - now rewrite app_nil_r.
  - assert (Hk : set_has k acc = false).
    { destruct (set_has k acc) eqn:E; [|reflexivity].
      apply set_has_In in E. apply NoDup_remove_2 in ND.
      exfalso. apply ND. apply in_or_app. now left. }
    unfold set_add at 2. rewrite Hk.
    rewrite IH; rewrite <- app_assoc; [reflexivity | exact ND].
Qed.

Lemma set_of_list_nodup (l : list string) : NoDup l -> set_of_list l = l.
Proof. intros H. unfold set_of_list. now rewrite set_of_list_acc. Qed.

(** [JSON.parse(JSON.stringify(v))] is [v] for a JSON value. *)
Lemma fromJson_toJson (v : JsValue) :
  json_value v = true -> exists j, toJson v = Some j /\ fromJson j = v.
Proof.
  induction v using JsValue_induction; cbn [json_value]; intros Hv;
    try discriminate; try (eexists; split; reflexivity).
  - (* arrays *)
    exists (JArr (map (fun e => match toJson e with
                                | Some j => j
                                | None => JNull
                                end) elems)).
    split; [reflexivity|]. cbn [fromJson]. f_equal.
    rewrite map_map. rewrite <- (map_id elems) at 2.
    apply map_ext_in. intros e He.
    rewrite Forall_forall in H. rewrite forallb_forall in Hv.
    destruct (H e He (Hv e He)) as (j & -> & Ej). exact Ej.
  - (* objects *)
    apply andb_true_iff in Hv as [Hd Hv].
    assert (Hflat :
      flat_map (fun p : string * JsValue =>
                  let (k, e) := p in
                  match toJson e with Some j => [(k, j)] | None => [] end) props
      = map (fun p : string * JsValue =>
               (fst p, match toJson (snd p) with Some j => j | None => JNull end))
            props).
    { clear Hd. induction props as [|[k e] props IH]; [reflexivity|].
      cbn [flat_map map fst snd forallb] in *.
      apply andb_true_iff in Hv as [He Hv].
      inversion H as [|? ? Hp Hps]; subst. cbn [snd] in Hp.
      destruct (Hp He) as (j & -> & _). cbn [app]. f_equal. now apply IH. }
    exists (JObj (map (fun p : string * JsValue =>
                         (fst p, match toJson (snd p) with
                                 | Some j => j
                                 | None => JNull
                                 end)) props)).
    split; [rewrite <- Hflat; reflexivity|].
    cbn [fromJson]. f_equal. rewrite map_map.
    assert (Hmap :
      map (fun p : string * JsValue =>
             let (k, e) :=
               (fst p, match toJson (snd p) with Some j => j | None => JNull end)
             in (k, fromJson e)) props = props).
    { rewrite <- (map_id props) at 2. apply map_ext_in. intros [k e] He.
      cbn [fst snd]. rewrite Forall_forall in H. rewrite forallb_forall in Hv.
      specialize (H (k, e) He (Hv (k, e) He)). cbn [snd] in H.
      destruct H as (j & -> & Ej). now rewrite Ej. }
    rewrite Hmap. apply map_of_entries_nodup. now apply distinct_NoDup.
Qed.

(** ** Snapshots *)

Lemma snapshot_doc (items : JsMap (QueueItem JsValue)) (processing : JsSet) :
  toJson (snapshot items processing)
  = Some (JObj [("items", JArr (map entryJson items));
                ("processing", JArr (map JStr processing))]).
Proof.
  unfold snapshot. cbn [toJson flat_map app]. rewrite !map_map. reflexivity.
Qed.

Lemma prop_items a b :
  prop "items" (JsObject (map_of_entries [("items", a); ("processing", b)])) = a.
Proof. reflexivity. Qed.

Lemma prop_processing a b :
  prop "processing" (JsObject (map_of_entries [("items", a); ("processing", b)]))
  = b.
Proof. reflexivity. Qed.

Lemma entryJson_item k i dv t p a jd :
  toJson dv = Some jd ->
  entryJson (k, mkItem i dv t p a)
  = JArr [JStr k;
          JObj [("id", JStr i); ("data", jd);
                ("addedAt", JStr (toISOString t));
                ("priority", JNum p); ("processingAttempts", JNum a)]].
Proof.
  intros H. unfold entryJson, itemObject.
  cbn [fst snd id data addedAt priority processingAttempts toJson map flat_map].
  rewrite H. reflexivity.
Qed.

Lemma reviveEntry_object k i dv iso p a :
  reviveEntry
    (JsArray [JsString k;
              JsObject (map_of_entries
                          [("id", JsString i); ("data", dv);
                           ("addedAt", JsString iso);
                           ("priority", JsNumber p);
                           ("processingAttempts", JsNumber a)])])
  = match Date_parse iso with
    | Some t => Some (k, mkItem i dv t p a)
    | None => None
    end.
Proof.
  change (reviveEntry _) with
    (bind_opt
       (match Date_parse iso with
        | Some t => Some (mkItem i dv t p a)
        | None => None
        end) (fun item => Some (k, item))).
  now destruct (Date_parse iso).
Qed.

Lemma entryJson_undefined k i t p a :
  entryJson (k, mkItem i JsUndefined t p a)
  = JArr [JStr k;
          JObj [("id", JStr i);
                ("addedAt", JStr (toISOString t));
                ("priority", JNum p); ("processingAttempts", JNum a)]].
Proof. reflexivity. Qed.

Lemma reviveEntry_object_undefined k i iso p a :
  reviveEntry
    (JsArray [JsString k;
              JsObject (map_of_entries
                          [("id", JsString i);
                           ("addedAt", JsString iso);
                           ("priority", JsNumber p);
                           ("processingAttempts", JsNumber a)])])
  = match Date_parse iso with
    | Some t => Some (k, mkItem i JsUndefined t p a)
    | None => None
    end.
Proof.
  change (reviveEntry _) with
    (bind_opt
       (match Date_parse iso with
        | Some t => Some (mkItem i JsUndefined t p a)
        | None => None
        end) (fun item => Some (k, item))).
  now destruct (Date_parse iso).
Qed.

Lemma reviveEntry_entryJson k (it : QueueItem JsValue) :
  storable it -> reviveEntry (fromJson (entryJson (k, it))) = Some (k, it).
Proof.
  destruct it as [i dv t p a]. intros [Hv Ht]. cbn [data addedAt] in Hv, Ht.
  destruct Hv as [-> | Hv].
  - rewrite entryJson_undefined. cbn [fromJson map].
    rewrite reviveEntry_object_undefined.
    now rewrite Date_parse_toISOString.
  - destruct (fromJson_toJson dv Hv) as (jd & Hjd & Hback).
    rewrite (entryJson_item k i dv t p a jd Hjd).
    cbn [fromJson map]. rewrite Hback, reviveEntry_object.
    now rewrite Date_parse_toISOString.
Qed.

Lemma traverse_entries (items : JsMap (QueueItem JsValue)) :
  Forall (fun e => storable (snd e)) items ->
  traverse reviveEntry (map fromJson (map entryJson items)) = Some items.
Proof.
  induction 1 as [|[k it] items Hs Hall IH]; [reflexivity|].
  cbn [map traverse]. cbn [snd] in Hs.
  rewrite (reviveEntry_entryJson k it Hs). cbn [bind_opt].
  now rewrite IH.
Qed.

Lemma traverse_strings (l : list string) :
  traverse asString (map fromJson (map JStr l)) = Some l.
Proof.
  induction l as [|s l IH]; [reflexivity|].
  cbn [map traverse fromJson asString bind_opt]. now rewrite IH.
Qed.

(** ** [processNext] and the invariant *)

Section ProcessNextFacts.
Context {T : Type}.

Lemma well_formed_processNext (q : Queue T) :
  well_formed q -> well_formed (snd (fst (processNext q))).
Proof.
  intros H. unfold processNext.
  pose proof (well_formed_dequeue q H) as H1.
  destruct (dequeue q) as [[item|] q1]; cbn [snd] in H1; [|exact H].
  destruct (runProcessors (processors q1) item 0) as [[| |err] tr];
    cbn [fst snd];
    [apply well_formed_complete | apply well_formed_retry
     | apply well_formed_retry]; exact H1.
Qed.
End ProcessNextFacts.

(** * The claims *)

Section PriorityOrder.
Context {T : Type}.

Lemma fresh_queue_state (o : QueueOptions) (calls : list (EnqueueCall T)) :
  priorityEnabled o = Some true ->
  NoDup (map c_uuid calls) ->
  Z.of_nat (length calls) <= or_number (maxSize o) 1000 ->
  let q := enqueueAll calls (newQueue o) in
  availableItems q = map enqueued calls /\
  selection q = byPriority /\
  distinct_ids q.
Proof.
  intros Hp ND Hcap q.
  assert (Eq : q = with_items (newQueue o) (map entry calls)).
  { unfold q. rewrite enqueueAll_state.
    - reflexivity.
    - cbn. now rewrite Hp.
    - exact ND.
    - reflexivity.
    - cbn. lia. }
  assert (Ea : availableItems q = map enqueued calls).
  { rewrite Eq. unfold availableItems. cbn.
    unfold map_values. rewrite map_map. cbn.
    apply filter_all. reflexivity. }
  split; [exact Ea|]. split.
  - rewrite Eq. unfold selection. cbn. now rewrite Hp.
  - unfold distinct_ids. rewrite Ea, map_map. exact ND.
Qed.

(** C1. On a queue built with [priorityEnabled = true], after any
    sequence of [enqueue] calls, the successive [dequeue] calls yield
    the enqueued items in non-increasing priority, within one priority
    in non-decreasing [addedAt], and within one priority and one
    [addedAt] in the order of the calls (so in the order of the calls
    within a priority when the clock does not run backwards); every
    item comes out once, and the dequeue after the last one is empty.
    For any queue, [dequeue] is empty exactly when every item of the
    mapping is in flight, which covers the empty mapping. *)
Theorem dequeue_priority_order (o : QueueOptions) (calls : list (EnqueueCall T)) :
  priorityEnabled o = Some true ->
  NoDup (map c_uuid calls) ->
  Z.of_nat (length calls) <= or_number (maxSize o) 1000 ->
  let q := enqueueAll calls (newQueue o) in
  let n := Z.of_nat (length calls) in
  let order := fst (dequeueMany n q) in
  (forall k, fst (dequeueMany k q) = firstn (Z.to_nat k) order) /\
  Permutation order (map enqueued calls) /\
  StronglySorted priority_order order /\
  (forall p t, filter (has_key p t) order
               = filter (has_key p t) (map enqueued calls)) /\
  (StronglySorted Z.le (map c_now calls) ->
   forall p, filter (has_priority p) order
             = filter (has_priority p) (map enqueued calls)) /\
  fst (dequeue (snd (dequeueMany n q))) = None /\
  (forall q0 : Queue T,
      fst (dequeue q0) = None <->
      (forall k it, In (k, it) (items q0) ->
                    set_has (id it) (processing q0) = true)).
Proof.
  intros Hp ND Hcap q n order.
  destruct (fresh_queue_state o calls Hp ND Hcap) as (Ea & Es & Hd).
  fold q in Ea, Es, Hd.
  pose (s := sort byPriority (map enqueued calls)).
  assert (Hlen : length s = length calls).
  { unfold s. rewrite (Permutation_length (sort_perm _ _)). apply length_map. }
  assert (Hloop : forall k, let (out, q') := dequeueLoop k q in
             out = firstn k s /\
             sort (selection q') (availableItems q') = skipn k s).
  { intros k. pose proof (dequeueLoop_sorted k q Hd) as H. cbv zeta in H.
    rewrite Ea, Es in H. fold s in H.
    destruct (dequeueLoop k q) as [out q']. tauto. }
  assert (Eo : order = s).
  { unfold order, dequeueMany, n. rewrite Nat2Z.id.
    specialize (Hloop (length calls)).
    destruct (dequeueLoop (length calls) q) as [out q']. cbn.
    destruct Hloop as [-> _]. rewrite <- Hlen. apply firstn_all. }
  assert (Htot := @byPriority_total T). assert (Htr := @byPriority_trans T).
  repeat split.
  - intros k. rewrite Eo. unfold dequeueMany.
    specialize (Hloop (Z.to_nat k)).
    destruct (dequeueLoop (Z.to_nat k) q) as [out q']. cbn. tauto.
  - rewrite Eo. apply sort_perm.
  - rewrite Eo. eapply StronglySorted_impl; [|apply sort_sorted; auto].
    intros a b. apply byPriority_order.
  - intros p t. rewrite Eo. unfold s.
    rewrite <- sort_filter by auto. apply sort_sorted_id.
    apply StronglySorted_pairwise. intros a b Ha Hb.
    apply filter_In in Ha as [_ Ha]. apply filter_In in Hb as [_ Hb].
    unfold has_key in *. apply andb_true_iff in Ha as [Ha1 Ha2].
    apply andb_true_iff in Hb as [Hb1 Hb2].
    rewrite Z.eqb_eq in *. unfold before. apply byPriority_order.
    unfold priority_order. lia.
  - intros Hclock p. rewrite Eo. unfold s.
    rewrite <- sort_filter by auto. apply sort_sorted_id.
    assert (Hs : StronglySorted (fun a b : QueueItem T => addedAt a <= addedAt b)
                   (map enqueued calls)).
    { apply StronglySorted_map. rewrite map_map. exact Hclock. }
    apply (StronglySorted_filter _ (has_priority p)) in Hs.
    revert Hs. generalize (map enqueued calls). intros l Hs.
    induction l as [|x l IH]; cbn; [constructor|].
    cbn in Hs. destruct (has_priority p x) eqn:Ex; [|auto].
    inversion Hs as [|? ? Hs' Hx]; subst.
    constructor; [auto|].
    rewrite Forall_forall in *. intros y Hy. specialize (Hx y Hy).
    apply filter_In in Hy as [_ Hy]. unfold has_priority in *.
    rewrite Z.eqb_eq in *. unfold before. apply byPriority_order.
    unfold priority_order. lia.
  - unfold dequeueMany, n. rewrite Nat2Z.id.
    specialize (Hloop (length calls)).
    destruct (dequeueLoop (length calls) q) as [out q']. cbn.
    destruct Hloop as [_ Hs]. rewrite dequeue_spec, Hs.
    rewrite <- Hlen, skipn_all. reflexivity.
  - apply dequeue_none_iff.
  - apply dequeue_none_iff.
Qed.
End PriorityOrder.

Section SingleOperations.
Context {T : Type}.

(** C9. A falsy option value is replaced by the built-in default:
    [maxSize: 0] gives the capacity 1000, so that [enqueue] on the new
    queue does not fail as full, [retryLimit: 0] gives the retry limit
    3, and with the options omitted the queue has [maxSize = 1000],
    [retryLimit = 3] and [priorityEnabled = false]. *)
Theorem falsy_options_default :
  (forall r p, r_maxSize (options (newQueue (T := T) (mkOptions (Some 0) r p))) = 1000) /\
  (forall m p, r_retryLimit (options (newQueue (T := T) (mkOptions m (Some 0) p))) = 3) /\
  options (newQueue (T := T) noOptions) = mkRequired 1000 3 false /\
  (forall r p uuid now (d : T) prio,
      fst (enqueue uuid now d prio (newQueue (mkOptions (Some 0) r p)))
      = Return uuid).
Proof. repeat split. Qed.

(** C10. In a state where every in-flight id is a key of the mapping,
    [retry] never leaves through the branch for an in-flight id without
    an item: once the membership check has passed, the lookup of the id
    in the mapping succeeds. *)
Theorem retry_missing_item_unreachable (q : Queue T) (i : string) :
  inflight_subset q ->
  retry_path i q <> MissingItem /\
  (set_has i (processing q) = true ->
   exists item, map_get i (items q) = Some item).
Proof.
  intros Inv.
  assert (H : set_has i (processing q) = true ->
              exists item, map_get i (items q) = Some item).
  { intros Hin. apply Inv in Hin. unfold map_has in Hin.
    destruct (map_get i (items q)) as [item|]; [eauto | discriminate]. }
  split; [|exact H]. unfold retry_path.
  destruct (set_has i (processing q)) eqn:E; simpl; [|discriminate].
  destruct (H eq_refl) as [item ->].
  now destruct (processingAttempts item >=? r_retryLimit (options q)).
Qed.

(** C7. [complete(id)] on an id that is not in flight returns false and
    changes nothing; [completeMany] applies [complete] to the ids one
    after the other and counts the successes and the failures; for
    [a] and [c] in flight and [b] not in flight, [completeMany([a,b,c])]
    returns [{succeeded: 2, failed: 1}] and leaves [b] as it was in the
    mapping.  An id that was completed is not in flight any more, so a
    second [complete] on it returns false. *)
Theorem complete_not_in_flight_and_many (q : Queue T) (a b c : string) :
  set_has a (processing q) = true ->
  set_has c (processing q) = true ->
  set_has b (processing q) = false ->
  a <> c ->
  (forall (q0 : Queue T) i,
      set_has i (processing q0) = false -> complete i q0 = (false, q0)) /\
  (forall (q0 : Queue T) i,
      fst (complete i (snd (complete i q0))) = false) /\
  (forall (q0 : Queue T) i ids,
      completeMany (i :: ids) q0 =
      let (ok, q1) := complete i q0 in
      let (n, q2) := completeMany ids q1 in
      (tally ok n, q2)) /\
  (forall (q0 : Queue T) ids,
      succeeded (fst (completeMany ids q0)) + failed (fst (completeMany ids q0))
      = Z.of_nat (length ids)) /\
  fst (completeMany [a; b; c] q) = mkCounts 2 1 /\
  map_get b (items (snd (completeMany [a; b; c] q))) = map_get b (items q) /\
  map_has a (items (snd (completeMany [a; b; c] q))) = false /\
  map_has c (items (snd (completeMany [a; b; c] q))) = false.
Proof.
  intros Ha Hc Hb Hac.
  assert (Hab : a <> b) by (intros ->; congruence).
  assert (Hcb : c <> b) by (intros ->; congruence).
  split; [intros; now apply complete_not_in_flight|].
  split.
  { intros q0 i. destruct (set_has i (processing q0)) eqn:E.
    - rewrite (complete_in_flight i q0 E). cbn [snd].
      rewrite complete_not_in_flight; [reflexivity|].
      cbn [processing with_state].
      rewrite set_has_delete, String.eqb_refl. reflexivity.
    - rewrite (complete_not_in_flight i q0 E). cbn [snd].
      now rewrite (complete_not_in_flight i q0 E). }
  split; [intros; apply countLoop_cons|].
  split; [intros; apply (countLoop_total complete ids q0)|].
  unfold completeMany. cbn [countLoop].
  rewrite (complete_in_flight a q Ha).
  set (q1 := with_state q _ _).
  assert (Hb1 : set_has b (processing q1) = false).
  { change (processing q1) with (set_delete a (processing q)).
    rewrite set_has_delete, Hb. apply andb_false_r. }
  rewrite (complete_not_in_flight b q1 Hb1).
  assert (Hc1 : set_has c (processing q1) = true).
  { change (processing q1) with (set_delete a (processing q)).
    rewrite set_has_delete, Hc.
    apply String.eqb_neq in Hac. now rewrite Hac. }
  rewrite (complete_in_flight c q1 Hc1).
  cbn [fst snd tally succeeded failed items with_state q1].
  repeat split.
  - rewrite !map_get_delete_other; auto.
  - rewrite !map_has_delete. apply String.eqb_neq in Hac.
    rewrite String.eqb_sym in Hac. rewrite Hac, String.eqb_refl. reflexivity.
  - rewrite map_has_delete, String.eqb_refl. reflexivity.
Qed.
End SingleOperations.

Section Reachability.
Context {T : Type}.

(** C6. In every state that a sequence of [enqueue], [dequeue], [peek],
    [complete], [retry], [clear], [dequeueMany], [completeMany] and
    [retryMany] calls reaches from a new queue, every in-flight id is a
    key of the mapping. *)
Theorem inflight_subset_reachable (q : Queue T) :
  reachable q -> inflight_subset q.
Proof.
  intros (o & ops & ->).
  apply (well_formed_run ops (newQueue o)), well_formed_new.
Qed.
End Reachability.

Section Retry.
Context {T : Type}.

(** C2. [retry(id)] returns false and changes nothing when the id is not
    in flight.  For an in-flight id whose item has at least [retryLimit]
    attempts it removes the item from the mapping and from the in-flight
    set and returns false.  For an in-flight id whose item has fewer
    attempts it adds one to the attempts, takes the id out of the
    in-flight set, keeps the item in the mapping, where [dequeue] can
    select it again, and returns true.  So when the item that [dequeue]
    selects has no attempts yet and is dequeued and retried [retryLimit]
    times, every retry returns true, and one more [dequeue] and [retry]
    returns false and takes the item out of [size()] and of [browse()]. *)
Theorem retry_until_exhausted (q : Queue T) (item : QueueItem T) (n : nat) :
  well_formed q ->
  distinct_keys q ->
  r_retryLimit (options q) = Z.of_nat n ->
  fst (dequeue q) = Some item ->
  processingAttempts item = 0 ->
  (forall (q0 : Queue T) i,
      set_has i (processing q0) = false -> retry i q0 = (false, q0)) /\
  (forall (q0 : Queue T) i it,
      set_has i (processing q0) = true ->
      map_get i (items q0) = Some it ->
      processingAttempts it >= r_retryLimit (options q0) ->
      fst (retry i q0) = false /\
      items (snd (retry i q0)) = map_delete i (items q0) /\
      processing (snd (retry i q0)) = set_delete i (processing q0) /\
      map_has i (items (snd (retry i q0))) = false /\
      set_has i (processing (snd (retry i q0))) = false) /\
  (forall (q0 : Queue T) i it,
      set_has i (processing q0) = true ->
      map_get i (items q0) = Some it ->
      processingAttempts it < r_retryLimit (options q0) ->
      fst (retry i q0) = true /\
      (exists it',
          map_get i (items (snd (retry i q0))) = Some it' /\
          processingAttempts it' = processingAttempts it + 1 /\
          id it' = id it /\ data it' = data it /\
          addedAt it' = addedAt it /\ priority it' = priority it /\
          (id it = i -> In it' (availableItems (snd (retry i q0))))) /\
      map_keys (items (snd (retry i q0))) = map_keys (items q0) /\
      (forall k, k <> i ->
                 map_get k (items (snd (retry i q0))) = map_get k (items q0)) /\
      processing (snd (retry i q0)) = set_delete i (processing q0) /\
      set_has i (processing (snd (retry i q0))) = false) /\
  (let (oks, q1) := retryRounds n (id item) q in
   oks = repeat true n /\
   let (ok, q2) := retry (id item) (snd (dequeue q1)) in
   ok = false /\
   size q2 = size q - 1 /\
   map_has (id item) (items q2) = false /\
   set_has (id item) (processing q2) = false /\
   (forall limit it, In it (browse limit q2) -> id it <> id item)).
Proof.
  intros Hwf Hd Hlim Hq Hzero.
  split; [|split; [|split]].
  - intros q0 i H. unfold retry. now rewrite H.
  - intros q0 i it Hin Hg Hge. unfold retry. rewrite Hin, Hg. cbn [negb].
    apply Z.ge_le, Z.geb_le in Hge. rewrite Hge. cbn [fst snd items processing with_state].
    repeat split.
    + rewrite map_has_delete, String.eqb_refl. reflexivity.
    + rewrite set_has_delete, String.eqb_refl. reflexivity.
  - intros q0 i it Hin Hg Hlt. unfold retry. rewrite Hin, Hg. cbn [negb].
    destruct (processingAttempts it >=? r_retryLimit (options q0)) eqn:E.
    { apply Z.geb_le in E. lia. }
    cbn [fst snd items processing with_state].
    split; [reflexivity|]. split; [|split; [|split; [|split]]].
    + exists (bump it). rewrite map_get_set_same, bump_attempts.
      repeat split. intros Hid.
      unfold availableItems. cbn [items processing with_state].
      apply filter_In. split.
      * unfold map_values. change (bump it) with (snd (i, bump it)).
        apply in_map. apply map_get_In. apply map_get_set_same.
      * change (id (bump it)) with (id it). rewrite Hid, set_has_delete.
        now rewrite String.eqb_refl.
    + rewrite map_keys_set. unfold map_has. now rewrite Hg.
    + intros k Hk. apply map_get_set_other. congruence.
    + reflexivity.
    + rewrite set_has_delete, String.eqb_refl. reflexivity.
  - pose proof (retryRounds_below_limit n q item Hwf Hd Hq) as H.
    rewrite Hzero, Hlim in H. specialize (H (Z.le_refl _)).
    destruct (retryRounds n (id item) q) as [oks q1].
    destruct H as (-> & Hwf1 & Hd1 & Ho & Hsz & it' & Hq1 & Hid & Hat).
    split; [reflexivity|].
    pose proof (well_formed_dequeue q1 Hwf1) as Hwf2.
    rewrite dequeue_spec in Hq1, Hwf2 |- *.
    destruct (sort (selection q1) (availableItems q1)) as [|x r] eqn:E;
      [discriminate|].
    cbn [fst snd] in *. injection Hq1 as ->.
    assert (Hin : In (id it', it') (items q1)).
    { apply sort_head_In in E. unfold availableItems in E.
      apply filter_In in E as [E _]. unfold map_values in E.
      apply in_map_iff in E as ([k v] & Ev & Hin). cbn in Ev. subst v.
      destruct Hwf1 as [Hk _]. now rewrite (Hk k it' Hin). }
    pose proof (In_map_get _ _ _ Hd1 Hin) as Hg.
    rewrite <- Hid. unfold retry.
    cbn [processing items options with_processing with_state].
    rewrite set_has_add, String.eqb_refl. cbn [orb negb]. rewrite Hg.
    assert (Hge : (processingAttempts it' >=? r_retryLimit (options q1)) = true).
    { apply Z.geb_le. rewrite Ho, Hlim, Hat. lia. }
    rewrite Hge. unfold size in *. cbn [items processing with_state].
    split; [reflexivity|]. split; [|split; [|split]].
    + rewrite map_delete_length; [lia | exact Hd1 |].
      now apply In_map_has with it'.
    + rewrite map_has_delete, String.eqb_refl. reflexivity.
    + rewrite set_has_delete, String.eqb_refl. reflexivity.
    + intros limit it Hb. unfold browse in Hb. apply slice0_In in Hb.
      apply (Permutation_in _ (sort_perm _ _)) in Hb.
      cbn [items with_state] in Hb. unfold map_values in Hb.
      apply in_map_iff in Hb as ([k v] & Ev & Hb). cbn in Ev. subst v.
      apply In_map_delete in Hb as [Hb Hne]. cbn in Hne.
      destruct Hwf1 as [Hk _]. now rewrite (Hk k it Hb).
Qed.
End Retry.

Section ProcessNext.
Context {T : Type}.

(** C4, as amended.  [processNext] returns false and changes nothing
    when no item can be dequeued.  Otherwise it invokes the processors
    in registration order on the dequeued item: at the first processor
    that succeeds it completes the item and returns true; at the first
    processor that throws it stops, invokes none of the remaining
    processors, retries the item and returns false; when every
    processor returns false it retries the item and returns false.  A
    throw of the last processor has the outcome of a returned false. *)
Theorem processNext_outcomes (q : Queue T) :
  (fst (dequeue q) = None -> processNext q = (false, q, [])) /\
  (forall item pre p post,
      fst (dequeue q) = Some item ->
      processors q = pre ++ p :: post ->
      Forall (returns_false item) pre ->
      let q1 := snd (dequeue q) in
      let upto := seq 0 (S (length pre)) in
      (p item = Fulfilled true ->
       processNext q = (true, snd (complete (id item) q1), upto)) /\
      (forall err, p item = Rejected err ->
       processNext q = (false, snd (retry (id item) q1), upto)) /\
      (p item = Fulfilled false -> post = [] ->
       processNext q = (false, snd (retry (id item) q1), upto))) /\
  (forall item,
      fst (dequeue q) = Some item ->
      Forall (returns_false item) (processors q) ->
      processNext q =
      (false, snd (retry (id item) (snd (dequeue q))),
       seq 0 (length (processors q)))).
Proof.
  assert (Hps : forall item, fst (dequeue q) = Some item ->
                 processors (snd (dequeue q)) = processors q).
  { intros item H. rewrite dequeue_spec in *.
    now destruct (sort (selection q) (availableItems q)). }
  split; [|split].
  - intros H. unfold processNext. destruct (dequeue q) as [[item|] q1];
      [discriminate | reflexivity].
  - intros item pre p post Hq Hsplit Hpre q1 upto.
    specialize (Hps item Hq). unfold processNext. fold q1 in Hps.
    destruct (dequeue q) as [o q1'] eqn:Ed. cbn [fst snd] in *.
    subst o q1. rewrite Hps, Hsplit.
    rewrite runProcessors_false_prefix by exact Hpre.
    cbn [runProcessors Nat.add]. unfold upto.
    rewrite <- seq_snoc. repeat split.
    + intros ->. reflexivity.
    + intros err ->. reflexivity.
    + intros -> ->. reflexivity.
  - intros item Hq Hall. specialize (Hps item Hq). unfold processNext.
    destruct (dequeue q) as [o q1] eqn:Ed. cbn [fst snd] in *. subst o.
    rewrite Hps, runProcessors_all_false by exact Hall. reflexivity.
Qed.
End ProcessNext.

(** C4, as stated, fails: with a first processor that throws and a
    second that succeeds, [processNext] invokes the first processor only,
    returns false and keeps the item with one more attempt, while with a
    first processor that returns false it invokes both, returns true and
    removes the item. *)
Lemma throw_is_not_false :
  outcome throwing_queue = (false, [("a", mkItem "a" tt 0 0 1)], [], [0%nat]) /\
  outcome (with_processors throwing_queue
             (map false_for_throw (processors throwing_queue)))
  = (true, [], [], [0%nat; 1%nat]) /\
  ~ throw_is_false (T := unit).
Proof.
  split; [reflexivity|]. split; [reflexivity|].
  intros H. specialize (H throwing_queue). discriminate H.
Qed.

Section Notification.
Context {T W : Type}.

(** C3. On a queue with two subscribers, [A] registered through
    [subscribeToQueue] with [eventTypes = ['itemAdded']] and [B]
    registered without options, [complete(id)] on an in-flight id emits
    [itemProcessed], which reaches [B] and does not reach [A]: what the
    call does to the world outside is what [B] does with the
    [itemProcessed] event (and then with [queueEmpty], when the mapping
    is left empty), whatever [A] is. *)
Theorem itemProcessed_skips_filtered_subscriber
    (registry : JsMap (EventQueue T W)) (svc : QueueNotificationService T W)
    (queue : string) (evq : EventQueue T W) (A B : QueueSubscriber T W)
    (now : Z) (i : string) :
  map_get queue registry = Some evq ->
  subscribers evq = [] ->
  set_has i (processing (core evq)) = true ->
  let '(okA, registry1, svc1) :=
    subscribeToQueue queue A (Some onlyItemAdded) registry svc in
  let '(okB, registry2, svc2) :=
    subscribeToQueue queue B None registry1 svc1 in
  okA = true /\ okB = true /\
  exists evq2,
    map_get queue registry2 = Some evq2 /\
    forall w,
      let '(ok, evq3, w') := completeAndNotify now i evq2 w in
      let processed :=
        mkEvent itemProcessed (name evq) now
          (Some (mkEventData (map_get i (items (core evq))) None None None)) in
      ok = true /\
      type processed = itemProcessed /\
      w' = (if size (core evq3) =? 0
            then onEvent B (mkEvent queueEmpty (name evq) now None)
                         (onEvent B processed w)
            else onEvent B processed w).
Proof.
  intros Hq Hsubs Hin. unfold subscribeToQueue. rewrite Hq.
  rewrite map_get_set_same.
  repeat match goal with |- _ /\ _ => split; [reflexivity|] end.
  eexists. split; [apply map_get_set_same|].
  intros w. unfold completeAndNotify. cbn [core subscribe name subscribers].
  rewrite (complete_in_flight i (core evq) Hin), Hsubs.
  cbn [app]. unfold emit. cbn [subscribers fold_left core].
  repeat match goal with |- _ /\ _ => split; [reflexivity|] end.
  destruct (size _ =? 0); reflexivity.
Qed.
End Notification.

Lemma async_returns {A S : Type} (body : S -> Completion (Settled A) * S) s :
  exists p, fst (async body s) = Return p.
Proof.
  unfold async. destruct (body s) as [[p|err] s']; cbn [fst]; eexists;
    reflexivity.
Qed.

Lemma saveLoop_promises (qs : list (Queue JsValue)) ps fs :
  fst (saveLoop qs ps fs) = ps ++ fst (saveLoop qs [] fs).
Proof.
  revert ps fs. induction qs as [|q qs IH]; intros ps fs; cbn [saveLoop].
  - cbn. now rewrite app_nil_r.
  - destruct (saveToStorage q fs) as [[p|err] fs']; [|apply IH].
    rewrite IH, (IH [p]). cbn. now rewrite <- app_assoc.
Qed.

(** The [catch] of the loop is never entered: every queue contributes
    a promise. *)
Lemma saveLoop_never_catches (qs : list (Queue JsValue)) fs :
  length (fst (saveLoop qs [] fs)) = length qs.
Proof.
  revert fs. induction qs as [|q qs IH]; intros fs; [reflexivity|].
  cbn [saveLoop]. unfold saveToStorage, async.
  destruct (saveToStorage_body q fs) as [[p|err] fs'];
    rewrite saveLoop_promises, length_app, IH; reflexivity.
Qed.

Lemma Promise_all_rejected (ps : list (Settled unit)) err :
  In (Rejected err) ps -> exists err', Promise_all ps = Rejected err'.
Proof.
  induction ps as [|[[]|e] ps IH]; cbn; [tauto | | eauto].
  intros [H|H]; [discriminate | auto].
Qed.

(** Whenever a registered queue has no storage adapter, [saveAllQueues]
    rejects: the error of that queue reaches its promise. *)
Lemma saveAllQueues_rejects (mgr : QueueManager) (fs : FileSystem) q :
  In q (map_values (queues mgr)) ->
  storageAdapter q = None ->
  exists err, fst (saveAllQueues mgr fs) = Rejected err.
Proof.
  intros Hin Hnone. unfold saveAllQueues.
  assert (H : In (Rejected "No storage adapter set")
                 (fst (saveLoop (map_values (queues mgr)) [] fs))).
  { revert fs. induction (map_values (queues mgr)) as [|q0 qs IH]; intros fs;
      [contradiction|].
    cbn [saveLoop]. destruct Hin as [->|Hin].
    - unfold saveToStorage, async, saveToStorage_body. rewrite Hnone.
      rewrite saveLoop_promises. now left.
    - destruct (saveToStorage q0 fs) as [[p|err] fs']; [|now apply IH].
      rewrite saveLoop_promises. cbn [app]. right. now apply IH. }
  destruct (saveLoop (map_values (queues mgr)) [] fs) as [ps fs'].
  cbn [fst] in *. eapply Promise_all_rejected. exact H.
Qed.

(** C8, on the code.  With a registry that has no storage directory and
    one queue, [saveAllQueues] is rejected with the error of that queue:
    the [catch] around the call does not see it.  With two queues, the
    first of which cannot write its file, the file of the second is
    written all the same and [saveAllQueues] is rejected with the error
    of the first. *)
Theorem saveAllQueues_failure_escapes :
  saveAllQueues memory_manager emptyFS
  = (Rejected "No storage adapter set", emptyFS) /\
  fst (saveAllQueues disk_manager faulty_disk) = Rejected "EIO" /\
  map_has "data/second.json" (files (snd (saveAllQueues disk_manager faulty_disk)))
  = true /\
  map_has "data/first.json" (files (snd (saveAllQueues disk_manager faulty_disk)))
  = false.
Proof. repeat split. Qed.



(** * Instances *)

(** C1 on the scenario of the specification: [enqueue(A, 1)], then
    [enqueue(B, 5)]. *)
Lemma dequeue_priority_order_witness :
  (priorityEnabled priorityOptions = Some true /\
   NoDup (map c_uuid two_calls) /\
   Z.of_nat (length two_calls) <= or_number (maxSize priorityOptions) 1000) /\
  let q := enqueueAll two_calls (newQueue priorityOptions) in
  let n := Z.of_nat (length two_calls) in
  let order := fst (dequeueMany n q) in
  (forall k, fst (dequeueMany k q) = firstn (Z.to_nat k) order) /\
  Permutation order (map enqueued two_calls) /\
  StronglySorted priority_order order /\
  (forall p t, filter (has_key p t) order
               = filter (has_key p t) (map enqueued two_calls)) /\
  (StronglySorted Z.le (map c_now two_calls) ->
   forall p, filter (has_priority p) order
             = filter (has_priority p) (map enqueued two_calls)) /\
  fst (dequeue (snd (dequeueMany n q))) = None /\
  (forall q0 : Queue string,
      fst (dequeue q0) = None <->
      (forall k it, In (k, it) (items q0) ->
                    set_has (id it) (processing q0) = true)).
Proof.
  assert (H1 : priorityEnabled priorityOptions = Some true) by reflexivity.
  assert (H2 : NoDup (map c_uuid two_calls)).
  { repeat constructor; simpl; intuition discriminate. }
  assert (H3 : Z.of_nat (length two_calls)
               <= or_number (maxSize priorityOptions) 1000)
    by (vm_compute; discriminate).
  split; [auto|].
  exact (dequeue_priority_order priorityOptions two_calls H1 H2 H3).
Defined.

(** C10 on a queue of three items, two of them in flight. *)
Lemma retry_missing_item_unreachable_witness :
  inflight_subset three_items /\
  retry_path "a" three_items <> MissingItem /\
  (set_has "a" (processing three_items) = true ->
   exists item, map_get "a" (items three_items) = Some item).
Proof.
  assert (H : inflight_subset three_items).
  { intros i Hi. apply set_has_In in Hi. simpl in Hi.
    destruct Hi as [<-|[<-|[]]]; reflexivity. }
  split; [exact H|].
  exact (retry_missing_item_unreachable three_items "a" H).
Defined.

(** C7 on a queue of three items, the first and the third in flight. *)
Lemma complete_not_in_flight_and_many_witness :
  (set_has "a" (processing three_items) = true /\
   set_has "c" (processing three_items) = true /\
   set_has "b" (processing three_items) = false /\ "a" <> "c") /\
  fst (completeMany ["a"; "b"; "c"] three_items) = mkCounts 2 1 /\
  map_get "b" (items (snd (completeMany ["a"; "b"; "c"] three_items)))
  = map_get "b" (items three_items).
Proof.
  assert (Ha : set_has "a" (processing three_items) = true) by reflexivity.
  assert (Hc : set_has "c" (processing three_items) = true) by reflexivity.
  assert (Hb : set_has "b" (processing three_items) = false) by reflexivity.
  assert (Hac : "a" <> "c") by discriminate.
  split; [auto|].
  pose proof (complete_not_in_flight_and_many three_items "a" "b" "c"
                Ha Hc Hb Hac) as H.
  split; [apply H | apply H].
Defined.

(** C6 on the state after one [enqueue] and one [dequeue]. *)
Lemma inflight_subset_reachable_witness :
  reachable (run [OpEnqueue "a" 1 "A" None; OpDequeue] (newQueue noOptions)) /\
  inflight_subset
    (run [OpEnqueue "a" 1 "A" None; OpDequeue] (newQueue noOptions)).
Proof.
  assert (H : reachable (T := string)
                (run [OpEnqueue "a" 1 "A" None; OpDequeue] (newQueue noOptions))).
  { exists noOptions, [OpEnqueue "a" 1 "A" None; OpDequeue]. reflexivity. }
  split; [exact H|].
  exact (inflight_subset_reachable _ H).
Defined.

(** C2 on the queue of the test "should respect max retries". *)
Lemma retry_until_exhausted_witness :
  (well_formed retry_test_queue /\ distinct_keys retry_test_queue /\
   r_retryLimit (options retry_test_queue) = Z.of_nat 2 /\
   fst (dequeue retry_test_queue) = Some retry_test_item /\
   processingAttempts retry_test_item = 0) /\
  (let (oks, q1) := retryRounds 2 (id retry_test_item) retry_test_queue in
   oks = repeat true 2 /\
   let (ok, q2) := retry (id retry_test_item) (snd (dequeue q1)) in
   ok = false /\
   size q2 = size retry_test_queue - 1 /\
   map_has (id retry_test_item) (items q2) = false /\
   set_has (id retry_test_item) (processing q2) = false /\
   (forall limit it, In it (browse limit q2) -> id it <> id retry_test_item)).
Proof.
  assert (H1 : well_formed retry_test_queue).
  { split.
    - intros k it [H|[]]. now injection H as <- <-.
    - intros i Hi. apply set_has_In in Hi. destruct Hi. }
  assert (H2 : distinct_keys retry_test_queue).
  { repeat constructor. simpl. tauto. }
  assert (H3 : r_retryLimit (options retry_test_queue) = Z.of_nat 2)
    by reflexivity.
  assert (H4 : fst (dequeue retry_test_queue) = Some retry_test_item)
    by reflexivity.
  assert (H5 : processingAttempts retry_test_item = 0) by reflexivity.
  split; [auto 6|].
  exact (proj2 (proj2 (proj2
    (retry_until_exhausted retry_test_queue retry_test_item 2 H1 H2 H3 H4 H5)))).
Defined.

(** C3 with two subscribers that record what they receive. *)
Lemma itemProcessed_skips_filtered_subscriber_witness :
  (map_get "jobs" [("jobs", one_in_flight)] = Some one_in_flight /\
   subscribers one_in_flight = [] /\
   set_has "a" (processing (core one_in_flight)) = true) /\
  let '(okA, registry1, svc1) :=
    subscribeToQueue "jobs" (recorder "A") (Some onlyItemAdded)
                     [("jobs", one_in_flight)] (mkService []) in
  let '(okB, registry2, svc2) :=
    subscribeToQueue "jobs" (recorder "B") None registry1 svc1 in
  okA = true /\ okB = true /\
  exists evq2,
    map_get "jobs" registry2 = Some evq2 /\
    forall w,
      let '(ok, evq3, w') := completeAndNotify 7 "a" evq2 w in
      let processed :=
        mkEvent itemProcessed (name one_in_flight) 7
          (Some (mkEventData (map_get "a" (items (core one_in_flight)))
                             None None None)) in
      ok = true /\
      type processed = itemProcessed /\
      w' = (if size (core evq3) =? 0
            then onEvent (recorder "B")
                         (mkEvent queueEmpty (name one_in_flight) 7 None)
                         (onEvent (recorder "B") processed w)
            else onEvent (recorder "B") processed w).
Proof.
  assert (H1 : map_get "jobs" [("jobs", one_in_flight)] = Some one_in_flight)
    by reflexivity.
  assert (H2 : subscribers one_in_flight = []) by reflexivity.
  assert (H3 : set_has "a" (processing (core one_in_flight)) = true)
    by reflexivity.
  split; [auto|].
  exact (itemProcessed_skips_filtered_subscriber
           [("jobs", one_in_flight)] (mkService []) "jobs" one_in_flight
           (recorder "A") (recorder "B") 7 "a" H1 H2 H3).
Defined.

(** C4, as amended, on a first processor that throws: the second one is
    not invoked and the item is retried. *)
Lemma processNext_outcomes_witness :
  (fst (dequeue throwing_queue) = Some (mkItem "a" tt 0 0 0) /\
   Forall (returns_false (mkItem "a" tt 0 0 0)) []) /\
  processNext throwing_queue
  = (false,
     snd (retry "a" (snd (dequeue throwing_queue))),
     seq 0 1).
Proof.
  assert (H1 : fst (dequeue throwing_queue) = Some (mkItem "a" tt 0 0 0))
    by reflexivity.
  assert (H2 : Forall (returns_false (mkItem "a" tt 0 0 0)) [])
    by constructor.
  split; [auto|].
  exact (proj1 (proj2
    (proj1 (proj2 (processNext_outcomes throwing_queue))
       (mkItem "a" tt 0 0 0) [] (fun _ => Rejected "boom")
       [fun _ => Fulfilled true] H1 eq_refl H2)) "boom" eq_refl).
Defined.


(** * The tests of [tests/queue.test.ts] and the scenarios of the
      specification, on the model *)

Example test_enqueue_dequeue :
  let q := newQueue (T := string) priorityOptions in
  let q1 := snd (enqueue "id-1" 1000 "Test task" None q) in
  let (item, q2) := dequeue q1 in
  size q1 = 1 /\
  option_map data item = Some "Test task" /\
  size q2 = 1 /\
  size (snd (complete "id-1" q2)) = 0.
Proof. repeat split. Qed.

Example test_priorities :
  let calls := [mkCall "id-1" 1000 "Low priority" (Some 1);
                mkCall "id-2" 1000 "High priority" (Some 10);
                mkCall "id-3" 1000 "Medium priority" (Some 5)] in
  map data (fst (dequeueMany 3 (enqueueAll calls (newQueue priorityOptions))))
  = ["High priority"; "Medium priority"; "Low priority"].
Proof. reflexivity. Qed.

Example test_retries :
  let q := snd (enqueue "id-1" 1000 "Retry task" None
                  (newQueue (T := string) priorityOptions)) in
  let (ok, q1) := retry "id-1" (snd (dequeue q)) in
  ok = true /\
  option_map data (fst (dequeue q1)) = Some "Retry task" /\
  option_map processingAttempts (fst (dequeue q1)) = Some 1.
Proof. repeat split. Qed.

Example test_max_retries :
  let (oks, q) := retryRounds 2 "id-r" retry_test_queue in
  let (ok, q') := retry "id-r" (snd (dequeue q)) in
  oks = [true; true] /\ ok = false /\ size q' = 0.
Proof. repeat split. Qed.

Example scenario_two_priorities :
  let q := enqueueAll two_calls (newQueue priorityOptions) in
  let (first, q1) := dequeue q in
  let (second, q2) := dequeue q1 in
  option_map data first = Some "B" /\
  option_map data second = Some "A" /\
  fst (dequeue q2) = None.
Proof. repeat split. Qed.

Example scenario_capacity :
  let q := newQueue (T := string) (mkOptions (Some 1) None None) in
  let (r1, q1) := enqueue "id-1" 1000 "x" None q in
  let (r2, q2) := enqueue "id-2" 1001 "y" None q1 in
  r1 = Return "id-1" /\ r2 = Throw "Queue is full" /\ size q2 = 1.
Proof. repeat split. Qed.

Example scenario_notification :
  let '(_, registry1, svc1) :=
    subscribeToQueue "jobs" (recorder "A") (Some onlyItemAdded)
                     [("jobs", one_in_flight)] (mkService []) in
  let '(_, registry2, _) :=
    subscribeToQueue "jobs" (recorder "B") None registry1 svc1 in
  match map_get "jobs" registry2 with
  | Some evq =>
      map (fun r => (fst r, type (snd r)))
          (snd (completeAndNotify 7 "a" evq []))
      = [("B", itemProcessed); ("B", queueEmpty)]
  | None => False
  end.
Proof. reflexivity. Qed.

(** * Further properties of the code *)

(** ** Invariants of the public operations *)

Section StepFacts.
Context {T : Type}.
Variable P : Queue T -> Prop.
Hypothesis HP : preserved P.

Lemma preserved_dequeueLoop n q : P q -> P (snd (dequeueLoop n q)).
Proof.
  destruct HP as (_ & P_dequeue & _).
  revert q. induction n as [|n IH]; intros q Hq; [exact Hq|].
  cbn [dequeueLoop]. pose proof (P_dequeue q Hq) as H1.
  destruct (dequeue q) as [[it|] q1]; cbn [snd] in *; [|exact H1].
  specialize (IH q1 H1). destruct (dequeueLoop n q1) as [out q2]. exact IH.
Qed.

Lemma preserved_countLoop (op : string -> Queue T -> bool * Queue T) ids c q :
  (forall i q0, P q0 -> P (snd (op i q0))) ->
  P q -> P (snd (countLoop op ids c q)).
Proof.
  intros Hop. revert c q. induction ids as [|i ids IH]; intros c q Hq;
    [exact Hq|].
  cbn [countLoop]. pose proof (Hop i q Hq) as H1.
  destruct (op i q) as [ok q1]. cbn [snd] in H1. now apply IH.
Qed.

Lemma preserved_step q (o : Op) : P q -> P (step q o).
Proof.
  intros Hq. pose proof HP as (He & Hd & Hc & Hr & Hcl & _).
  destruct o; cbn [step]; auto.
  - now apply preserved_dequeueLoop.
  - now apply preserved_countLoop.
  - now apply preserved_countLoop.
Qed.

Lemma preserved_processNext q : P q -> P (snd (fst (processNext q))).
Proof.
  intros Hq. pose proof HP as (_ & Hd & Hc & Hr & _).
  unfold processNext. pose proof (Hd q Hq) as H1.
  destruct (dequeue q) as [[item|] q1]; cbn [snd] in H1; [|exact Hq].
  destruct (runProcessors (processors q1) item 0) as [[| |err] tr];
    cbn [fst snd]; auto.
Qed.

Lemma preserved_perform q (c : Call) : P q -> P (perform q c).
Proof.
  intros Hq. destruct c as [o| |p]; cbn [perform].
  - now apply preserved_step.
  - now apply preserved_processNext.
  - destruct HP as (_ & _ & _ & _ & _ & Hreg). now apply Hreg.
Qed.

Lemma preserved_history (calls : list Call) q : P q -> P (history calls q).
Proof.
  revert q. induction calls as [|c calls IH]; intros q Hq; [exact Hq|].
  cbn [history fold_left]. apply IH. now apply preserved_perform.
Qed.

Lemma preserved_attainable q :
  (forall o, P (newQueue o)) -> attainable q -> P q.
Proof. intros Hnew (o & calls & ->). apply preserved_history, Hnew. Qed.

End StepFacts.

Section MoreMapFacts.
Context {V : Type}.

Lemma map_size_set k (v : V) m :
  map_size (map_set k v m)
  = if map_has k m then map_size m else map_size m + 1.
Proof.
  unfold map_size. rewrite <- (length_map fst (map_set k v m)).
  change (map fst (map_set k v m)) with (map_keys (map_set k v m)).
  rewrite map_keys_set. destruct (map_has k m).
  - unfold map_keys. now rewrite length_map.
  - unfold map_keys. rewrite length_app, length_map. cbn [length]. lia.
Qed.

Lemma map_size_delete_le k (m : JsMap V) : map_size (map_delete k m) <= map_size m.
Proof.
  unfold map_size, map_delete. pose proof (filter_length_le
    (fun e : string * V => negb (String.eqb k (fst e))) m). lia.
Qed.

Lemma map_get_has k (v : V) m : map_get k m = Some v -> map_has k m = true.
Proof. intros H. eapply In_map_has. apply map_get_In. exact H. Qed.

Lemma map_has_get k (m : JsMap V) :
  map_has k m = true -> exists v, map_get k m = Some v.
Proof.
  intros H. apply map_has_keys in H. unfold map_keys in H.
  apply in_map_iff in H as ([k' v] & E & Hin). cbn in E. subst k'.
  induction m as [|[k0 v0] m IH]; [contradiction|].
  destruct (String.eqb k k0) eqn:Ek.
  - exists v0. unfold map_get. now rewrite Ek.
  - destruct Hin as [Hin|Hin].
    + inversion Hin; subst. now rewrite String.eqb_refl in Ek.
    + destruct (IH Hin) as [v1 Hv1]. exists v1.
      unfold map_get in *. now rewrite Ek.
Qed.
End MoreMapFacts.

Section StateFacts.
Context {T : Type}.

Lemma options_enqueue uuid now (d : T) prio q :
  options (snd (enqueue uuid now d prio q)) = options q.
Proof. unfold enqueue. now destruct (_ >=? _). Qed.

Lemma options_dequeue (q : Queue T) : options (snd (dequeue q)) = options q.
Proof.
  rewrite dequeue_spec. now destruct (sort (selection q) (availableItems q)).
Qed.

Lemma items_dequeue (q : Queue T) : items (snd (dequeue q)) = items q.
Proof.
  rewrite dequeue_spec. now destruct (sort (selection q) (availableItems q)).
Qed.

Lemma options_complete i (q : Queue T) : options (snd (complete i q)) = options q.
Proof. unfold complete. now destruct (negb _). Qed.

Lemma options_retry i (q : Queue T) : options (snd (retry i q)) = options q.
Proof.
  rewrite retry_by_path. now destruct (retry_path i q).
Qed.

Lemma items_dequeueLoop n (q : Queue T) :
  items (snd (dequeueLoop n q)) = items q.
Proof.
  revert q. induction n as [|n IH]; intros q; [reflexivity|].
  cbn [dequeueLoop]. pose proof (items_dequeue q) as H1.
  destruct (dequeue q) as [[it|] q1]; cbn [snd] in *; [|exact H1].
  specialize (IH q1). destruct (dequeueLoop n q1) as [out q2].
  cbn [snd] in *. congruence.
Qed.

Lemma options_dequeueLoop n (q : Queue T) :
  options (snd (dequeueLoop n q)) = options q.
Proof.
  revert q. induction n as [|n IH]; intros q; [reflexivity|].
  cbn [dequeueLoop]. pose proof (options_dequeue q) as H1.
  destruct (dequeue q) as [[it|] q1]; cbn [snd] in *; [|exact H1].
  specialize (IH q1). destruct (dequeueLoop n q1) as [out q2].
  cbn [snd] in *. congruence.
Qed.

Lemma within_capacity_preserved : preserved (within_capacity (T := T)).
Proof.
  unfold preserved, within_capacity, size. split_ands.
  - intros uuid now d prio q Hq. rewrite options_enqueue. unfold enqueue.
    destruct (map_size (items q) >=? r_maxSize (options q)) eqn:E;
      cbn [snd items with_items with_state]; [exact Hq|].
    rewrite map_size_set. destruct (map_has uuid (items q)); lia.
  - intros q Hq. now rewrite options_dequeue, items_dequeue.
  - intros i q Hq. rewrite options_complete. unfold complete.
    destruct (negb _); cbn [snd items with_state]; [exact Hq|].
    pose proof (map_size_delete_le i (items q)). lia.
  - intros i q Hq. rewrite options_retry. unfold retry.
    destruct (negb _); cbn [snd]; [exact Hq|].
    destruct (map_get i (items q)) as [item|] eqn:Eg; cbn [snd]; [|exact Hq].
    destruct (_ >=? _); cbn [snd items with_state].
    + pose proof (map_size_delete_le i (items q)). lia.
    + rewrite map_size_set, (map_get_has _ _ _ Eg). exact Hq.
  - intros q Hq. cbn. lia.
  - intros p q Hq. exact Hq.
Qed.

Lemma attempts_bounded_preserved : preserved (attempts_bounded (T := T)).
Proof.
  unfold preserved, attempts_bounded. split_ands.
  - intros uuid now d prio q Hq k item. rewrite options_enqueue.
    unfold enqueue. destruct (_ >=? _); cbn [snd items with_items with_state];
      [apply Hq|].
    intros Hin. apply In_map_set in Hin as [Hin|Hin]; [eapply Hq; eauto|].
    inversion Hin; subst. cbn [processingAttempts]. lia.
  - intros q Hq k item. rewrite options_dequeue, items_dequeue. apply Hq.
  - intros i q Hq k item. rewrite options_complete. unfold complete.
    destruct (negb _); cbn [snd items with_state]; [apply Hq|].
    intros Hin. apply In_map_delete in Hin as [Hin _]. eapply Hq; eauto.
  - intros i q Hq k item. rewrite options_retry. unfold retry.
    destruct (negb _); cbn [snd]; [apply Hq|].
    destruct (map_get i (items q)) as [it|] eqn:Eg; cbn [snd]; [|apply Hq].
    destruct (processingAttempts it >=? r_retryLimit (options q)) eqn:El;
      cbn [snd items with_state]; intros Hin.
    + apply In_map_delete in Hin as [Hin _]. eapply Hq; eauto.
    + apply In_map_set in Hin as [Hin|Hin]; [eapply Hq; eauto|].
      inversion Hin; subst. rewrite bump_attempts.
      apply map_get_In in Eg. specialize (Hq _ _ Eg). lia.
  - intros q Hq k item [].
  - intros p q Hq. exact Hq.
Qed.

Lemma priorities_off_preserved : preserved (priorities_off (T := T)).
Proof.
  unfold preserved, priorities_off. split_ands.
  - intros uuid now d prio q Hq. rewrite options_enqueue. intros Hoff k item.
    unfold enqueue. destruct (_ >=? _); cbn [snd items with_items with_state];
      [now apply Hq|].
    intros Hin. apply In_map_set in Hin as [Hin|Hin]; [eapply Hq; eauto|].
    inversion Hin; subst. cbn [priority]. now rewrite Hoff.
  - intros q Hq. rewrite options_dequeue, items_dequeue. exact Hq.
  - intros i q Hq. rewrite options_complete. intros Hoff k item.
    unfold complete.
    destruct (negb _); cbn [snd items with_state]; [now apply Hq|].
    intros Hin. apply In_map_delete in Hin as [Hin _]. eapply Hq; eauto.
  - intros i q Hq. rewrite options_retry. intros Hoff k item. unfold retry.
    destruct (negb _); cbn [snd]; [now apply Hq|].
    destruct (map_get i (items q)) as [it|] eqn:Eg; cbn [snd]; [|now apply Hq].
    destruct (processingAttempts it >=? r_retryLimit (options q)) eqn:El;
      cbn [snd items with_state]; intros Hin.
    + apply In_map_delete in Hin as [Hin _]. eapply Hq; eauto.
    + apply In_map_set in Hin as [Hin|Hin]; [eapply Hq; eauto|].
      inversion Hin; subst. cbn [bump priority].
      apply map_get_In in Eg. eapply Hq; eauto.
  - intros q Hq _ k item [].
  - intros p q Hq. exact Hq.
Qed.

Lemma well_formed_preserved : preserved (well_formed (T := T)).
Proof.
  unfold preserved. split_ands; intros.
  - now apply well_formed_enqueue.
  - now apply well_formed_dequeue.
  - now apply well_formed_complete.
  - now apply well_formed_retry.
  - exact (well_formed_step q OpClear H).
  - exact H.
Qed.

Lemma distinct_keys_preserved : preserved (distinct_keys (T := T)).
Proof.
  unfold preserved. split_ands; intros.
  - exact (distinct_keys_step q (OpEnqueue uuid now d prio) H).
  - exact (distinct_keys_step q OpDequeue H).
  - exact (distinct_keys_step q (OpComplete i) H).
  - exact (distinct_keys_step q (OpRetry i) H).
  - exact (distinct_keys_step q OpClear H).
  - exact H.
Qed.

Lemma NoDup_set_add i (s : JsSet) : NoDup s -> NoDup (set_add i s).
Proof.
  intros H. unfold set_add. destruct (set_has i s) eqn:E; [exact H|].
  apply NoDup_app; [exact H | repeat constructor; intros [] |].
  intros x Hx [<-|[]]. apply set_has_In in Hx. congruence.
Qed.

Lemma inflight_distinct_preserved : preserved (inflight_distinct (T := T)).
Proof.
  unfold preserved, inflight_distinct. split_ands.
  - intros uuid now d prio q Hq. unfold enqueue.
    now destruct (_ >=? _).
  - intros q Hq. rewrite dequeue_spec.
    destruct (sort (selection q) (availableItems q)); [exact Hq|].
    cbn [snd processing with_processing with_state]. now apply NoDup_set_add.
  - intros i q Hq. unfold complete. destruct (negb _); [exact Hq|].
    cbn [snd processing with_state]. now apply NoDup_filter.
  - intros i q Hq. rewrite retry_by_path.
    destruct (retry_path i q); cbn [snd processing with_state];
      try exact Hq; now apply NoDup_filter.
  - intros q _. constructor.
  - intros p q Hq. exact Hq.
Qed.

(** In an attainable state the entries are stored under their own ids,
    the keys are distinct and the in-flight ids are keys. *)
Lemma attainable_well_formed (q : Queue T) :
  attainable q -> well_formed q /\ distinct_keys q.
Proof.
  intros H. split.
  - apply (preserved_attainable _ well_formed_preserved); [|exact H].
    apply well_formed_new.
  - apply (preserved_attainable _ distinct_keys_preserved); [|exact H].
    intros o. constructor.
Qed.
End StateFacts.

(** ** Capacity, attempts and the shape of attainable states *)

Section AttainableStates.
Context {T : Type}.
Implicit Types (q : Queue T) (it : QueueItem T).

(** X1. In every state that calls of [enqueue], [dequeue], [peek],
    [complete], [retry], [clear], the batch methods, [processNext] and
    [registerProcessor] reach from a new queue ([loadFromStorage] apart:
    it installs whatever the snapshot holds), the in-flight set holds no
    more ids than the mapping holds items, and the mapping holds no
    more items than [maxSize] (none when [maxSize] is negative). *)
Theorem size_within_capacity q :
  attainable q ->
  Z.of_nat (length (processing q)) <= size q /\
  size q <= Z.max 0 (r_maxSize (options q)).
Proof.
  intros H. split.
  - destruct (attainable_well_formed q H) as [[_ Hsub] _].
    assert (ND : inflight_distinct q).
    { apply (preserved_attainable _ inflight_distinct_preserved); [|exact H].
      intros o. constructor. }
    unfold size, map_size. apply inj_le.
    rewrite <- (length_map fst (items q)).
    apply NoDup_incl_length; [exact ND|].
    intros i Hi. apply set_has_In in Hi. apply Hsub in Hi.
    now apply map_has_keys in Hi.
  - apply (preserved_attainable _ within_capacity_preserved); [|exact H].
    intros o. unfold within_capacity. cbn. lia.
Qed.

(** X2. In every state reached in that way each entry of the mapping is
    stored under the id of its item, its attempt count lies between 0 and
    [retryLimit], so that no item is released for more retries than the
    limit, and its priority is 0 when priorities are disabled. *)
Theorem stored_items_shape q k it :
  attainable q ->
  In (k, it) (items q) ->
  id it = k /\
  0 <= processingAttempts it <= Z.max 0 (r_retryLimit (options q)) /\
  (r_priorityEnabled (options q) = false -> priority it = 0).
Proof.
  intros H Hin. split; [|split].
  - destruct (attainable_well_formed q H) as [[Hk _] _]. now apply Hk.
  - assert (Hb : attempts_bounded q).
    { apply (preserved_attainable _ attempts_bounded_preserved); [|exact H].
      intros o k0 it0 []. }
    eapply Hb; eauto.
  - intros Hoff.
    assert (Hp : priorities_off q).
    { apply (preserved_attainable _ priorities_off_preserved); [|exact H].
      intros o _ k0 it0 []. }
    eapply Hp; eauto.
Qed.

(** X3. On a queue that is exactly full, [enqueue] throws "Queue is
    full" and changes nothing; taking items with [dequeue] or
    [dequeueMany] frees no capacity, and [enqueue] succeeds again right
    after a [complete] that returned true. *)
Theorem capacity_freed_by_complete q uuid now (d : T) prio :
  distinct_keys q ->
  inflight_subset q ->
  size q = r_maxSize (options q) ->
  enqueue uuid now d prio q = (Throw "Queue is full", q) /\
  fst (enqueue uuid now d prio (snd (dequeue q))) = Throw "Queue is full" /\
  (forall count,
      fst (enqueue uuid now d prio (snd (dequeueMany count q)))
      = Throw "Queue is full") /\
  (forall i,
      fst (enqueue uuid now d prio (snd (complete i q)))
      = if fst (complete i q) then Return uuid else Throw "Queue is full").
Proof.
  intros ND Hsub Hfull. unfold size in Hfull.
  assert (Hthrow : forall q', items q' = items q -> options q' = options q ->
            enqueue uuid now d prio q' = (Throw "Queue is full", q')).
  { intros q' Ei Eo. unfold enqueue. rewrite Ei, Eo, Hfull.
    now rewrite (proj2 (Z.geb_le _ _) (Z.le_refl _)). }
  split_ands.
  - now apply Hthrow.
  - rewrite Hthrow; [reflexivity | apply items_dequeue | apply options_dequeue].
  - intros count. rewrite Hthrow; [reflexivity | |].
    + apply items_dequeueLoop.
    + apply options_dequeueLoop.
  - intros i. unfold complete.
    destruct (set_has i (processing q)) eqn:Ei; cbn [negb fst snd].
    + unfold enqueue. cbn [items options with_state].
      rewrite (map_delete_length i (items q) ND (Hsub i Ei)), Hfull.
      destruct (_ >=? _) eqn:E; [|reflexivity].
      apply Z.geb_le in E. lia.
    + now rewrite Hthrow.
Qed.
End AttainableStates.

(** ** Handing out items *)

Section Handout.
Context {T : Type}.
Implicit Types (q : Queue T) (it : QueueItem T).

Lemma In_firstn {A : Type} n (x : A) l : In x (firstn n l) -> In x l.
Proof.
  intros H. rewrite <- (firstn_skipn n l). apply in_or_app. now left.
Qed.

Lemma values_delete_keyed i (m : JsMap (QueueItem T)) :
  (forall k it, In (k, it) m -> id it = k) ->
  map_values (map_delete i m)
  = filter (fun it => negb (String.eqb (id it) i)) (map_values m).
Proof.
  induction m as [|[k it] m IH]; intros Hk; [reflexivity|].
  unfold map_delete, map_values in *. cbn [filter map fst snd].
  assert (E : id it = k) by (apply Hk; now left). subst k.
  rewrite (String.eqb_sym i (id it)).
  destruct (String.eqb (id it) i); cbn [negb map snd]; rewrite IH;
    try reflexivity; intros k' it' H'; apply Hk; now right.
Qed.

Lemma availableItems_delete q i :
  keyed q ->
  availableItems (with_state q (map_delete i (items q)) (processing q))
  = filter (fun it => negb (String.eqb (id it) i)) (availableItems q).
Proof.
  intros Hk. unfold availableItems. cbn [items processing with_state].
  rewrite values_delete_keyed by exact Hk. rewrite !filter_and.
  apply filter_ext. intros it. apply andb_comm.
Qed.

Lemma available_entry q it :
  keyed q -> distinct_keys q ->
  In it (availableItems q) ->
  set_has (id it) (processing q) = false /\
  map_get (id it) (items q) = Some it.
Proof.
  intros Hk ND Hin. unfold availableItems in Hin.
  apply filter_In in Hin as [Hin Hf]. apply negb_true_iff in Hf.
  split; [exact Hf|]. unfold map_values in Hin.
  apply in_map_iff in Hin as ([k it'] & E & Hin). cbn [snd] in E. subst it'.
  rewrite (Hk k it Hin). now apply In_map_get.
Qed.

Lemma dequeued_available q it :
  fst (dequeue q) = Some it -> In it (availableItems q).
Proof.
  rewrite dequeue_spec.
  destruct (sort (selection q) (availableItems q)) as [|x r] eqn:E;
    cbn [fst]; [discriminate|].
  intros [= ->]. eapply sort_head_In. exact E.
Qed.

Lemma dequeueLoop_processing n q i :
  set_has i (processing (snd (dequeueLoop n q)))
  = set_has i (processing q)
    || existsb (String.eqb i) (map id (fst (dequeueLoop n q))).
Proof.
  revert q. induction n as [|n IH]; intros q; cbn [dequeueLoop].
  - cbn. now rewrite orb_false_r.
  - rewrite dequeue_spec.
    destruct (sort (selection q) (availableItems q)) as [|x r].
    + cbn. now rewrite orb_false_r.
    + specialize (IH (with_processing q (set_add (id x) (processing q)))).
      destruct (dequeueLoop n _) as [out q2]. cbn [fst snd] in *.
      rewrite IH. cbn [processing with_processing with_state map existsb].
      rewrite set_has_add.
      destruct (set_has i (processing q)), (String.eqb i (id x)); reflexivity.
Qed.

(** X4. [peek] shows the very item that the next [dequeue] returns, and
    it is null exactly when every item of the mapping is in flight. *)
Theorem peek_shows_next_dequeue q :
  peek q = fst (dequeue q) /\
  (peek q = None <->
   forall k it, In (k, it) (items q) -> set_has (id it) (processing q) = true).
Proof.
  split; [apply peek_dequeue|]. rewrite peek_dequeue. apply dequeue_none_iff.
Qed.

(** X5. In a state with entries under their own ids and distinct keys,
    [dequeueMany(count)] returns the first [count] of the available
    items in the order of [dequeue], all of them when fewer are
    available and none for a count of 0 or less; the items it returns
    have pairwise distinct ids, were not in flight and are in flight
    afterwards, no other id is added to the in-flight set, and the
    mapping is unchanged. *)
Theorem dequeueMany_hands_out q (count : Z) :
  keyed q -> distinct_keys q ->
  let out := fst (dequeueMany count q) in
  let q' := snd (dequeueMany count q) in
  out = firstn (Z.to_nat count) (sort (selection q) (availableItems q)) /\
  length out = Nat.min (Z.to_nat count) (length (availableItems q)) /\
  (count <= 0 -> out = [] /\ q' = q) /\
  NoDup (map id out) /\
  items q' = items q /\
  (forall i, set_has i (processing q')
             = set_has i (processing q) || existsb (String.eqb i) (map id out)) /\
  (forall it, In it out ->
      set_has (id it) (processing q) = false /\
      set_has (id it) (processing q') = true /\
      map_get (id it) (items q) = Some it).
Proof.
  intros Hk ND out q'. unfold out, q', dequeueMany.
  pose proof (distinct_ids_of q Hk ND) as Hd.
  pose proof (dequeueLoop_sorted (Z.to_nat count) q Hd) as Hs. cbv zeta in Hs.
  pose proof (dequeueLoop_processing (Z.to_nat count) q) as Hp.
  destruct (dequeueLoop (Z.to_nat count) q) as [o q2] eqn:E.
  cbn [fst snd] in *. destruct Hs as (Ho & _ & Hi & _).
  assert (Hperm : Permutation (sort (selection q) (availableItems q))
                              (availableItems q)) by apply sort_perm.
  assert (Hin : forall it, In it o -> In it (availableItems q)).
  { intros it H. rewrite Ho in H. apply In_firstn in H.
    eapply Permutation_in; eauto. }
  split_ands.
  - exact Ho.
  - rewrite Ho, length_firstn. now rewrite (Permutation_length Hperm).
  - intros Hc. replace (Z.to_nat count) with O in E by lia.
    cbn in E. now inversion E.
  - rewrite Ho.
    assert (H : NoDup (map id (sort (selection q) (availableItems q)))).
    { eapply Permutation_NoDup; [|exact Hd].
      apply Permutation_map. now symmetry. }
    rewrite <- (firstn_skipn (Z.to_nat count)
                  (sort (selection q) (availableItems q))) in H.
    rewrite map_app in H. now apply NoDup_app_remove_r in H.
  - exact Hi.
  - exact Hp.
  - intros it H.
    destruct (available_entry q it Hk ND (Hin it H)) as [H1 H2].
    split_ands; [exact H1 | | exact H2].
    rewrite Hp. apply orb_true_iff. right. apply existsb_exists.
    exists (id it). split; [now apply in_map | apply String.eqb_refl].
Qed.

Lemma dequeue_complete_state q it :
  keyed q -> distinct_keys q ->
  fst (dequeue q) = Some it ->
  let q' := snd (complete (id it) (snd (dequeue q))) in
  fst (complete (id it) (snd (dequeue q))) = true /\
  q' = with_state q (map_delete (id it) (items q)) (processing q) /\
  size q' = size q - 1 /\
  map_get (id it) (items q') = None /\
  (forall k, k <> id it -> map_get k (items q') = map_get k (items q)) /\
  fst (dequeue q')
  = hd_error (tl (sort (selection q) (availableItems q))).
Proof.
  intros Hk ND Hdq q'.
  destruct (available_entry q it Hk ND (dequeued_available q it Hdq))
    as [Hnot Hget].
  pose proof (distinct_ids_of q Hk ND) as Hd.
  assert (Es : exists r, sort (selection q) (availableItems q) = it :: r).
  { revert Hdq. rewrite dequeue_spec.
    destruct (sort (selection q) (availableItems q)) as [|x r]; cbn [fst];
      [discriminate|]. intros [= ->]. now exists r. }
  destruct Es as [r Es].
  assert (E1 : snd (dequeue q)
               = with_processing q (set_add (id it) (processing q))).
  { rewrite dequeue_spec, Es. reflexivity. }
  assert (E2 : complete (id it) (snd (dequeue q))
               = (true, with_state q (map_delete (id it) (items q))
                                   (processing q))).
  { rewrite E1, complete_in_flight.
    - cbn [items processing options processors storageAdapter
               with_processing with_state].
      now rewrite set_delete_add.
    - cbn [processing with_processing with_state].
      now rewrite set_has_add, String.eqb_refl. }
  unfold q'. rewrite E2. cbn [fst snd]. split_ands; try reflexivity.
  - unfold size. cbn [items with_state]. apply map_delete_length; [exact ND|].
    eapply map_get_has; eauto.
  - cbn [items with_state]. apply map_get_delete_same.
  - intros k Hne. cbn [items with_state]. apply map_get_delete_other.
    congruence.
  - rewrite dequeue_spec.
    change (selection (with_state q (map_delete (id it) (items q))
                                  (processing q))) with (selection q).
    rewrite availableItems_delete by exact Hk.
    rewrite <- availableItems_add.
    rewrite (sort_after_dequeue q it r Hd Es), Es. cbn [tl].
    now destruct r.
Qed.

(** X6. In a state with entries under their own ids and distinct keys,
    [complete] on the id of the item that [dequeue] has just returned
    succeeds: the item leaves the mapping, the size drops by one, the
    in-flight set is as before the dequeue, every other entry is
    untouched, and the next [dequeue] returns the item that was second
    in line. *)
Theorem dequeue_then_complete q it :
  keyed q -> distinct_keys q ->
  fst (dequeue q) = Some it ->
  let q' := snd (complete (id it) (snd (dequeue q))) in
  fst (complete (id it) (snd (dequeue q))) = true /\
  q' = with_state q (map_delete (id it) (items q)) (processing q) /\
  size q' = size q - 1 /\
  map_get (id it) (items q') = None /\
  (forall k, k <> id it -> map_get k (items q') = map_get k (items q)) /\
  fst (dequeue q')
  = hd_error (tl (sort (selection q) (availableItems q))).
Proof. apply dequeue_complete_state. Qed.
End Handout.

(** ** Queues without priorities *)

Section Fifo.
Context {T : Type}.

Lemma enqueue_stored (c : EnqueueCall T) (q : Queue T) :
  map_has (c_uuid c) (items q) = false ->
  map_size (items q) < r_maxSize (options q) ->
  enqueue (c_uuid c) (c_now c) (c_data c) (c_priority c) q =
  (Return (c_uuid c), with_items q (items q ++ [(c_uuid c, stored q c)])).
Proof.
  intros Hf Hc. unfold enqueue.
  destruct (map_size (items q) >=? r_maxSize (options q)) eqn:E.
  { apply Z.geb_le in E. lia. }
  rewrite map_set_fresh by exact Hf. reflexivity.
Qed.

Lemma enqueueAll_stored (calls : list (EnqueueCall T)) (q : Queue T) :
  NoDup (map c_uuid calls) ->
  (forall c, In c calls -> map_has (c_uuid c) (items q) = false) ->
  map_size (items q) + Z.of_nat (length calls) <= r_maxSize (options q) ->
  enqueueAll calls q =
  with_items q (items q ++ map (fun c => (c_uuid c, stored q c)) calls).
Proof.
  revert q. induction calls as [|c calls IH]; intros q ND Hfresh Hcap.
  - cbn. rewrite app_nil_r. now destruct q.
  - change (enqueueAll (c :: calls) q) with
      (enqueueAll calls
         (snd (enqueue (c_uuid c) (c_now c) (c_data c) (c_priority c) q))).
    cbn [length] in Hcap. rewrite Nat2Z.inj_succ in Hcap.
    assert (Hpos : 0 <= Z.of_nat (length calls)) by lia.
    rewrite enqueue_stored; [|apply Hfresh; now left|lia].
    cbn [snd]. inversion ND as [|? ? Hc ND']; subst.
    rewrite IH; auto.
    + unfold with_items, with_state. cbn. rewrite <- app_assoc. reflexivity.
    + intros c' Hc'. cbn. unfold map_has.
      destruct (map_get (c_uuid c') (items q ++ [(c_uuid c, stored q c)]))
        eqn:Eg; [|reflexivity].
      exfalso. apply map_get_In in Eg. apply in_app_or in Eg as [Hin|Hin].
      * apply In_map_has in Hin. rewrite Hfresh in Hin; [discriminate|].
        now right.
      * destruct Hin as [Hin|[]]. injection Hin as Hu _.
        apply Hc. rewrite Hu. now apply in_map.
    + cbn. unfold map_size in *. rewrite length_app. cbn [length].
      rewrite Nat2Z.inj_add. change (Z.of_nat 1) with 1. lia.
Qed.

(** X7. On a queue built without [priorityEnabled: true], [enqueue]
    stores every item with priority 0 whatever priority the call
    gives, and the successive [dequeue] calls yield the enqueued items
    oldest first: in non-decreasing [addedAt], items of one millisecond
    in the order of the calls, and so in the order of the calls
    throughout when the clock does not run backwards. *)
Theorem fifo_without_priorities (o : QueueOptions) (calls : list (EnqueueCall T)) :
  or_bool (priorityEnabled o) false = false ->
  NoDup (map c_uuid calls) ->
  Z.of_nat (length calls) <= or_number (maxSize o) 1000 ->
  let q := enqueueAll calls (newQueue o) in
  let plain := map (fun c => mkItem (c_uuid c) (c_data c) (c_now c) 0 0) calls in
  let order := fst (dequeueMany (Z.of_nat (length calls)) q) in
  map_values (items q) = plain /\
  Permutation order plain /\
  StronglySorted (fun a b => addedAt a <= addedAt b) order /\
  (forall t, filter (fun it => addedAt it =? t) order
             = filter (fun it => addedAt it =? t) plain) /\
  (StronglySorted Z.le (map c_now calls) -> order = plain).
Proof.
  intros Hp ND Hcap q plain order.
  assert (Eq : q = with_items (newQueue o) (map (fun c => (c_uuid c, stored (newQueue o) c)) calls)).
  { unfold q. rewrite enqueueAll_stored; [reflexivity | exact ND | reflexivity|].
    cbn. lia. }
  assert (Ev : map_values (items q) = plain).
  { rewrite Eq. cbn [items with_items with_state]. unfold map_values, plain.
    rewrite map_map. apply map_ext. intros c. cbn [snd]. unfold stored.
    cbn [options newQueue r_priorityEnabled]. now rewrite Hp. }
  assert (Ea : availableItems q = plain).
  { unfold availableItems. rewrite Ev. apply filter_all. intros x _.
    rewrite Eq. reflexivity. }
  assert (Es : selection q = byAge).
  { rewrite Eq. unfold selection. cbn. now rewrite Hp. }
  assert (Hd : distinct_ids q).
  { unfold distinct_ids. rewrite Ea. unfold plain. rewrite map_map. exact ND. }
  assert (Htot := @byAge_total T). assert (Htr := @byAge_trans T).
  assert (Eo : order = sort byAge plain).
  { unfold order, dequeueMany. rewrite Nat2Z.id.
    pose proof (dequeueLoop_sorted (length calls) q Hd) as H. cbv zeta in H.
    rewrite Ea, Es in H. destruct (dequeueLoop (length calls) q) as [out q'].
    cbn [fst]. destruct H as [-> _]. apply firstn_all2.
    rewrite (Permutation_length (sort_perm _ _)). unfold plain.
    now rewrite length_map. }
  split_ands.
  - exact Ev.
  - rewrite Eo. apply sort_perm.
  - rewrite Eo. eapply StronglySorted_impl; [|apply sort_sorted; auto].
    intros a b. unfold before, byAge. lia.
  - intros t. rewrite Eo. rewrite <- sort_filter by auto.
    apply sort_sorted_id. apply StronglySorted_pairwise. intros a b Ha Hb.
    apply filter_In in Ha as [_ Ha]. apply filter_In in Hb as [_ Hb].
    rewrite Z.eqb_eq in *. unfold before, byAge. lia.
  - intros Hclock. rewrite Eo. apply sort_sorted_id.
    assert (Hs : StronglySorted (fun a b : QueueItem T => addedAt a <= addedAt b)
                   plain).
    { apply StronglySorted_map. unfold plain. rewrite map_map. exact Hclock. }
    eapply StronglySorted_impl; [|exact Hs].
    intros a b. unfold before, byAge. lia.
Qed.

Lemma availableItems_snoc (q : Queue T) (k : string) (x : QueueItem T) :
  availableItems (with_items q (items q ++ [(k, x)]))
  = availableItems q
    ++ (if set_has (id x) (processing q) then [] else [x]).
Proof.
  unfold availableItems. cbn [items processing with_items with_state].
  unfold map_values. rewrite map_app, filter_app. cbn [map snd filter].
  now destruct (set_has (id x) (processing q)).
Qed.

(** X8. An [enqueue] under a new id never reorders the items that are
    waiting: the order in which [dequeue] hands out items afterwards is
    the order before with the new item inserted at one place.  The
    in-flight set is unchanged. *)
Theorem enqueue_keeps_order (q : Queue T) uuid now (d : T) prio :
  keyed q -> inflight_subset q ->
  map_has uuid (items q) = false ->
  size q < r_maxSize (options q) ->
  let q' := snd (enqueue uuid now d prio q) in
  let item := stored q (mkCall uuid now d prio) in
  filter (fun it => negb (String.eqb (id it) uuid))
         (sort (selection q') (availableItems q'))
  = sort (selection q) (availableItems q) /\
  Permutation (sort (selection q') (availableItems q'))
              (item :: sort (selection q) (availableItems q)) /\
  map_get uuid (items q') = Some item /\
  processing q' = processing q.
Proof.
  intros Hk Hsub Hfresh Hcap q' item.
  assert (Eq : q' = with_items q (items q ++ [(uuid, item)])).
  { pose proof (enqueue_stored (mkCall uuid now d prio) q Hfresh Hcap) as E.
    cbn [c_uuid c_now c_data c_priority] in E. unfold q'. now rewrite E. }
  assert (Hnot : set_has uuid (processing q) = false).
  { destruct (set_has uuid (processing q)) eqn:E; [|reflexivity].
    apply Hsub in E. congruence. }
  assert (Ea : availableItems q' = availableItems q ++ [item]).
  { rewrite Eq, availableItems_snoc.
    change (id item) with uuid. now rewrite Hnot. }
  assert (Es : selection q' = selection q) by now rewrite Eq.
  assert (Htot := @selection_total T q). assert (Htr := @selection_trans T q).
  rewrite Es, Ea. split_ands.
  - rewrite <- sort_filter by assumption. f_equal.
    rewrite filter_app. cbn [filter]. change (id item) with uuid.
    rewrite String.eqb_refl. cbn [negb]. rewrite app_nil_r.
    apply filter_all. intros it Hin. apply negb_true_iff, String.eqb_neq.
    intros E. unfold availableItems in Hin. apply filter_In in Hin as [Hin _].
    unfold map_values in Hin. apply in_map_iff in Hin as ([k it'] & E' & Hin).
    cbn [snd] in E'. subst it'. pose proof (Hk k it Hin) as Hid.
    apply In_map_has in Hin. congruence.
  - etransitivity; [apply sort_perm|].
    etransitivity; [apply Permutation_app_comm|]. cbn [app].
    constructor. symmetry. apply sort_perm.
  - rewrite Eq. cbn [items with_items with_state].
    rewrite <- (map_set_fresh uuid item (items q) Hfresh).
    apply map_get_set_same.
  - now rewrite Eq.
Qed.
End Fifo.

(** ** Browsing *)

Section Browse.
Context {T : Type}.
Implicit Types (q : Queue T) (it : QueueItem T).

Lemma browseOrder_total q a b : browseOrder q a b <= 0 \/ browseOrder q b a <= 0.
Proof.
  unfold browseOrder, or_number.
  destruct (set_has (id a) (processing q)), (set_has (id b) (processing q)),
    (r_priorityEnabled (options q)); cbn;
    try destruct (priority a =? priority b) eqn:E1;
    try destruct (priority b =? priority a) eqn:E2;
    try destruct (priority a =? 0) eqn:E3;
    try destruct (priority b =? 0) eqn:E4; cbn;
    rewrite ?Z.eqb_eq, ?Z.eqb_neq in *; lia.
Qed.

Lemma browseOrder_trans q a b c :
  browseOrder q a b <= 0 -> browseOrder q b c <= 0 -> browseOrder q a c <= 0.
Proof.
  unfold browseOrder, or_number.
  destruct (set_has (id a) (processing q)), (set_has (id b) (processing q)),
    (set_has (id c) (processing q)), (r_priorityEnabled (options q)); cbn;
    try destruct (priority a =? priority b) eqn:E1;
    try destruct (priority b =? priority c) eqn:E2;
    try destruct (priority a =? priority c) eqn:E3;
    try destruct (priority a =? 0) eqn:E4;
    try destruct (priority b =? 0) eqn:E5;
    try destruct (priority c =? 0) eqn:E6; cbn;
    rewrite ?Z.eqb_eq, ?Z.eqb_neq in *; lia.
Qed.

(** Among items that are all in flight, or all not, [browse] orders as
    [dequeue] selects. *)
Lemma browseOrder_selection q a b :
  set_has (id a) (processing q) = set_has (id b) (processing q) ->
  browseOrder q a b = selection q a b.
Proof.
  intros E. unfold browseOrder, selection, byPriority, byAge, or_number.
  rewrite E.
  destruct (set_has (id b) (processing q)), (r_priorityEnabled (options q));
    cbn; try reflexivity;
    rewrite (Z.eqb_sym (priority b) (priority a));
    destruct (priority a =? priority b) eqn:E1; cbn; try reflexivity;
    destruct (priority a =? 0) eqn:E4; destruct (priority b =? 0) eqn:E5;
    rewrite ?Z.eqb_eq, ?Z.eqb_neq in *; lia.
Qed.

Lemma insert_ext_in {A : Type} (c1 c2 : A -> A -> Z) x (l : list A) :
  (forall b, In b l -> c1 x b = c2 x b) -> insert c1 x l = insert c2 x l.
Proof.
  induction l as [|y l IH]; intros H; [reflexivity|].
  cbn [insert]. rewrite (H y) by now left.
  destruct (c2 x y <=? 0); [reflexivity|]. f_equal. apply IH.
  intros b Hb. apply H. now right.
Qed.

Lemma sort_ext_in {A : Type} (c1 c2 : A -> A -> Z) (l : list A) :
  (forall a b, In a l -> In b l -> c1 a b = c2 a b) -> sort c1 l = sort c2 l.
Proof.
  induction l as [|x l IH]; intros H; [reflexivity|].
  cbn [sort]. rewrite IH by (intros a b Ha Hb; apply H; now right).
  apply insert_ext_in. intros b Hb. apply H; [now left|]. right.
  eapply Permutation_in; [apply sort_perm | exact Hb].
Qed.

Lemma filter_none {A : Type} (f : A -> bool) (l : list A) :
  (forall x, In x l -> f x = false) -> filter f l = [].
Proof.
  induction l as [|x l IH]; intros H; [reflexivity|].
  cbn [filter]. rewrite (H x) by now left. apply IH.
  intros y Hy. apply H. now right.
Qed.

(** A list in which a marked element is followed by marked elements
    only is its unmarked elements followed by its marked ones. *)
Lemma sorted_partition {A : Type} (f : A -> bool) (l : list A) :
  StronglySorted (fun a b => f a = true -> f b = true) l ->
  l = filter (fun x => negb (f x)) l ++ filter f l.
Proof.
  induction 1 as [|x l Hs IH Hx]; [reflexivity|].
  cbn [filter]. destruct (f x) eqn:Ex; cbn [negb app].
  - rewrite Forall_forall in Hx.
    rewrite (filter_none (fun x => negb (f x))), (filter_all f); auto.
    intros y Hy. now rewrite (Hx y Hy eq_refl).
  - now rewrite <- IH.
Qed.

Lemma browse_sorted_split q :
  sort (browseOrder q) (map_values (items q))
  = sort (selection q) (availableItems q)
    ++ sort (selection q) (inFlightItems q).
Proof.
  pose (f := fun it => set_has (id it) (processing q)).
  assert (Htot := browseOrder_total q). assert (Htr := browseOrder_trans q).
  rewrite (sorted_partition f (sort (browseOrder q) (map_values (items q)))).
  - rewrite <- !sort_filter by assumption. f_equal.
    + apply sort_ext_in. intros a b Ha Hb.
      apply filter_In in Ha as [_ Ha]. apply filter_In in Hb as [_ Hb].
      apply browseOrder_selection. unfold f in *.
      apply negb_true_iff in Ha, Hb. congruence.
    + apply sort_ext_in. intros a b Ha Hb.
      apply filter_In in Ha as [_ Ha]. apply filter_In in Hb as [_ Hb].
      apply browseOrder_selection. unfold f in *. congruence.
  - eapply StronglySorted_impl; [|apply sort_sorted; assumption].
    intros a b. unfold before, browseOrder, f. intros H Ha. rewrite Ha in H.
    destruct (set_has (id b) (processing q)); [reflexivity|].
    cbn in H. lia.
Qed.

(** X9. [browse(limit)] lists items of the mapping only: first the
    items that are not in flight, in exactly the order in which
    [dequeue] will hand them out, then the items in flight in that same
    order, cut to the first [limit] of them (10 by default; all but the
    last [-limit] for a negative limit).  So with a positive limit its
    first item is the item [peek] shows, if there is one. *)
Theorem browse_lists_in_dequeue_order q (limit : option Z) :
  let n := match limit with Some n => n | None => 10 end in
  let listing := sort (selection q) (availableItems q)
                 ++ sort (selection q) (inFlightItems q) in
  browse limit q = slice0 n listing /\
  Permutation listing (map_values (items q)) /\
  Z.of_nat (length (browse limit q))
  = (if n <? 0 then Z.max 0 (size q + n) else Z.min n (size q)) /\
  (forall it, In it (browse limit q) -> In it (map_values (items q))) /\
  (0 < n ->
   hd_error (browse limit q)
   = match peek q with
     | Some it => Some it
     | None => hd_error (sort (selection q) (inFlightItems q))
     end).
Proof.
  intros n listing.
  assert (E : browse limit q = slice0 n listing).
  { unfold browse. now rewrite browse_sorted_split. }
  assert (Hperm : Permutation listing (map_values (items q))).
  { unfold listing. rewrite <- browse_sorted_split. apply sort_perm. }
  assert (Hlen : length listing = length (items q)).
  { rewrite (Permutation_length Hperm). unfold map_values. apply length_map. }
  split_ands.
  - exact E.
  - exact Hperm.
  - rewrite E. unfold slice0, size, map_size. rewrite Hlen.
    destruct (n <? 0) eqn:En; rewrite length_firstn, Hlen.
    + apply Z.ltb_lt in En. lia.
    + apply Z.ltb_ge in En. lia.
  - intros it Hin. rewrite E in Hin. apply slice0_In in Hin.
    eapply Permutation_in; eauto.
  - intros Hn. rewrite E, peek_dequeue, dequeue_spec. unfold slice0, listing.
    destruct (n <? 0) eqn:En; [apply Z.ltb_lt in En; lia|].
    destruct (Z.to_nat n) as [|k] eqn:Ek; [lia|].
    destruct (sort (selection q) (availableItems q)) as [|x r]; cbn [app fst].
    + now destruct (sort (selection q) (inFlightItems q)).
    + reflexivity.
Qed.
End Browse.

(** ** Batches of completions and retries *)

Lemma filter_once (f : string -> bool) i (l : list string) :
  NoDup l -> In i l -> f i = true ->
  length (filter f l)
  = S (length (filter (fun j => negb (String.eqb i j) && f j) l)).
Proof.
  induction l as [|x l IH]; intros ND Hin Hf; [contradiction|].
  inversion ND as [|? ? Hx ND']; subst. cbn [filter].
  destruct (String.eqb i x) eqn:E.
  - apply String.eqb_eq in E. subst x. rewrite Hf. cbn [negb andb length].
    f_equal. f_equal. apply filter_ext_in. intros j Hj.
    destruct (String.eqb i j) eqn:Ej; [|reflexivity].
    apply String.eqb_eq in Ej. now subst j.
  - cbn [negb andb]. destruct Hin as [->|Hin];
      [now rewrite String.eqb_refl in E|].
    destruct (f x); cbn [length]; now rewrite IH.
Qed.

Section CountFacts.
Context {T : Type}.
Variable op : string -> Queue T -> bool * Queue T.
Variable g : Queue T -> string -> bool.
Variable Inv : Queue T -> Prop.
Hypothesis op_result : forall i q, Inv q -> fst (op i q) = g q i.
Hypothesis op_after :
  forall i j q, Inv q -> g (snd (op i q)) j = negb (String.eqb i j) && g q j.
Hypothesis op_inv : forall i q, Inv q -> Inv (snd (op i q)).

(** When a success on an id rules out a later success on it and touches
    no other id, the loop succeeds once for every distinct id on which
    the operation succeeds in the initial state. *)
Lemma countLoop_succeeded ids q :
  Inv q ->
  succeeded (fst (countLoop op ids (mkCounts 0 0) q))
  = Z.of_nat (length (filter (g q) (nodup string_dec ids))).
Proof.
  revert q. induction ids as [|i ids IH]; intros q Hq; [reflexivity|].
  rewrite countLoop_cons.
  pose proof (op_result i q Hq) as Hr.
  pose proof (fun j => op_after i j q Hq) as Ha.
  pose proof (op_inv i q Hq) as Hi.
  destruct (op i q) as [ok q1]. cbn [fst snd] in *.
  specialize (IH q1 Hi).
  destruct (countLoop op ids (mkCounts 0 0) q1) as [c q2]. cbn [fst] in *.
  assert (Eg : filter (g q1) (nodup string_dec ids)
               = filter (fun j => negb (String.eqb i j) && g q j)
                        (nodup string_dec ids)).
  { apply filter_ext. intros j. apply Ha. }
  rewrite Eg in IH. subst ok. cbn [nodup].
  destruct (in_dec string_dec i ids) as [Hin|Hnin].
  - destruct (g q i) eqn:Egi; cbn [tally succeeded].
    + rewrite (filter_once (g q) i); [|apply NoDup_nodup|now apply nodup_In|auto].
      rewrite IH. lia.
    + rewrite IH. f_equal. f_equal. apply filter_ext. intros j.
      destruct (String.eqb i j) eqn:Ej; [|reflexivity].
      apply String.eqb_eq in Ej. subst j. now rewrite Egi.
  - assert (Es : filter (fun j => negb (String.eqb i j) && g q j)
                   (nodup string_dec ids)
                 = filter (g q) (nodup string_dec ids)).
    { apply filter_ext_in. intros j Hj. apply nodup_In in Hj.
      destruct (String.eqb i j) eqn:Ej; [|reflexivity].
      apply String.eqb_eq in Ej. now subst j. }
    rewrite Es in IH. cbn [filter].
    destruct (g q i); cbn [tally succeeded length]; rewrite IH; lia.
Qed.
End CountFacts.

Section Batches.
Context {T : Type}.
Implicit Types (q : Queue T) (it : QueueItem T).

Lemma complete_effect i q :
  fst (complete i q) = set_has i (processing q) /\
  (forall j, set_has j (processing (snd (complete i q)))
             = negb (String.eqb i j) && set_has j (processing q)) /\
  (forall k, map_get k (items (snd (complete i q)))
             = if set_has i (processing q) && String.eqb i k then None
               else map_get k (items q)).
Proof.
  unfold complete. destruct (set_has i (processing q)) eqn:E;
    cbn [negb fst snd items processing with_state andb]; split_ands;
    try reflexivity.
  - intros j. apply set_has_delete.
  - intros k. destruct (String.eqb i k) eqn:Ek.
    + apply String.eqb_eq in Ek. subst k. apply map_get_delete_same.
    + apply map_get_delete_other. now apply String.eqb_neq.
  - intros j. destruct (String.eqb i j) eqn:Ej; [|reflexivity].
    apply String.eqb_eq in Ej. subst j. now rewrite E.
Qed.

Lemma retry_effect i q :
  inflight_subset q ->
  fst (retry i q) = set_has i (processing q) && retriable q i /\
  (forall j, set_has j (processing (snd (retry i q)))
             = negb (String.eqb i j) && set_has j (processing q)) /\
  (forall k, map_get k (items (snd (retry i q)))
             = if set_has i (processing q) && String.eqb i k
               then match map_get k (items q) with
                    | Some it =>
                        if processingAttempts it >=? r_retryLimit (options q)
                        then None else Some (bump it)
                    | None => None
                    end
               else map_get k (items q)).
Proof.
  intros Hsub. unfold retry, retriable.
  destruct (set_has i (processing q)) eqn:E; cbn [negb andb].
  - destruct (map_has_get i (items q) (Hsub i E)) as [it Hit]. rewrite Hit.
    assert (Hlt : (processingAttempts it <? r_retryLimit (options q))
                  = negb (processingAttempts it >=? r_retryLimit (options q))).
    { rewrite Z.geb_leb, Z.ltb_antisym. reflexivity. }
    rewrite Hlt.
    destruct (processingAttempts it >=? r_retryLimit (options q)) eqn:El;
      cbn [negb fst snd items processing with_state]; split_ands;
      try reflexivity; try (intros j; apply set_has_delete); intros k;
      (destruct (String.eqb i k) eqn:Ek;
       [apply String.eqb_eq in Ek; subst k; rewrite Hit, El
       |apply String.eqb_neq in Ek]).
    + apply map_get_delete_same.
    + now apply map_get_delete_other.
    + apply map_get_set_same.
    + now apply map_get_set_other.
  - cbn [fst snd]. split_ands; try reflexivity.
    intros j. destruct (String.eqb i j) eqn:Ej; [|reflexivity].
    apply String.eqb_eq in Ej. subst j. now rewrite E.
Qed.

Lemma inflight_subset_retry i q :
  inflight_subset q -> inflight_subset (snd (retry i q)).
Proof.
  intros Hsub j. destruct (retry_effect i q Hsub) as (_ & Hp & Hm).
  rewrite Hp. intros H. apply andb_true_iff in H as [Hne Hj].
  apply negb_true_iff in Hne. unfold map_has. rewrite Hm, Hne, andb_false_r.
  specialize (Hsub j Hj). unfold map_has in Hsub. exact Hsub.
Qed.

Lemma countLoop_after (op : string -> Queue T -> bool * Queue T)
    (Inv : Queue T -> Prop)
    (upd : Queue T -> string -> option (QueueItem T)) ids c q :
  (forall i q0, Inv q0 -> Inv (snd (op i q0))) ->
  (forall i j q0, Inv q0 ->
      set_has j (processing (snd (op i q0)))
      = negb (String.eqb i j) && set_has j (processing q0)) ->
  (forall i k q0, Inv q0 ->
      map_get k (items (snd (op i q0)))
      = if set_has i (processing q0) && String.eqb i k then upd q0 k
        else map_get k (items q0)) ->
  (forall i k q0, Inv q0 -> String.eqb i k = false ->
      upd (snd (op i q0)) k = upd q0 k) ->
  Inv q ->
  let q' := snd (countLoop op ids c q) in
  (forall j, set_has j (processing q')
             = set_has j (processing q) && negb (existsb (String.eqb j) ids)) /\
  (forall k, map_get k (items q')
             = if set_has k (processing q) && existsb (String.eqb k) ids
               then upd q k else map_get k (items q)) /\
  Inv q'.
Proof.
  intros Hinv Hp Hm Hu. revert c q.
  induction ids as [|i ids IH]; intros c q Hq; cbn [countLoop existsb].
  - cbn [snd]. split_ands; [| |exact Hq].
    + intros j. now rewrite andb_true_r.
    + intros k. now rewrite andb_false_r.
  - pose proof (Hinv i q Hq) as H1. pose proof (fun j => Hp i j q Hq) as H2.
    pose proof (fun k => Hm i k q Hq) as H3.
    pose proof (fun k => Hu i k q Hq) as H4.
    destruct (op i q) as [ok q1]. cbn [snd] in *.
    destruct (IH (tally ok c) q1 H1) as (I1 & I2 & I3).
    split_ands; [| |exact I3].
    + intros j. rewrite I1, H2, (String.eqb_sym j i).
      destruct (String.eqb i j), (set_has j (processing q)),
        (existsb (String.eqb j) ids); reflexivity.
    + intros k. rewrite I2, H2, H3, (String.eqb_sym k i).
      destruct (String.eqb i k) eqn:Ek.
      * apply String.eqb_eq in Ek. subst k. cbn [negb andb orb].
        now rewrite andb_true_r.
      * cbn [negb andb orb]. rewrite andb_false_r, (H4 k Ek).
        reflexivity.
Qed.

(** X10. [completeMany(ids)] succeeds once for every distinct id of the
    list that is in flight, and fails for every other entry of the list,
    a repeated id included.  Afterwards no listed id is in flight, the
    items of the listed in-flight ids are gone from the mapping, and
    every other entry and in-flight id is untouched. *)
Theorem completeMany_effect q (ids : list string) :
  let c := fst (completeMany ids q) in
  let q' := snd (completeMany ids q) in
  succeeded c
  = Z.of_nat (length (filter (fun i => set_has i (processing q))
                             (nodup string_dec ids))) /\
  succeeded c + failed c = Z.of_nat (length ids) /\
  (forall j, set_has j (processing q')
             = set_has j (processing q) && negb (existsb (String.eqb j) ids)) /\
  (forall k, map_get k (items q')
             = if set_has k (processing q) && existsb (String.eqb k) ids
               then None else map_get k (items q)).
Proof.
  intros c q'. unfold c, q', completeMany. split_ands.
  - apply (countLoop_succeeded complete (fun q i => set_has i (processing q))
             (fun _ => True)); auto.
    + intros i q0 _. apply complete_effect.
    + intros i j q0 _. apply complete_effect.
  - apply countLoop_total.
  - apply (countLoop_after complete (fun _ => True) (fun _ _ => None));
      auto; intros; apply complete_effect.
  - apply (countLoop_after complete (fun _ => True) (fun _ _ => None));
      auto; intros; apply complete_effect.
Qed.

(** X11. In a state whose in-flight ids are keys of the mapping,
    [retryMany(ids)] succeeds once for every distinct id of the list
    that is in flight with attempts below [retryLimit], and fails for
    every other entry of the list.  Afterwards no listed id is in
    flight; the item of a listed in-flight id has one more attempt,
    however often the id is listed, or is gone from the mapping if its
    attempts had reached the limit; every other entry is untouched. *)
Theorem retryMany_effect q (ids : list string) :
  inflight_subset q ->
  let c := fst (retryMany ids q) in
  let q' := snd (retryMany ids q) in
  succeeded c
  = Z.of_nat (length (filter (fun i => set_has i (processing q) && retriable q i)
                             (nodup string_dec ids))) /\
  succeeded c + failed c = Z.of_nat (length ids) /\
  (forall j, set_has j (processing q')
             = set_has j (processing q) && negb (existsb (String.eqb j) ids)) /\
  (forall k, map_get k (items q')
             = if set_has k (processing q) && existsb (String.eqb k) ids
               then match map_get k (items q) with
                    | Some it =>
                        if processingAttempts it >=? r_retryLimit (options q)
                        then None else Some (bump it)
                    | None => None
                    end
               else map_get k (items q)).
Proof.
  intros Hsub c q'. unfold c, q', retryMany.
  pose (upd := fun (q0 : Queue T) (k : string) =>
                 match map_get k (items q0) with
                 | Some it =>
                     if processingAttempts it >=? r_retryLimit (options q0)
                     then None else Some (bump it)
                 | None => None
                 end).
  assert (Hupd : forall i k q0, inflight_subset q0 -> String.eqb i k = false ->
                   upd (snd (retry i q0)) k = upd q0 k).
  { intros i k q0 H0 Ek. unfold upd. rewrite options_retry.
    destruct (retry_effect i q0 H0) as (_ & _ & Hm).
    now rewrite Hm, Ek, andb_false_r. }
  split_ands.
  - apply (countLoop_succeeded retry
             (fun q i => set_has i (processing q) && retriable q i)
             inflight_subset); auto.
    + intros i q0 H0. apply retry_effect, H0.
    + intros i j q0 H0. destruct (retry_effect i q0 H0) as (_ & Hp & Hm).
      rewrite Hp. unfold retriable. rewrite options_retry, Hm.
      destruct (String.eqb i j) eqn:Ej; cbn [negb andb]; [reflexivity|].
      now rewrite andb_false_r.
    + intros i q0. apply inflight_subset_retry.
  - apply countLoop_total.
  - apply (countLoop_after retry inflight_subset upd); auto.
    + intros i q0. apply inflight_subset_retry.
    + intros i j q0 H0. now apply retry_effect.
    + intros i k q0 H0. now apply retry_effect.
  - apply (countLoop_after retry inflight_subset upd); auto.
    + intros i q0. apply inflight_subset_retry.
    + intros i j q0 H0. now apply retry_effect.
    + intros i k q0 H0. now apply retry_effect.
Qed.
End Batches.

(** ** The processing loop *)

Section Processing.
Context {T : Type}.
Implicit Types (q : Queue T) (it : QueueItem T).

Lemma dequeue_head q it :
  fst (dequeue q) = Some it ->
  exists r, sort (selection q) (availableItems q) = it :: r /\
            snd (dequeue q) = with_processing q (set_add (id it) (processing q)).
Proof.
  rewrite dequeue_spec.
  destruct (sort (selection q) (availableItems q)) as [|x r]; cbn [fst snd];
    [discriminate|].
  intros [= ->]. now exists r.
Qed.

Lemma dequeue_retry_state q it :
  keyed q -> distinct_keys q ->
  fst (dequeue q) = Some it ->
  retry (id it) (snd (dequeue q))
  = if processingAttempts it >=? r_retryLimit (options q)
    then (false, with_state q (map_delete (id it) (items q)) (processing q))
    else (true, with_state q (map_set (id it) (bump it) (items q))
                           (processing q)).
Proof.
  intros Hk ND Hdq.
  destruct (available_entry q it Hk ND (dequeued_available q it Hdq))
    as [Hnot Hget].
  destruct (dequeue_head q it Hdq) as (r & _ & ->).
  unfold retry.
  cbn [items processing options processors storageAdapter
         with_processing with_state].
  rewrite set_has_add, String.eqb_refl, Hget. cbn [orb negb].
  rewrite set_delete_add by exact Hnot.
  now destruct (processingAttempts it >=? r_retryLimit (options q)).
Qed.

Lemma runProcessors_never (ps : list (QueueProcessor T)) item k :
  never_succeeds ps -> fst (runProcessors ps item k) <> FirstSuccess.
Proof.
  revert k. induction ps as [|p ps IH]; intros k Hn; cbn [runProcessors];
    [discriminate|].
  destruct (p item) as [[|]|err] eqn:E; cbn [fst]; try discriminate.
  - exfalso. apply (Hn p item); [now left | exact E].
  - specialize (IH (S k)). destruct (runProcessors ps item (S k)) as [e tr].
    cbn [fst] in *. apply IH. intros p' item' Hin. apply Hn. now right.
Qed.

Lemma processNext_empty q :
  fst (dequeue q) = None -> processNext q = (false, q, []).
Proof.
  intros H. unfold processNext. destruct (dequeue q) as [[it|] q1];
    cbn [fst] in H; [discriminate | reflexivity].
Qed.

Lemma processNext_result q it :
  fst (dequeue q) = Some it ->
  let e := fst (runProcessors (processors q) it 0) in
  fst (fst (processNext q))
  = match e with FirstSuccess => true | _ => false end /\
  snd (fst (processNext q))
  = match e with
    | FirstSuccess => snd (complete (id it) (snd (dequeue q)))
    | _ => snd (retry (id it) (snd (dequeue q)))
    end.
Proof.
  intros H e. unfold e, processNext.
  destruct (dequeue_head q it H) as (r & _ & E). rewrite dequeue_spec in *.
  destruct (sort (selection q) (availableItems q)) as [|x r']; cbn [fst snd] in *;
    [discriminate|]. injection H as ->.
  cbn [processors with_processing with_state].
  destruct (runProcessors (processors q) it 0) as [[| |err] tr];
    cbn [fst snd]; split; reflexivity.
Qed.

(** X12. In a state with entries under their own ids and distinct
    keys, [processNext] never leaves the item it took in flight,
    whether a processor succeeded, all returned false or one threw: the
    in-flight set is afterwards what it was before the call.  It
    returns false and changes nothing when [peek] shows no item;
    otherwise the item that [peek] shows is removed from the mapping on
    success, and on failure is removed if its attempts had reached
    [retryLimit] and has one more attempt if not. *)
Theorem processNext_settles q :
  keyed q -> distinct_keys q ->
  let ok := fst (fst (processNext q)) in
  let q' := snd (fst (processNext q)) in
  processing q' = processing q /\
  options q' = options q /\
  processors q' = processors q /\
  match peek q with
  | None => ok = false /\ q' = q /\ snd (processNext q) = []
  | Some it =>
      items q'
      = if ok || (processingAttempts it >=? r_retryLimit (options q))
        then map_delete (id it) (items q)
        else map_set (id it) (bump it) (items q)
  end.
Proof.
  intros Hk ND ok q'. unfold ok, q'. rewrite peek_dequeue.
  destruct (fst (dequeue q)) as [it|] eqn:Hdq.
  - destruct (processNext_result q it Hdq) as [E1 E2]. cbv zeta in E1, E2.
    rewrite E1, E2.
    pose proof (dequeue_complete_state q it Hk ND Hdq) as (_ & Ec & _).
    cbv zeta in Ec.
    pose proof (dequeue_retry_state q it Hk ND Hdq) as Er.
    destruct (fst (runProcessors (processors q) it 0)) as [| |err];
      rewrite ?Ec, ?Er; cbn [orb];
      destruct (processingAttempts it >=? r_retryLimit (options q));
      cbn [snd]; split_ands; reflexivity.
  - rewrite (processNext_empty q Hdq). cbn [fst snd]. split_ands; reflexivity.
Qed.

Lemma sort_after_complete q x r :
  keyed q -> distinct_keys q ->
  sort (selection q) (availableItems q) = x :: r ->
  sort (selection q)
       (availableItems (with_state q (map_delete (id x) (items q))
                                   (processing q))) = r.
Proof.
  intros Hk ND E. rewrite availableItems_delete by exact Hk.
  rewrite <- availableItems_add.
  apply sort_after_dequeue; [now apply distinct_ids_of | exact E].
Qed.

Lemma processRounds_step n q :
  processRounds (S n) q
  = (fst (fst (processNext q))
       :: fst (processRounds n (snd (fst (processNext q)))),
     snd (processRounds n (snd (fst (processNext q))))).
Proof.
  cbn [processRounds]. destruct (processNext q) as [[ok q1] tr].
  cbn [fst snd]. now destruct (processRounds n q1).
Qed.

Lemma processRounds_app n m q :
  processRounds (n + m) q
  = (fst (processRounds n q) ++ fst (processRounds m (snd (processRounds n q))),
     snd (processRounds m (snd (processRounds n q)))).
Proof.
  revert q. induction n as [|n IH]; intros q.
  - cbn. now destruct (processRounds m q).
  - change (S n + m)%nat with (S (n + m)). rewrite !processRounds_step, IH.
    reflexivity.
Qed.

(** X13. On a queue whose first registered processor always succeeds,
    successive calls of [processNext] work off the available items in
    the order of [dequeue]: the first calls, one per available item,
    return true and remove these items from the mapping, every later
    call returns false and changes nothing, and the in-flight set is
    never changed. *)
Theorem processRounds_drain q p ps (n : nat) :
  keyed q -> distinct_keys q ->
  processors q = p :: ps ->
  (forall item, p item = Fulfilled true) ->
  let s := sort (selection q) (availableItems q) in
  let m := Nat.min n (length s) in
  let q' := snd (processRounds n q) in
  fst (processRounds n q) = repeat true m ++ repeat false (n - m) /\
  processing q' = processing q /\
  sort (selection q') (availableItems q') = skipn n s /\
  size q' = size q - Z.of_nat m /\
  (forall k, map_get k (items q')
             = if existsb (String.eqb k) (map id (firstn n s)) then None
               else map_get k (items q)).
Proof.
  intros Hk ND Hps Hp. revert q Hk ND Hps.
  induction n as [|n IH]; intros q Hk ND Hps; cbv zeta.
  - cbn. split_ands; try reflexivity. lia.
  - rewrite processRounds_step. cbn [fst snd].
    destruct (sort (selection q) (availableItems q)) as [|x r] eqn:Es.
    + assert (Hdq : fst (dequeue q) = None) by now rewrite dequeue_spec, Es.
      rewrite (processNext_empty q Hdq). cbn [fst snd].
      specialize (IH q Hk ND Hps). cbv zeta in IH. rewrite Es in IH.
      destruct IH as (I1 & I2 & I3 & I4 & I5).
      rewrite I1. cbn [length firstn map existsb] in *.
      rewrite Nat.min_0_r in *. rewrite Nat.sub_0_r in *.
      rewrite skipn_nil in I3. rewrite firstn_nil in I5.
      split_ands; auto.
    + assert (Hdq : fst (dequeue q) = Some x) by now rewrite dequeue_spec, Es.
      destruct (processNext_result q x Hdq) as [E1 E2]. cbv zeta in E1, E2.
      rewrite Hps in E1, E2. cbn [runProcessors] in E1, E2.
      rewrite Hp in E1, E2. cbn [fst] in E1, E2.
      pose proof (dequeue_complete_state q x Hk ND Hdq)
        as (_ & Ec & Hsz & _ & _ & _).
      cbv zeta in Ec, Hsz. rewrite Ec in E2, Hsz. rewrite E1, E2.
      set (q2 := with_state q (map_delete (id x) (items q)) (processing q))
        in *.
      assert (Hk2 : keyed q2).
      { intros k it Hin. apply In_map_delete in Hin as [Hin _].
        now apply Hk. }
      assert (ND2 : distinct_keys q2).
      { unfold distinct_keys, q2. cbn [items with_state].
        rewrite map_keys_delete. now apply NoDup_filter. }
      specialize (IH q2 Hk2 ND2 Hps). cbv zeta in IH.
      change (selection q2) with (selection q) in IH.
      assert (Es2 : sort (selection q) (availableItems q2) = r)
        by exact (sort_after_complete q x r Hk ND Es).
      rewrite Es2 in IH.
      destruct IH as (I1 & I2 & I3 & I4 & I5).
      cbn [length firstn map existsb]. rewrite <- Nat.succ_min_distr.
      cbn [Nat.sub repeat app skipn].
      split_ands.
      * now rewrite I1.
      * exact I2.
      * exact I3.
      * rewrite I4, Hsz. lia.
      * intros k. rewrite I5. unfold q2. cbn [items with_state].
        destruct (String.eqb k (id x)) eqn:Ek; cbn [orb].
        -- apply String.eqb_eq in Ek. subst k.
           rewrite map_get_delete_same. now destruct (existsb _ _).
        -- rewrite map_get_delete_other; [reflexivity|].
           apply String.eqb_neq in Ek. congruence.
Qed.

Lemma fail_rounds (n : nat) q it :
  well_formed q -> distinct_keys q ->
  never_succeeds (processors q) ->
  fst (dequeue q) = Some it ->
  processingAttempts it + Z.of_nat n <= r_retryLimit (options q) ->
  let q' := snd (processRounds n q) in
  fst (processRounds n q) = repeat false n /\
  well_formed q' /\ distinct_keys q' /\
  options q' = options q /\ processors q' = processors q /\
  processing q' = processing q /\ size q' = size q /\
  (forall k, k <> id it -> map_get k (items q') = map_get k (items q)) /\
  exists it', fst (dequeue q') = Some it' /\ id it' = id it /\
              data it' = data it /\
              processingAttempts it' = processingAttempts it + Z.of_nat n.
Proof.
  revert q it. induction n as [|n IH]; intros q it Hwf ND Hn Hdq Hle; cbv zeta.
  - cbn [processRounds fst snd repeat]. split_ands; auto.
    exists it. split_ands; auto. cbn. lia.
  - rewrite processRounds_step. cbn [fst snd].
    rewrite Nat2Z.inj_succ in Hle.
    assert (Hlt : processingAttempts it < r_retryLimit (options q)) by lia.
    destruct (retry_round q it Hwf ND Hdq Hlt) as (Er & Hwf1 & ND1 & Hdq1).
    cbv zeta in Er, Hwf1, ND1, Hdq1.
    set (q1 := with_state q (map_set (id it) (bump it) (items q))
                          (processing q)) in *.
    destruct (processNext_result q it Hdq) as [E1 E2]. cbv zeta in E1, E2.
    pose proof (runProcessors_never (processors q) it 0 Hn) as Hne.
    assert (E1' : fst (fst (processNext q)) = false).
    { rewrite E1. now destruct (fst (runProcessors (processors q) it 0)). }
    assert (E2' : snd (fst (processNext q)) = q1).
    { rewrite E2, Er.
      now destruct (fst (runProcessors (processors q) it 0)). }
    rewrite E1', E2'.
    assert (Hle1 : processingAttempts (bump it) + Z.of_nat n
                   <= r_retryLimit (options q1)).
    { rewrite bump_attempts. cbn [options q1 with_state]. lia. }
    destruct (IH q1 (bump it) Hwf1 ND1 Hn Hdq1 Hle1)
      as (I1 & I2 & I3 & I4 & I5 & I6 & I7 & I8 & it' & J1 & J2 & J3 & J4).
    destruct Hwf as [Hk Hsub].
    destruct (available_entry q it Hk ND (dequeued_available q it Hdq))
      as [_ Hget].
    split_ands; auto.
    + now rewrite I1.
    + rewrite I7. unfold size, q1. cbn [items with_state].
      now rewrite map_size_set, (map_get_has _ _ _ Hget).
    + intros k Hk'. rewrite I8 by exact Hk'. unfold q1. cbn [items with_state].
      apply map_get_set_other. congruence.
    + exists it'. split_ands; auto. rewrite J4, bump_attempts. lia.
Qed.

(** X14. When no registered processor ever reports a success (each
    returns false or throws), [processNext] keeps selecting the item at
    the head of the queue: it returns false each time, the item has one
    more attempt after each call, and the call made once its attempts
    have reached [retryLimit] removes it from the mapping, again
    returning false.  An item with no attempts so far is thus dropped
    by the call number [retryLimit + 1]; the other entries and the
    in-flight set are untouched. *)
Theorem failing_item_dropped q it :
  well_formed q -> distinct_keys q ->
  never_succeeds (processors q) ->
  fst (dequeue q) = Some it ->
  processingAttempts it <= r_retryLimit (options q) ->
  let n := Z.to_nat (r_retryLimit (options q) - processingAttempts it) in
  let q' := snd (processRounds (S n) q) in
  fst (processRounds (S n) q) = repeat false (S n) /\
  (forall k, (k <= n)%nat ->
     exists it', fst (dequeue (snd (processRounds k q))) = Some it' /\
                 id it' = id it /\ data it' = data it /\
                 processingAttempts it' = processingAttempts it + Z.of_nat k) /\
  map_get (id it) (items q') = None /\
  size q' = size q - 1 /\
  processing q' = processing q /\
  (forall k, k <> id it -> map_get k (items q') = map_get k (items q)).
Proof.
  intros Hwf ND Hn Hdq Hle n q'.
  assert (Hrounds : forall k, (k <= n)%nat ->
            processingAttempts it + Z.of_nat k <= r_retryLimit (options q))
    by (intros k Hk; unfold n in Hk; lia).
  destruct (fail_rounds n q it Hwf ND Hn Hdq (Hrounds n (Nat.le_refl n)))
    as (I1 & I2 & I3 & I4 & I5 & I6 & I7 & I8 & it' & J1 & J2 & J3 & J4).
  cbv zeta in *. set (qn := snd (processRounds n q)) in *.
  assert (Hlast : (processingAttempts it' >=? r_retryLimit (options qn)) = true).
  { rewrite I4. apply Z.geb_le. unfold n in J4. lia. }
  destruct (processNext_result qn it' J1) as [E1 E2]. cbv zeta in E1, E2.
  assert (Hn' : never_succeeds (processors qn)) by now rewrite I5.
  pose proof (runProcessors_never (processors qn) it' 0 Hn') as Hne.
  destruct I2 as [Hk Hsub].
  pose proof (dequeue_retry_state qn it' Hk I3 J1) as Er. rewrite Hlast in Er.
  assert (E1' : fst (fst (processNext qn)) = false).
  { rewrite E1. now destruct (fst (runProcessors (processors qn) it' 0)). }
  assert (E2' : snd (fst (processNext qn))
                = with_state qn (map_delete (id it') (items qn)) (processing qn)).
  { rewrite E2, Er.
    now destruct (fst (runProcessors (processors qn) it' 0)). }
  assert (Eq' : processRounds (S n) q
                = (repeat false n ++ [false],
                   with_state qn (map_delete (id it') (items qn))
                              (processing qn))).
  { replace (S n) with (n + 1)%nat by lia.
    rewrite processRounds_app, I1. fold qn.
    rewrite processRounds_step, E1', E2'. reflexivity. }
  destruct (available_entry qn it' Hk I3 (dequeued_available qn it' J1))
    as [_ Hget].
  unfold q'. rewrite Eq'. cbn [fst snd items processing with_state].
  split_ands.
  - now rewrite <- repeat_cons.
  - intros k Hk'.
    destruct (fail_rounds k q it Hwf ND Hn Hdq (Hrounds k Hk'))
      as (_ & _ & _ & _ & _ & _ & _ & _ & it0 & K1 & K2 & K3 & K4).
    exists it0. auto.
  - rewrite <- J2. apply map_get_delete_same.
  - unfold size in *. cbn [items with_state].
    rewrite (map_delete_length (id it') (items qn) I3 (map_get_has _ _ _ Hget)).
    lia.
  - exact I6.
  - intros k Hk'. rewrite map_get_delete_other by congruence. now apply I8.
Qed.

Lemma succeed_round q p ps x r :
  keyed q -> distinct_keys q ->
  processors q = p :: ps ->
  (forall item, p item = Fulfilled true) ->
  sort (selection q) (availableItems q) = x :: r ->
  let q2 := with_state q (map_delete (id x) (items q)) (processing q) in
  fst (fst (processNext q)) = true /\
  snd (fst (processNext q)) = q2 /\
  keyed q2 /\ distinct_keys q2 /\
  sort (selection q2) (availableItems q2) = r /\
  size q2 = size q - 1.
Proof.
  intros Hk ND Hps Hp Es q2.
  assert (Hdq : fst (dequeue q) = Some x) by now rewrite dequeue_spec, Es.
  destruct (processNext_result q x Hdq) as [E1 E2]. cbv zeta in E1, E2.
  rewrite Hps in E1, E2. cbn [runProcessors] in E1, E2.
  rewrite Hp in E1, E2. cbn [fst] in E1, E2.
  pose proof (dequeue_complete_state q x Hk ND Hdq)
    as (_ & Ec & Hsz & _ & _ & _).
  cbv zeta in Ec, Hsz. rewrite Ec in E2, Hsz. fold q2 in E2, Hsz.
  split_ands; auto.
  - intros k it Hin. apply In_map_delete in Hin as [Hin _]. now apply Hk.
  - unfold distinct_keys, q2. cbn [items with_state].
    rewrite map_keys_delete. now apply NoDup_filter.
  - exact (sort_after_complete q x r Hk ND Es).
Qed.

(** X15. On a queue whose first registered processor always succeeds,
    the timer of [startProcessing] works off one available item per
    firing, in the order of [dequeue], logging "Successfully processed a
    message" each time.  Once no item is available, every further
    firing logs nothing if the queue is empty, and logs the warning
    "Failed to process a message" if items are left in flight. *)
Theorem ticks_drain (queueName : string) q p ps (n : nat) :
  keyed q -> distinct_keys q ->
  processors q = p :: ps ->
  (forall item, p item = Fulfilled true) ->
  let available := length (availableItems q) in
  let m := Nat.min n available in
  fst (ticks n queueName q) = snd (processRounds m q) /\
  snd (ticks n queueName q)
  = repeat (INFO, ("Successfully processed a message from queue "
                   ++ queueName)%string) m
    ++ (if size q - Z.of_nat available >? 0
        then repeat (WARN, ("Failed to process a message from queue "
                            ++ queueName)%string) (n - m)
        else []).
Proof.
  intros Hk ND Hps Hp. cbv zeta.
  rewrite <- (Permutation_length (sort_perm (selection q) (availableItems q))).
  revert q Hk ND Hps. induction n as [|n IH]; intros q Hk ND Hps.
  - cbn. now destruct (_ >? 0).
  - cbn [ticks].
    destruct (sort (selection q) (availableItems q)) as [|x r] eqn:Es.
    + assert (Hdq : fst (dequeue q) = None) by now rewrite dequeue_spec, Es.
      assert (Et : tick queueName q
                   = (q, if size q >? 0
                         then [(WARN, ("Failed to process a message from queue "
                                       ++ queueName)%string)]
                         else [])).
      { unfold tick. rewrite (processNext_empty q Hdq).
        now destruct (size q >? 0). }
      rewrite Et. specialize (IH q Hk ND Hps). rewrite Es in IH.
      cbn [length] in *. rewrite Nat.min_0_r in *. rewrite Nat.sub_0_r in *.
      destruct IH as [I1 I2].
      destruct (ticks n queueName q) as [q2 more]. cbn [fst snd] in *.
      rewrite Z.sub_0_r in *. split; [exact I1|]. rewrite I2.
      cbn [repeat app]. now destruct (size q >? 0).
    + destruct (succeed_round q p ps x r Hk ND Hps Hp Es)
        as (E1 & E2 & Hk2 & ND2 & Es2 & Hsz).
      cbv zeta in E2, Hk2, ND2, Es2, Hsz.
      set (q2 := with_state q (map_delete (id x) (items q)) (processing q))
        in *.
      assert (Hpos : 0 <= size q2) by (unfold size, map_size; lia).
      assert (Et : tick queueName q
                   = (q2, [(INFO, ("Successfully processed a message from queue "
                                   ++ queueName)%string)])).
      { unfold tick. destruct (size q >? 0) eqn:Egt;
          [|rewrite Z.gtb_ltb in Egt; apply Z.ltb_ge in Egt; lia].
        destruct (processNext q) as [[ok q'] tr]. cbn [fst snd] in E1, E2.
        now subst. }
      rewrite Et. specialize (IH q2 Hk2 ND2 Hps).
      rewrite Es2 in IH.
      destruct IH as [I1 I2].
      destruct (ticks n queueName q2) as [q3 more]. cbn [fst snd] in *.
      cbn [length]. rewrite <- Nat.succ_min_distr.
      rewrite processRounds_step, E2. cbn [snd Nat.sub repeat app].
      split; [exact I1|]. rewrite I2. f_equal. f_equal.
      rewrite Hsz, Nat2Z.inj_succ.
      replace (size q - 1 - Z.of_nat (length r))
        with (size q - Z.succ (Z.of_nat (length r))) by lia.
      reflexivity.
Qed.

(** X16. One firing of the timer that [startProcessing] sets up does
    nothing on an empty queue.  On a queue that holds items all of
    which are in flight, it calls [processNext] because [size()] is
    positive, and logs the warning "Failed to process a message"
    although no processor was invoked and nothing has changed. *)
Theorem tick_warns_when_all_in_flight (queueName : string) q :
  peek q = None ->
  tick queueName q
  = (q, if size q >? 0
        then [(WARN, ("Failed to process a message from queue "
                      ++ queueName)%string)]
        else []) /\
  snd (processNext q) = [].
Proof.
  intros Hp. rewrite peek_dequeue in Hp. unfold tick.
  rewrite (processNext_empty q Hp). cbn [snd].
  now destruct (size q >? 0).
Qed.
End Processing.

(** ** Snapshots of arbitrary payloads *)

Lemma toJson_none v : toJson v = None -> v = JsUndefined.
Proof. destruct v as [| | | | |[t|]| |]; cbn; congruence. Qed.

Lemma NoDup_distinct (l : list string) : NoDup l -> distinct l = true.
Proof.
  induction 1 as [|x l Hx ND IH]; [reflexivity|].
  cbn [distinct]. rewrite IH, andb_true_r. apply negb_true_iff.
  destruct (existsb (String.eqb x) l) eqn:E; [|reflexivity].
  apply existsb_exists in E as (y & Hy & Ey). apply String.eqb_eq in Ey.
  now subst y.
Qed.

Lemma map_of_entries_keys {V : Type} (l acc : list (string * V)) :
  NoDup (map_keys acc) ->
  NoDup (map_keys (fold_left (fun m e => map_set (fst e) (snd e) m) l acc)).
Proof.
  revert acc. induction l as [|[k v] l IH]; intros acc ND; [exact ND|].
  cbn [fold_left fst snd]. apply IH. rewrite map_keys_set.
  destruct (map_has k acc) eqn:E; [exact ND|].
  apply NoDup_app; [exact ND | repeat constructor; intros [] |].
  intros x Hx [<-|[]]. apply map_has_keys in Hx. congruence.
Qed.

Lemma map_of_entries_In {V : Type} (l acc : list (string * V)) e :
  In e (fold_left (fun m e => map_set (fst e) (snd e) m) l acc) ->
  In e acc \/ In e l.
Proof.
  revert acc. induction l as [|[k v] l IH]; intros acc H; [now left|].
  cbn [fold_left fst snd] in H. apply IH in H as [H|H]; [|right; now right].
  apply In_map_set in H as [H|H]; [now left|]. right. left. now symmetry.
Qed.

(** What [JSON.parse] builds is a JSON value. *)
Lemma json_value_fromJson j : json_value (fromJson j) = true.
Proof.
  induction j using Json_induction; cbn [fromJson json_value]; try reflexivity.
  - apply forallb_forall. intros v Hv. apply in_map_iff in Hv as (e & <- & He).
    rewrite Forall_forall in H. now apply H.
  - apply andb_true_iff. split.
    + apply NoDup_distinct. apply (map_of_entries_keys _ []). constructor.
    + apply forallb_forall. intros [k v] Hv.
      apply map_of_entries_In in Hv as [[]|Hv].
      apply in_map_iff in Hv as ([k' e] & E & He). inversion E; subst.
      rewrite Forall_forall in H. exact (H (k, e) He).
Qed.

Lemma jsonRoundTrip_json v : json_value v = true -> jsonRoundTrip v = v.
Proof.
  intros H. destruct (fromJson_toJson v H) as (j & E & Hj).
  unfold jsonRoundTrip. now rewrite E.
Qed.

Lemma jsonRoundTrip_cases v :
  jsonRoundTrip v = JsUndefined \/ json_value (jsonRoundTrip v) = true.
Proof.
  unfold jsonRoundTrip. destruct (toJson v) as [j|]; [right|now left].
  apply json_value_fromJson.
Qed.

Lemma jsonRoundTrip_idem v : jsonRoundTrip (jsonRoundTrip v) = jsonRoundTrip v.
Proof.
  destruct (jsonRoundTrip_cases v) as [E|E].
  - now rewrite E.
  - now apply jsonRoundTrip_json.
Qed.

Lemma normalised_id it : storable it -> normalised it = it.
Proof.
  destruct it as [i dv t p a]. intros [[E|E] _]; cbn [data] in E;
    unfold normalised; cbn [id data addedAt priority processingAttempts].
  - now rewrite E.
  - now rewrite jsonRoundTrip_json.
Qed.

Lemma reviveEntry_entryJson_any k (it : QueueItem JsValue) :
  dated it ->
  reviveEntry (fromJson (entryJson (k, it))) = Some (k, normalised it).
Proof.
  destruct it as [i dv t p a]. unfold dated, normalised, jsonRoundTrip.
  cbn [id data addedAt priority processingAttempts]. intros Ht.
  destruct (toJson dv) as [jd|] eqn:E.
  - rewrite (entryJson_item k i dv t p a jd E). cbn [fromJson map].
    rewrite reviveEntry_object. now rewrite Date_parse_toISOString.
  - apply toJson_none in E. subst dv.
    rewrite entryJson_undefined. cbn [fromJson map].
    rewrite reviveEntry_object_undefined.
    now rewrite Date_parse_toISOString.
Qed.

Lemma traverse_entries_any (items : JsMap (QueueItem JsValue)) :
  Forall (fun e => dated (snd e)) items ->
  traverse reviveEntry (map fromJson (map entryJson items))
  = Some (map normalisedEntry items).
Proof.
  induction 1 as [|[k it] items Hs Hall IH]; [reflexivity|].
  cbn [map traverse]. cbn [snd] in Hs.
  rewrite (reviveEntry_entryJson_any k it Hs). cbn [bind_opt].
  now rewrite IH.
Qed.

Lemma save_then_load (filePath : string)
    (items : JsMap (QueueItem JsValue)) (processing : JsSet)
    (fs : FileSystem) :
  NoDup (map_keys items) ->
  NoDup processing ->
  Forall (fun e => dated (snd e)) items ->
  existsb (String.eqb filePath) (failing fs) = false ->
  FileStorageAdapter_save filePath items processing fs
  = (Fulfilled tt,
     mkFS (map_set filePath
             (JObj [("items", JArr (map entryJson items));
                    ("processing", JArr (map JStr processing))])
             (files fs))
          (failing fs)) /\
  FileStorageAdapter_load filePath
    (snd (FileStorageAdapter_save filePath items processing fs))
  = Fulfilled (map normalisedEntry items, processing).
Proof.
  intros NDi NDp Hst Hok.
  unfold FileStorageAdapter_save. rewrite snapshot_doc.
  unfold writeFile. rewrite Hok. cbn [fst snd]. split; [reflexivity|].
  unfold FileStorageAdapter_load, existsSync, readFile. cbn [files failing].
  rewrite map_has_set, String.eqb_refl, Hok, map_get_set_same. cbn [orb negb].
  cbn [fromJson map]. rewrite prop_items, prop_processing.
  rewrite traverse_entries_any by exact Hst. rewrite traverse_strings.
  rewrite map_of_entries_nodup.
  - now rewrite set_of_list_nodup by exact NDp.
  - rewrite map_map. cbn [normalisedEntry fst]. exact NDi.
Qed.


(** ** Saving and restarting *)

Lemma saveToStorage_file (path : string) (q : Queue JsValue) (fs : FileSystem) :
  storageAdapter q = Some (FileStorageAdapter path) ->
  saveToStorage q fs
  = if usable path fs
    then (Return (Fulfilled tt),
          mkFS (map_set path
                  (JObj [("items", JArr (map entryJson (items q)));
                         ("processing", JArr (map JStr (processing q)))])
                  (files fs))
               (failing fs))
    else (Return (Rejected "EIO"), fs).
Proof.
  intros Ha. unfold saveToStorage, async, saveToStorage_body. rewrite Ha.
  cbn [save FileStorageAdapter]. unfold FileStorageAdapter_save.
  rewrite snapshot_doc. unfold writeFile, usable.
  now destruct (existsb (String.eqb path) (failing fs)).
Qed.

Lemma options_loadFromStorage (q : Queue JsValue) fs :
  options (snd (loadFromStorage q fs)) = options q /\
  processors (snd (loadFromStorage q fs)) = processors q /\
  storageAdapter (snd (loadFromStorage q fs)) = storageAdapter q.
Proof.
  unfold loadFromStorage. destruct (storageAdapter q) as [a|] eqn:E;
    [|cbn [snd]; auto].
  destruct (load a fs) as [[m s]|err];
    cbn [snd options processors storageAdapter with_state]; auto.
Qed.

Lemma createQueue_after_save (dir name : string) (o' : QueueOptions)
    (q : Queue JsValue) (fs : FileSystem) :
  String.eqb dir EmptyString = false ->
  storageAdapter q = Some (FileStorageAdapter (storagePath dir name)) ->
  distinct_keys q -> inflight_distinct q ->
  Forall (fun e => dated (snd e)) (items q) ->
  usable (storagePath dir name) fs = true ->
  let q' := mkQueue (map normalisedEntry (items q)) (processing q)
              (options (newQueue (T := JsValue) o')) []
              (Some (FileStorageAdapter (storagePath dir name))) in
  fst (saveToStorage q fs) = Return (Fulfilled tt) /\
  failing (snd (saveToStorage q fs)) = failing fs /\
  createQueue name o' (newQueueManager (Some dir)) (snd (saveToStorage q fs))
  = (Return q', mkManager [(name, q')] (Some dir)).
Proof.
  intros Hdir Ha ND NDp Hd Hok q'.
  assert (Hok' : existsb (String.eqb (storagePath dir name)) (failing fs) = false).
  { unfold usable in Hok. now apply negb_true_iff in Hok. }
  destruct (save_then_load (storagePath dir name) (items q) (processing q) fs
              ND NDp Hd Hok') as [Es El].
  assert (Esave : saveToStorage q fs
                  = (Return (Fulfilled tt),
                     snd (FileStorageAdapter_save (storagePath dir name)
                            (items q) (processing q) fs))).
  { unfold saveToStorage, async, saveToStorage_body. rewrite Ha.
    cbn [save FileStorageAdapter]. now rewrite Es. }
  rewrite Esave. cbn [fst snd]. split_ands.
  - reflexivity.
  - now rewrite Es.
  - unfold createQueue. cbn [queues storageDir newQueueManager].
    change (map_has name (@nil (string * Queue JsValue))) with false.
    cbv iota. rewrite Hdir. unfold loadFromStorage.
    cbn [storageAdapter setStorageAdapter load FileStorageAdapter].
    rewrite El. reflexivity.
Qed.

Lemma createQueue_without_file (dir name : string) (o' : QueueOptions)
    (fs : FileSystem) :
  String.eqb dir EmptyString = false ->
  existsSync (storagePath dir name) fs = false ->
  let q' := mkQueue [] [] (options (newQueue (T := JsValue) o')) []
              (Some (FileStorageAdapter (storagePath dir name))) in
  createQueue name o' (newQueueManager (Some dir)) fs
  = (Return q', mkManager [(name, q')] (Some dir)).
Proof.
  intros Hdir Hno q'. unfold createQueue.
  cbn [queues storageDir newQueueManager].
  change (map_has name (@nil (string * Queue JsValue))) with false.
  cbv iota. rewrite Hdir. unfold loadFromStorage.
  cbn [storageAdapter setStorageAdapter load FileStorageAdapter].
  unfold FileStorageAdapter_load. rewrite Hno. reflexivity.
Qed.



Lemma saveLoop_stored (dir : string) (entries : JsMap (Queue JsValue)) ps fs :
  (forall name q, In (name, q) entries ->
     storageAdapter q = Some (FileStorageAdapter (storagePath dir name))) ->
  let r := saveLoop (map snd entries) ps fs in
  fst r = ps ++ map (fun e => if usable (storagePath dir (fst e)) fs
                              then Fulfilled tt else Rejected "EIO") entries /\
  failing (snd r) = failing fs /\
  (forall p, existsSync p (snd r)
             = existsSync p fs
               || existsb (fun e => String.eqb (storagePath dir (fst e)) p
                                    && usable (storagePath dir (fst e)) fs)
                          entries).
Proof.
  revert ps fs. induction entries as [|[name q] entries IH]; intros ps fs Hs;
    cbv zeta.
  - cbn. rewrite app_nil_r. split_ands; auto. intros p.
    now rewrite orb_false_r.
  - cbn [map snd fst saveLoop existsb].
    rewrite (saveToStorage_file (storagePath dir name) q fs)
      by (apply Hs; now left).
    assert (Hs' : forall name0 q0, In (name0, q0) entries ->
              storageAdapter q0
              = Some (FileStorageAdapter (storagePath dir name0)))
      by (intros; apply Hs; now right).
    destruct (usable (storagePath dir name) fs) eqn:Eu.
    + match goal with |- context [saveLoop _ ?ps' ?fs'] =>
        destruct (IH ps' fs' Hs') as (I1 & I2 & I3) end.
      cbv zeta in I1, I2, I3. rewrite I1, I2. cbn [failing].
      split_ands; auto.
      * now rewrite <- app_assoc.
      * intros p. rewrite I3. unfold existsSync at 1. cbn [files].
        rewrite map_has_set. unfold usable. cbn [failing].
        fold (existsSync p fs). rewrite andb_true_r.
        destruct (String.eqb (storagePath dir name) p), (existsSync p fs);
          reflexivity.
    + match goal with |- context [saveLoop _ ?ps' ?fs'] =>
        destruct (IH ps' fs' Hs') as (I1 & I2 & I3) end.
      cbv zeta in I1, I2, I3. rewrite I1, I2.
      split_ands; auto.
      * now rewrite <- app_assoc.
      * intros p. rewrite I3. now rewrite andb_false_r.
Qed.

Lemma forallb_map_comp {A B : Type} (f : B -> bool) (g : A -> B) (l : list A) :
  forallb f (map g l) = forallb (fun x => f (g x)) l.
Proof.
  induction l as [|x l IH]; [reflexivity|]. cbn [map forallb]. now rewrite IH.
Qed.

Lemma Promise_all_map {A : Type} (ok : A -> bool) (l : list A) :
  Promise_all (map (fun e => if ok e then Fulfilled tt else Rejected "EIO") l)
  = if forallb ok l then Fulfilled tt else Rejected "EIO".
Proof.
  induction l as [|x l IH]; [reflexivity|].
  cbn [map Promise_all forallb]. now destruct (ok x).
Qed.

(** X20. For a registry all of whose queues save to their file under the
    storage directory, [saveAllQueues] is fulfilled when every one of
    these files can be written and is rejected with the write error
    otherwise; in both cases every file that can be written exists
    afterwards.  [shutdown] awaits this promise inside [try], so it is
    fulfilled in both cases and logs the failure as an error. *)
Theorem saveAllQueues_with_storage (dir : string) (mgr : QueueManager)
    (fs : FileSystem) :
  stored_in dir mgr ->
  let paths := map (storagePath dir) (listQueues mgr) in
  let writable := forallb (fun p => usable p fs) paths in
  fst (saveAllQueues mgr fs)
  = (if writable then Fulfilled tt else Rejected "EIO") /\
  (forall p, In p paths -> usable p fs = true ->
     existsSync p (snd (saveAllQueues mgr fs)) = true) /\
  failing (snd (saveAllQueues mgr fs)) = failing fs /\
  fst (shutdown mgr fs)
  = (Fulfilled tt,
     [if writable then (INFO, "All queues saved successfully")
      else (ERROR, "Error saving queues")]).
Proof.
  intros Hs paths writable.
  destruct (saveLoop_stored dir (queues mgr) [] fs Hs) as (I1 & I2 & I3).
  cbv zeta in I1, I2, I3.
  assert (E : fst (saveAllQueues mgr fs)
              = if writable then Fulfilled tt else Rejected "EIO").
  { unfold saveAllQueues, map_values.
    destruct (saveLoop (map snd (queues mgr)) [] fs) as [ps fs1].
    cbn [fst snd app] in *. rewrite I1, Promise_all_map.
    unfold writable, paths, listQueues, map_keys.
    now rewrite map_map, forallb_map_comp. }
  assert (Efs : snd (saveAllQueues mgr fs)
                = snd (saveLoop (map snd (queues mgr)) [] fs)).
  { unfold saveAllQueues, map_values.
    now destruct (saveLoop (map snd (queues mgr)) [] fs). }
  split_ands.
  - exact E.
  - intros p Hin Hu. rewrite Efs, I3. apply orb_true_iff. right.
    unfold paths, listQueues, map_keys in Hin. rewrite map_map in Hin.
    apply in_map_iff in Hin as (e & <- & He).
    apply existsb_exists. exists e. split; [exact He|].
    now rewrite String.eqb_refl, Hu.
  - now rewrite Efs.
  - unfold shutdown. destruct (saveAllQueues mgr fs) as [[[]|err] fs1];
      cbn [fst] in *; destruct writable; try discriminate; reflexivity.
Qed.

(** X21. [createQueue] on a name that the registry holds throws "Queue
    with name ... already exists" and leaves the registry as it is; on
    a new name it returns a queue with the given options that
    [getQueue] then finds, lists the name last, leaves the other queues
    alone, and makes a second [createQueue] on the name throw.
    [removeQueue] returns whether the name was registered; afterwards
    [getQueue] finds nothing under it and the other queues are
    untouched. *)
Theorem registry_create_get_remove (name : string) (o : QueueOptions)
    (mgr : QueueManager) (fs : FileSystem) :
  let created := createQueue name o mgr fs in
  let removed := removeQueue name mgr in
  (map_has name (queues mgr) = true ->
     created
     = (Throw ("Queue with name " ++ name ++ " already exists")%string, mgr)) /\
  (map_has name (queues mgr) = false ->
     exists q, fst created = Return q /\
       options q = options (newQueue (T := JsValue) o) /\
       getQueue name (snd created) = Some q /\
       listQueues (snd created) = listQueues mgr ++ [name] /\
       (forall other, other <> name ->
          getQueue other (snd created) = getQueue other mgr) /\
       createQueue name o (snd created) fs
       = (Throw ("Queue with name " ++ name ++ " already exists")%string,
          snd created)) /\
  (fst removed = true <-> In name (listQueues mgr)) /\
  getQueue name (snd removed) = None /\
  (forall other, other <> name ->
     getQueue other (snd removed) = getQueue other mgr) /\
  listQueues (snd removed)
  = filter (fun n => negb (String.eqb name n)) (listQueues mgr).
Proof.
  intros created removed. unfold created, removed. split_ands.
  - intros H. unfold createQueue. now rewrite H.
  - intros H. unfold createQueue at 1 2 3 4 5. rewrite H.
    cbn [fst snd]. eexists. split; [reflexivity|]. split_ands.
    + destruct (storageDir mgr) as [dir|]; [|reflexivity].
      destruct (String.eqb dir EmptyString); [reflexivity|].
      now rewrite (proj1 (options_loadFromStorage _ _)).
    + unfold getQueue. cbn [queues]. apply map_get_set_same.
    + unfold listQueues. cbn [queues]. now rewrite map_keys_set, H.
    + intros other Hne. unfold getQueue. cbn [queues].
      apply map_get_set_other. congruence.
    + unfold createQueue. rewrite H. cbn [snd queues].
      now rewrite map_has_set, String.eqb_refl.
  - unfold removeQueue. cbn [fst]. apply map_has_keys.
  - unfold removeQueue, getQueue. cbn [snd queues]. apply map_get_delete_same.
  - intros other Hne. unfold removeQueue, getQueue. cbn [snd queues].
    apply map_get_delete_other. congruence.
  - unfold removeQueue, listQueues. cbn [snd queues]. apply map_keys_delete.
Qed.

(** ** Filtered subscriptions *)

Lemma QueueEventType_eqb_eq a b : QueueEventType_eqb a b = true <-> a = b.
Proof. destruct a, b; cbn; split; congruence. Qed.

Lemma includes_In (t : QueueEventType) ts :
  existsb (QueueEventType_eqb t) ts = true <-> In t ts.
Proof.
  rewrite existsb_exists. split.
  - intros (x & Hx & E). apply QueueEventType_eqb_eq in E. now subst x.
  - intros H. exists t. split; [exact H | now apply QueueEventType_eqb_eq].
Qed.

Section Filters.
Context {T W : Type}.

(** X22. The wrapper that [subscribeToQueue] registers hands an event
    to the subscriber exactly when the event type is in the
    [eventTypes] list, if one is given, and [filterFn] accepts the
    event, if one is given; every other event is dropped without
    effect.  So an empty [eventTypes] list blocks every event, omitted
    options let every event through, and wrapping twice applies both
    filters, in either order. *)
Theorem queueSubscriber_delivers (s : QueueSubscriber T W)
    (opts : option (NotificationOptions T)) (ev : QueueEvent T) (w : W) :
  let types := match opts with Some o => eventTypes o | None => None end in
  let fn := match opts with Some o => filterFn o | None => None end in
  let passes :=
    match types with Some ts => In (type ev) ts | None => True end /\
    match fn with Some f => f ev = true | None => True end in
  (passes -> onEvent (queueSubscriber s opts) ev w = onEvent s ev w) /\
  (~ passes -> onEvent (queueSubscriber s opts) ev w = w) /\
  (types = Some [] -> onEvent (queueSubscriber s opts) ev w = w) /\
  onEvent (queueSubscriber s None) ev w = onEvent s ev w /\
  (forall opts2,
      onEvent (queueSubscriber (queueSubscriber s opts) opts2) ev w
      = onEvent (queueSubscriber (queueSubscriber s opts2) opts) ev w).
Proof.
  intros types fn passes.
  assert (E : onEvent (queueSubscriber s opts) ev w
              = if match types with
                   | Some ts => existsb (QueueEventType_eqb (type ev)) ts
                   | None => true
                   end
                   && match fn with Some f => f ev | None => true end
                then onEvent s ev w else w).
  { unfold types, fn, queueSubscriber. cbn [onEvent].
    destruct opts as [[[ts|] [f|]]|]; cbn [eventTypes filterFn];
      try destruct (existsb _ ts); try destruct (f ev); reflexivity. }
  split_ands.
  - intros [H1 H2]. rewrite E.
    assert (H1' : match types with
                  | Some ts => existsb (QueueEventType_eqb (type ev)) ts
                  | None => true
                  end = true).
    { destruct types as [ts|]; [now apply includes_In | reflexivity]. }
    assert (H2' : match fn with Some f => f ev | None => true end = true).
    { destruct fn as [f|]; [exact H2 | reflexivity]. }
    now rewrite H1', H2'.
  - intros Hn. rewrite E.
    destruct types as [ts|] eqn:Et.
    + destruct (existsb (QueueEventType_eqb (type ev)) ts) eqn:Ex;
        [|reflexivity].
      apply includes_In in Ex. destruct fn as [f|] eqn:Ef.
      * destruct (f ev) eqn:Efe; [|reflexivity]. exfalso. apply Hn.
        unfold passes. now split.
      * exfalso. apply Hn. unfold passes. now split.
    + destruct fn as [f|] eqn:Ef.
      * destruct (f ev) eqn:Efe; [|reflexivity]. exfalso. apply Hn.
        unfold passes. now split.
      * exfalso. apply Hn. unfold passes. now split.
  - intros Ht. rewrite E, Ht. reflexivity.
  - reflexivity.
  - intros opts2. unfold queueSubscriber. cbn [onEvent].
    destruct opts as [[[ts|] [f|]]|], opts2 as [[[ts2|] [f2|]]|];
      cbn [eventTypes filterFn];
      try destruct (existsb _ ts); try destruct (existsb _ ts2);
      try destruct (f ev); try destruct (f2 ev); reflexivity.
Qed.
End Filters.

(** ** The command table *)

(** X23. After [registerCommands] the name "complete" stands for the
    command that marks a whole queue as complete: the second
    [commands.set('complete', ...)] replaces the command that completes
    one item, so [executeCommand] reaches that command under no name at
    all.  Eighteen names are registered, and any other name gives the
    "Unknown command" error. *)
Theorem complete_command_is_replaced :
  executeCommand "complete" = inr CompleteQueueCommand /\
  (forall commandName, executeCommand commandName <> inr CompleteCommand) /\
  map_size registerCommands = 18 /\
  (forall commandName,
      In commandName (map_keys registerCommands) <->
      exists command, executeCommand commandName = inr command) /\
  map_keys registerCommands
  = ["help"; "list"; "add"; "addjson"; "get"; "getmany"; "peek"; "browse";
     "complete"; "completemany"; "retry"; "retrymany"; "size"; "save";
     "exit"; "subscribe"; "webhook"; "listen"].
Proof.
  split_ands.
  - reflexivity.
  - intros commandName H. unfold executeCommand in H.
    destruct (map_get commandName registerCommands) as [c|] eqn:E;
      [|discriminate].
    injection H as ->. apply map_get_In in E.
    vm_compute in E.
    repeat (destruct E as [E|E]; [discriminate|]). exact E.
  - reflexivity.
  - intros commandName. rewrite <- map_has_keys. unfold executeCommand, map_has.
    destruct (map_get commandName registerCommands) as [c|]; split;
      try discriminate; eauto.
    intros [c H]. discriminate.
  - reflexivity.
Qed.

(** ** Unsubscribing *)

Lemma map_set_same {V : Type} k (v : V) m :
  map_get k m = Some v -> map_set k v m = m.
Proof.
  induction m as [|[k' v'] m IH]; unfold map_get, map_set; [discriminate|].
  fold (@map_get V) (@map_set V).
  destruct (String.eqb k k') eqn:E.
  - now intros [= ->].
  - intros H. now rewrite IH.
Qed.

Section TrackedFacts.
Context {T W Q : Type}.
Variable queue_subscribe : @Tracked.SubscriberObject T W -> Q -> Q.
Variable queue_unsubscribe : @Tracked.SubscriberObject T W -> Q -> Q.

Lemma unsubscribeLoop_none subscriber pending (queue : Q) kept found :
  (forall entry, In entry pending ->
     Tracked.identity (Tracked.e_subscriber entry)
     <> Tracked.identity subscriber) ->
  Tracked.unsubscribeLoop queue_unsubscribe subscriber pending queue kept found
  = (queue, kept ++ pending, found).
Proof.
  revert kept. induction pending as [|e rest IH]; intros kept H;
    cbn [Tracked.unsubscribeLoop].
  - now rewrite app_nil_r.
  - destruct (Nat.eqb _ _) eqn:E.
    + apply Nat.eqb_eq in E. exfalso. apply (H e); [now left | exact E].
    + rewrite IH by (intros e' He'; apply H; now right).
      now rewrite <- app_assoc.
Qed.

Lemma wrappers_apart_subscribe held name subscriber opts
    (w : @Tracked.World T W Q) :
  Tracked.wrappers_apart held w ->
  Tracked.wrappers_apart held
    (snd (Tracked.subscribeToQueue queue_subscribe name subscriber opts w)).
Proof.
  intros [H1 H2]. unfold Tracked.subscribeToQueue.
  destruct (map_get name (Tracked.w_queues w)) as [queue|]; cbn [snd];
    [|now split].
  split; cbn [Tracked.allocated Tracked.w_subscribers].
  - intros h Hh. specialize (H1 h Hh). lia.
  - intros n entries entry Hin He. apply In_map_set in Hin as [Hin|Hin].
    + destruct (H2 n entries entry Hin He). split; [lia | assumption].
    + inversion Hin; subst. apply in_app_or in He as [He|[<-|[]]].
      * destruct (map_get name (Tracked.w_subscribers w)) as [l|] eqn:El;
          [|contradiction].
        apply map_get_In in El. destruct (H2 name l entry El He).
        split; [lia | assumption].
      * cbn [Tracked.e_subscriber Tracked.identity]. split; [lia|].
        intros Hh. specialize (H1 _ Hh). lia.
Qed.

Lemma session_apart calls held (w : @Tracked.World T W Q) :
  Tracked.wrappers_apart held w ->
  Tracked.wrappers_apart
    (map Tracked.identity (fst (Tracked.session queue_subscribe calls w)) ++ held)
    (snd (Tracked.session queue_subscribe calls w)).
Proof.
  revert held w. induction calls as [|c rest IH]; intros held w Hw;
    cbn [Tracked.session]; [exact Hw|].
  set (sub := Tracked.mkObject _ _).
  set (w1 := Tracked.mkWorld _ _ _).
  assert (H1 : Tracked.wrappers_apart (Tracked.allocated w :: held) w1).
  { destruct Hw as [Ha Hb]. split; cbn [Tracked.allocated Tracked.w_subscribers w1].
    - intros h [<-|Hh]; [lia|]. specialize (Ha h Hh). lia.
    - intros n entries entry Hin He. destruct (Hb n entries entry Hin He).
      split; [lia|]. intros [E|Hh]; [lia | contradiction]. }
  pose proof (wrappers_apart_subscribe _ (Tracked.cc_queue c) sub
                (Tracked.cc_options c) w1 H1) as H2.
  destruct (Tracked.subscribeToQueue queue_subscribe (Tracked.cc_queue c) sub
              (Tracked.cc_options c) w1) as [ok w2].
  cbn [snd] in H2. specialize (IH _ w2 H2).
  destruct (Tracked.session queue_subscribe rest w2) as [held' w3].
  cbn [fst snd map Tracked.identity sub] in *.
  destruct IH as [Ia Ib]. split.
  - intros h Hh. apply Ia. cbn [app] in Hh. destruct Hh as [<-|Hh].
    + apply in_or_app. right. now left.
    + apply in_app_or in Hh as [Hh|Hh]; apply in_or_app;
        [now left | right; now right].
  - intros n entries entry Hin He. destruct (Ib n entries entry Hin He) as [Hlt Hn].
    split; [exact Hlt|]. intros Hh. apply Hn. cbn [app] in Hh.
    destruct Hh as [<-|Hh].
    + apply in_or_app. right. now left.
    + apply in_app_or in Hh as [Hh|Hh]; apply in_or_app;
        [now left | right; now right].
Qed.

(** X24. [unsubscribeFromQueue] looks for the given subscriber among the
    objects that [subscribeToQueue] recorded, and those are the filter
    wrappers, never the subscribers themselves.  So after any sequence
    of subscriptions, [unsubscribeFromQueue] on any subscriber that the
    client subscribed, and on any queue name, returns false and
    removes nothing: the subscription stays in place. *)
Theorem unsubscribe_finds_no_subscriber
    (calls : list (@Tracked.ClientCall T W)) (queues : JsMap Q)
    (queueName : string) (subscriber : @Tracked.SubscriberObject T W) :
  let start := Tracked.mkWorld queues [] 0 in
  let held := fst (Tracked.session queue_subscribe calls start) in
  let w := snd (Tracked.session queue_subscribe calls start) in
  In subscriber held ->
  Tracked.unsubscribeFromQueue queue_unsubscribe queueName subscriber w
  = (false, w).
Proof.
  intros start held w Hin.
  assert (Hw : Tracked.wrappers_apart (map Tracked.identity held ++ []) w).
  { apply session_apart. split; [intros h [] | intros n entries entry []]. }
  rewrite app_nil_r in Hw. destruct Hw as [_ Hb].
  unfold Tracked.unsubscribeFromQueue.
  destruct (map_get queueName (Tracked.w_queues w)) as [queue|] eqn:Eq;
    [|reflexivity].
  destruct (map_get queueName (Tracked.w_subscribers w)) as [entries|] eqn:Ee;
    [|reflexivity].
  rewrite unsubscribeLoop_none.
  - cbn [app]. rewrite (map_set_same _ _ _ Eq), (map_set_same _ _ _ Ee).
    now destruct w.
  - intros entry He E.
    destruct (Hb queueName entries entry (map_get_In _ _ _ Ee) He) as [_ Hn].
    apply Hn. rewrite E. now apply in_map.
Qed.
End TrackedFacts.



(** * Instances of the further properties *)

Lemma keyed_three_items : keyed three_items.
Proof.
  intros k it H. cbn in H.
  destruct H as [H|[H|[H|[]]]]; now inversion H.
Qed.

Lemma distinct_keys_three_items : distinct_keys three_items.
Proof. apply distinct_NoDup. reflexivity. Qed.

Lemma inflight_subset_three_items : inflight_subset three_items.
Proof.
  intros i Hi. apply set_has_In in Hi. cbn in Hi.
  destruct Hi as [<-|[<-|[]]]; reflexivity.
Qed.

(** X1 on the state after [enqueue], [dequeue] and [processNext]. *)
Lemma size_within_capacity_witness :
  attainable busy_queue /\
  Z.of_nat (length (processing busy_queue)) <= size busy_queue /\
  size busy_queue <= Z.max 0 (r_maxSize (options busy_queue)).
Proof.
  assert (H : attainable busy_queue).
  { exists noOptions. eexists. reflexivity. }
  split; [exact H|]. exact (size_within_capacity busy_queue H).
Defined.

(** X2 on the same state, for its one entry. *)
Lemma stored_items_shape_witness :
  (attainable busy_queue /\
   In ("a", mkItem "a" "A" 1 0 0) (items busy_queue)) /\
  id (mkItem "a" "A" 1 0 0) = "a" /\
  0 <= processingAttempts (mkItem "a" "A" 1 0 0)
    <= Z.max 0 (r_retryLimit (options busy_queue)) /\
  (r_priorityEnabled (options busy_queue) = false ->
   priority (mkItem "a" "A" 1 0 0) = 0).
Proof.
  assert (H1 : attainable busy_queue).
  { exists noOptions. eexists. reflexivity. }
  assert (H2 : In ("a", mkItem "a" "A" 1 0 0) (items busy_queue))
    by (left; reflexivity).
  split; [auto|].
  exact (stored_items_shape busy_queue "a" (mkItem "a" "A" 1 0 0) H1 H2).
Defined.

(** X3 on a queue of capacity 1 whose item is in flight. *)
Lemma capacity_freed_by_complete_witness :
  (distinct_keys full_queue /\ inflight_subset full_queue /\
   size full_queue = r_maxSize (options full_queue)) /\
  enqueue "b" 2 "B" None full_queue = (Throw "Queue is full", full_queue) /\
  fst (enqueue "b" 2 "B" None (snd (complete "a" full_queue)))
  = (if fst (complete "a" full_queue) then Return "b"
     else Throw "Queue is full").
Proof.
  assert (H1 : distinct_keys full_queue) by (apply distinct_NoDup; reflexivity).
  assert (H2 : inflight_subset full_queue).
  { intros i Hi. apply set_has_In in Hi. cbn in Hi.
    destruct Hi as [<-|[]]; reflexivity. }
  assert (H3 : size full_queue = r_maxSize (options full_queue)) by reflexivity.
  split; [auto|].
  pose proof (capacity_freed_by_complete full_queue "b" 2 "B" None H1 H2 H3)
    as (E1 & _ & _ & E4).
  split; [exact E1 | exact (E4 "a")].
Defined.

(** X5 on a queue of three items, the first and the third in flight. *)
Lemma dequeueMany_hands_out_witness :
  (keyed three_items /\ distinct_keys three_items) /\
  fst (dequeueMany 2 three_items)
  = firstn (Z.to_nat 2)
      (sort (selection three_items) (availableItems three_items)) /\
  length (fst (dequeueMany 2 three_items))
  = Nat.min (Z.to_nat 2) (length (availableItems three_items)).
Proof.
  split; [split; [exact keyed_three_items | exact distinct_keys_three_items]|].
  pose proof (dequeueMany_hands_out three_items 2 keyed_three_items
                distinct_keys_three_items) as (E1 & E2 & _).
  split; [exact E1 | exact E2].
Defined.

(** X6 on the same queue, whose one available item is [b]. *)
Lemma dequeue_then_complete_witness :
  (keyed three_items /\ distinct_keys three_items /\
   fst (dequeue three_items) = Some (mkItem "b" "B" 2 0 0)) /\
  fst (complete "b" (snd (dequeue three_items))) = true /\
  size (snd (complete "b" (snd (dequeue three_items)))) = size three_items - 1.
Proof.
  assert (H : fst (dequeue three_items) = Some (mkItem "b" "B" 2 0 0))
    by reflexivity.
  split; [split; [exact keyed_three_items
                 |split; [exact distinct_keys_three_items | exact H]]|].
  pose proof (dequeue_then_complete three_items (mkItem "b" "B" 2 0 0)
                keyed_three_items distinct_keys_three_items H)
    as (E1 & _ & E3 & _).
  split; [exact E1 | exact E3].
Defined.

(** X7 on the calls [enqueue(A, 1); enqueue(B, 5)] of one millisecond,
    on a queue without priorities: [A] comes out first. *)
Lemma fifo_without_priorities_witness :
  (or_bool (priorityEnabled noOptions) false = false /\
   NoDup (map c_uuid two_calls) /\
   Z.of_nat (length two_calls) <= or_number (maxSize noOptions) 1000) /\
  (StronglySorted Z.le (map c_now two_calls) ->
   fst (dequeueMany (Z.of_nat (length two_calls))
          (enqueueAll two_calls (newQueue noOptions)))
   = map (fun c => mkItem (c_uuid c) (c_data c) (c_now c) 0 0) two_calls).
Proof.
  assert (H1 : or_bool (priorityEnabled noOptions) false = false) by reflexivity.
  assert (H2 : NoDup (map c_uuid two_calls))
    by (apply distinct_NoDup; reflexivity).
  assert (H3 : Z.of_nat (length two_calls) <= or_number (maxSize noOptions) 1000)
    by (cbn; lia).
  split; [auto|].
  exact (proj2 (proj2 (proj2 (proj2
    (fifo_without_priorities noOptions two_calls H1 H2 H3))))).
Defined.

(** X8 on the queue of three items and a new item [d]. *)
Lemma enqueue_keeps_order_witness :
  (keyed three_items /\ inflight_subset three_items /\
   map_has "d" (items three_items) = false /\
   size three_items < r_maxSize (options three_items)) /\
  filter (fun it => negb (String.eqb (id it) "d"))
         (sort (selection (snd (enqueue "d" 4 "D" None three_items)))
               (availableItems (snd (enqueue "d" 4 "D" None three_items))))
  = sort (selection three_items) (availableItems three_items).
Proof.
  assert (H3 : map_has "d" (items three_items) = false) by reflexivity.
  assert (H4 : size three_items < r_maxSize (options three_items))
    by (cbn; lia).
  split; [split; [exact keyed_three_items
                 |split; [exact inflight_subset_three_items | auto]]|].
  exact (proj1 (enqueue_keeps_order three_items "d" 4 "D" None
                  keyed_three_items inflight_subset_three_items H3 H4)).
Defined.

(** X11 on the queue of three items, with the id [a] listed twice. *)
Lemma retryMany_effect_witness :
  inflight_subset three_items /\
  succeeded (fst (retryMany ["a"; "a"; "b"] three_items))
  = Z.of_nat (length (filter (fun i => set_has i (processing three_items)
                                       && retriable three_items i)
                             (nodup string_dec ["a"; "a"; "b"]))) /\
  succeeded (fst (retryMany ["a"; "a"; "b"] three_items))
  + failed (fst (retryMany ["a"; "a"; "b"] three_items))
  = Z.of_nat (length ["a"; "a"; "b"]).
Proof.
  split; [exact inflight_subset_three_items|].
  pose proof (retryMany_effect three_items ["a"; "a"; "b"]
                inflight_subset_three_items) as (E1 & E2 & _).
  split; [exact E1 | exact E2].
Defined.

(** X12 on a queue whose first processor throws. *)
Lemma processNext_settles_witness :
  (keyed throwing_queue /\ distinct_keys throwing_queue) /\
  processing (snd (fst (processNext throwing_queue)))
  = processing throwing_queue.
Proof.
  assert (H1 : keyed throwing_queue).
  { intros k it H. cbn in H. destruct H as [H|[]]; now inversion H. }
  assert (H2 : distinct_keys throwing_queue)
    by (apply distinct_NoDup; reflexivity).
  split; [auto|].
  exact (proj1 (processNext_settles throwing_queue H1 H2)).
Defined.

(** X13 on a queue of two items: three calls of [processNext]. *)
Lemma processRounds_drain_witness :
  (keyed working_queue /\ distinct_keys working_queue /\
   processors working_queue = [fun _ => Fulfilled true] /\
   (forall item : QueueItem string,
       (fun _ : QueueItem string => Fulfilled true) item = Fulfilled true)) /\
  fst (processRounds 3 working_queue)
  = repeat true
      (Nat.min 3 (length (sort (selection working_queue)
                               (availableItems working_queue))))
    ++ repeat false
         (3 - Nat.min 3 (length (sort (selection working_queue)
                                      (availableItems working_queue)))).
Proof.
  assert (H1 : keyed working_queue).
  { intros k it H. cbn in H. destruct H as [H|[H|[]]]; now inversion H. }
  assert (H2 : distinct_keys working_queue)
    by (apply distinct_NoDup; reflexivity).
  assert (H3 : processors working_queue = [fun _ => Fulfilled true])
    by reflexivity.
  assert (H4 : forall item : QueueItem string,
             (fun _ : QueueItem string => Fulfilled true) item = Fulfilled true)
    by reflexivity.
  split; [auto|].
  exact (proj1 (processRounds_drain working_queue _ [] 3 H1 H2 H3 H4)).
Defined.

(** X14 on a queue with [retryLimit: 2] whose processors fail. *)
Lemma failing_item_dropped_witness :
  (well_formed failing_queue /\ distinct_keys failing_queue /\
   never_succeeds (processors failing_queue) /\
   fst (dequeue failing_queue) = Some (mkItem "a" "A" 1 0 0) /\
   processingAttempts (mkItem "a" "A" 1 0 0)
   <= r_retryLimit (options failing_queue)) /\
  fst (processRounds 3 failing_queue) = repeat false 3.
Proof.
  assert (H1 : well_formed failing_queue).
  { split.
    - intros k it H. cbn in H. destruct H as [H|[]]; now inversion H.
    - intros i Hi. apply set_has_In in Hi. destruct Hi. }
  assert (H2 : distinct_keys failing_queue)
    by (apply distinct_NoDup; reflexivity).
  assert (H3 : never_succeeds (processors failing_queue)).
  { intros p item H. cbn in H. destruct H as [<-|[<-|[]]]; discriminate. }
  assert (H4 : fst (dequeue failing_queue) = Some (mkItem "a" "A" 1 0 0))
    by reflexivity.
  assert (H5 : processingAttempts (mkItem "a" "A" 1 0 0)
               <= r_retryLimit (options failing_queue)) by (cbn; lia).
  split; [auto 6|].
  exact (proj1 (failing_item_dropped failing_queue (mkItem "a" "A" 1 0 0)
                  H1 H2 H3 H4 H5)).
Defined.

(** X15 on the queue of two items with a processor that succeeds: three
    firings of the timer. *)
Lemma ticks_drain_witness :
  (keyed working_queue /\ distinct_keys working_queue /\
   processors working_queue = [fun _ => Fulfilled true] /\
   (forall item : QueueItem string,
       (fun _ : QueueItem string => Fulfilled true) item = Fulfilled true)) /\
  fst (ticks 3 "messages" working_queue)
  = snd (processRounds (Nat.min 3 (length (availableItems working_queue)))
           working_queue).
Proof.
  assert (H1 : keyed working_queue).
  { intros k it H. cbn in H. destruct H as [H|[H|[]]]; now inversion H. }
  assert (H2 : distinct_keys working_queue)
    by (apply distinct_NoDup; reflexivity).
  assert (H3 : processors working_queue = [fun _ => Fulfilled true])
    by reflexivity.
  assert (H4 : forall item : QueueItem string,
             (fun _ : QueueItem string => Fulfilled true) item = Fulfilled true)
    by reflexivity.
  split; [auto|].
  exact (proj1 (ticks_drain "messages" working_queue _ [] 3 H1 H2 H3 H4)).
Defined.

(** X16 on a queue whose one item is in flight. *)
Lemma tick_warns_when_all_in_flight_witness :
  peek (core one_in_flight) = None /\
  tick "jobs" (core one_in_flight)
  = (core one_in_flight,
     [(WARN, "Failed to process a message from queue jobs")]).
Proof.
  assert (H : peek (core one_in_flight) = None) by reflexivity.
  split; [exact H|].
  exact (proj1 (tick_warns_when_all_in_flight "jobs" (core one_in_flight) H)).
Defined.




(** X20 on a registry of one queue, on a disk that can be written. *)
Lemma saveAllQueues_with_storage_witness :
  stored_in "data" stored_manager /\
  fst (saveAllQueues stored_manager emptyFS)
  = (if forallb (fun p => usable p emptyFS)
          (map (storagePath "data") (listQueues stored_manager))
     then Fulfilled tt else Rejected "EIO").
Proof.
  assert (H : stored_in "data" stored_manager).
  { intros name q Hin. cbn in Hin. destruct Hin as [Hin|[]].
    now inversion Hin. }
  split; [exact H|].
  exact (proj1 (saveAllQueues_with_storage "data" stored_manager emptyFS H)).
Defined.

(** X24 on one subscription to the queue [jobs]: the client holds the
    object 0, the service has recorded the wrapper, the object 1. *)
Lemma unsubscribe_finds_no_subscriber_witness :
  In (Tracked.mkObject 0 (mkSubscriber (fun (_ : QueueEvent unit) (w : nat) => S w)))
     (fst (Tracked.session (fun _ (q : unit) => q)
             [Tracked.mkClientCall "jobs" (fun _ w => S w) None]
             (Tracked.mkWorld [("jobs", tt)] [] 0))) /\
  Tracked.unsubscribeFromQueue (fun _ (q : unit) => q) "jobs"
    (Tracked.mkObject 0 (mkSubscriber (fun (_ : QueueEvent unit) (w : nat) => S w)))
    (snd (Tracked.session (fun _ (q : unit) => q)
            [Tracked.mkClientCall "jobs" (fun _ w => S w) None]
            (Tracked.mkWorld [("jobs", tt)] [] 0)))
  = (false,
     snd (Tracked.session (fun _ (q : unit) => q)
            [Tracked.mkClientCall "jobs" (fun _ w => S w) None]
            (Tracked.mkWorld [("jobs", tt)] [] 0))).
Proof.
  assert (H : In (Tracked.mkObject 0
                    (mkSubscriber (fun (_ : QueueEvent unit) (w : nat) => S w)))
                 (fst (Tracked.session (fun _ (q : unit) => q)
                         [Tracked.mkClientCall "jobs" (fun _ w => S w) None]
                         (Tracked.mkWorld [("jobs", tt)] [] 0))))
    by (left; reflexivity).
  split; [exact H|].
  exact (unsubscribe_finds_no_subscriber (fun _ (q : unit) => q)
           (fun _ (q : unit) => q)
           [Tracked.mkClientCall "jobs" (fun _ w => S w) None]
           [("jobs", tt)] "jobs" _ H).
Defined.

(** The loop does find an object that was recorded: unsubscribing the
    wrapper itself, the object 1, returns true. *)
Example unsubscribe_wrapper :
  fst (Tracked.unsubscribeFromQueue (fun _ (q : unit) => q) "jobs"
         (Tracked.mkObject 1
            (mkSubscriber (fun (_ : QueueEvent unit) (w : nat) => w)))
         (snd (Tracked.session (fun _ (q : unit) => q)
                 [Tracked.mkClientCall "jobs" (fun _ w => S w) None]
                 (Tracked.mkWorld [("jobs", tt)] [] 0))))
  = true.
Proof. reflexivity. Qed.
